(** * Documentation aggregation: a shallow embedding of [scripts/aggregate.ts]

    The script clears the output root, copies the documentation of every
    configured repository below it, rewrites the front matter of every
    markdown document so that it carries a [custom_edit_url], and adds a
    fallback index where a repository has none.

    Three scripts work on the same trees and are embedded beside it:
    [fixMdxCodeBlocks], which wraps the module statements of the
    aggregated documents in code fences; [setupTestSources], which
    writes the sources of the test suite; and [syncLocalRepos], which
    copies the local clones below [_sources].

    Layout of the development:
    - strings and JavaScript values, the front-matter merge;
    - POSIX path joining and the edit URL;
    - the front-matter codec (gray-matter) over a table of engines;
    - the scan of [fixMdxCodeBlocks], the tables of the other scripts;
    - an in-memory file tree with the fs-extra and globby operations the
      scripts call, in an error monad with a console;
    - [run] and [main], and the bodies of the other scripts, transcribed
      statement by statement;
    - the properties. *)

From Stdlib Require Import Ascii String.
From stdpp Require Import gmap strings list fin_maps pretty.

Set Warnings "-register-all".

Local Open Scope string_scope.
Local Open Scope list_scope.

(** ** Strings *)

Module Str.

Definition slash : ascii := "/"%char.
Definition backslash : ascii := "\"%char.
Definition LF : string := String (ascii_of_nat 10) EmptyString.
Definition CR : string := String (ascii_of_nat 13) EmptyString.
Definition DQUOTE : string := String (ascii_of_nat 34) EmptyString.
Definition BACKTICK : string := String (ascii_of_nat 96) EmptyString.

(** [s.split(c)] for a one-character separator: never the empty list. *)
Fixpoint split_on (c : ascii) (s : string) : list string :=
  match s with
  | EmptyString => [EmptyString]
  | String a s' =>
      if Ascii.eqb a c then EmptyString :: split_on c s'
      else match split_on c s' with
           | [] => [String a EmptyString]
           | x :: xs => String a x :: xs
           end
  end.

(** [l.join(sep)] *)
Definition join_with (sep : string) (l : list string) : string :=
  String.concat sep l.

(** [s.replace(/c/g, d)] for single characters. *)
Fixpoint replace_all (c d : ascii) (s : string) : string :=
  match s with
  | EmptyString => EmptyString
  | String a s' => String (if Ascii.eqb a c then d else a) (replace_all c d s')
  end.

Fixpoint contains (c : ascii) (s : string) : bool :=
  match s with
  | EmptyString => false
  | String a s' => Ascii.eqb a c || contains c s'
  end.

Definition starts_with (p s : string) : bool := String.prefix p s.

Fixpoint drop (n : nat) (s : string) : string :=
  match n, s with
  | O, _ => s
  | S n', String _ s' => drop n' s'
  | S _, EmptyString => EmptyString
  end.

Definition ends_with (suffix s : string) : bool :=
  let n := String.length s in
  let k := String.length suffix in
  (k <=? n)%nat && String.eqb (drop (n - k) s) suffix.

Definition first_char (s : string) : option ascii :=
  match s with EmptyString => None | String a _ => Some a end.

Fixpoint last_char (s : string) : option ascii :=
  match s with
  | EmptyString => None
  | String a EmptyString => Some a
  | String _ s' => last_char s'
  end.

(** ECMAScript white space and line terminators, which [trim],
    [trimStart] and the class [\s] of a regular expression strip.  A
    string holds the UTF-8 encoding of a text, so a white-space code
    point is one, two or three bytes:
    - TAB, LF, VT, FF, CR, SPACE: one byte;
    - U+00A0: C2 A0;
    - U+1680: E1 9A 80;
    - U+2000 to U+200A, U+2028, U+2029, U+202F: E2 80 80 to E2 80 8A,
      E2 80 A8, E2 80 A9, E2 80 AF;
    - U+205F: E2 81 9F;
    - U+3000: E3 80 80;
    - U+FEFF: EF BB BF. *)
Definition is_space (a : ascii) : bool :=
  let n := nat_of_ascii a in
  ((9 <=? n)%nat && (n <=? 13)%nat) || (n =? 32)%nat.

Definition is_space2 (a b : ascii) : bool :=
  (nat_of_ascii a =? 194)%nat && (nat_of_ascii b =? 160)%nat.

Definition is_space3 (a b c : ascii) : bool :=
  let x := nat_of_ascii a in
  let y := nat_of_ascii b in
  let z := nat_of_ascii c in
  ((x =? 225) && (y =? 154) && (z =? 128))%nat
  || ((x =? 226) && (y =? 128)
      && (((128 <=? z) && (z <=? 138)) || (z =? 168) || (z =? 169) || (z =? 175)))%nat
  || ((x =? 226) && (y =? 129) && (z =? 159))%nat
  || ((x =? 227) && (y =? 128) && (z =? 128))%nat
  || ((x =? 239) && (y =? 187) && (z =? 191))%nat.

(** [s.trimStart()] *)
Fixpoint trimStart (s : string) : string :=
  match s with
  | EmptyString => EmptyString
  | String a s1 =>
      if is_space a then trimStart s1
      else
        match s1 with
        | EmptyString => s
        | String b s2 =>
            if is_space2 a b then trimStart s2
            else
              match s2 with
              | EmptyString => s
              | String c s3 => if is_space3 a b c then trimStart s3 else s
              end
        end
  end.

(** [s.indexOf(needle)], [None] for -1. *)
Fixpoint index_of (needle s : string) : option nat :=
  if String.prefix needle s then Some O
  else match s with
       | EmptyString => None
       | String _ s' => S <$> index_of needle s'
       end.

Fixpoint take (n : nat) (s : string) : string :=
  match n, s with
  | O, _ => EmptyString
  | S n', String a s' => String a (take n' s')
  | S _, EmptyString => EmptyString
  end.

(** [s.trimEnd()]: the text up to the white space that ends it. *)
Fixpoint trimEnd (s : string) : string :=
  match s with
  | EmptyString => EmptyString
  | String a s' => if String.eqb (trimStart s) "" then "" else String a (trimEnd s')
  end.

(** [s.trim()] *)
Definition trim (s : string) : string := trimEnd (trimStart s).

(** [s.includes(needle)] *)
Definition includes (needle s : string) : bool :=
  bool_decide (is_Some (index_of needle s)).

End Str.

(** ** JavaScript values

    The values a front-matter block can hold.  Objects keep their
    properties in insertion order, as an association list; keys that look
    like array indices, which JavaScript enumerates first, are not
    reordered. *)

Inductive value : Type :=
| VUndefined
| VNull
| VBool (b : bool)
| VNum (n : Z)
| VStr (s : string)
| VArr (items : list value)
| VObj (fields : list (string * value)).

Definition object := list (string * value).

(** [o[k]] on own properties; [None] stands for [undefined]. *)
Fixpoint obj_get (k : string) (o : object) : option value :=
  match o with
  | [] => None
  | (k', v) :: o' => if String.eqb k k' then Some v else obj_get k o'
  end.

(** [o[k] = v]: an existing property keeps its position. *)
Fixpoint obj_set (k : string) (v : value) (o : object) : object :=
  match o with
  | [] => [(k, v)]
  | (k', v') :: o' =>
      if String.eqb k k' then (k, v) :: o' else (k', v') :: obj_set k v o'
  end.

Fixpoint indexed {A} (f : A → value) (i : nat) (l : list A) : object :=
  match l with
  | [] => []
  | x :: l' => (pretty i, f x) :: indexed f (S i) l'
  end.

(** The own enumerable properties that [{...v}] copies. *)
Definition spread (v : value) : object :=
  match v with
  | VObj fields => fields
  | VArr items => indexed id 0 items
  | VStr s => indexed (λ a, VStr (String a EmptyString)) 0 (list_ascii_of_string s)
  | _ => []
  end.

(** [v?.k] *)
Definition get_prop (v : value) (k : string) : value :=
  match v with
  | VObj fields => default VUndefined (obj_get k fields)
  | _ => VUndefined
  end.

Definition nullish (v : value) : bool :=
  match v with VUndefined | VNull => true | _ => false end.

(** [a ?? b] *)
Definition coalesce (a b : value) : value := if nullish a then b else a.

Definition edit_key : string := "custom_edit_url".

(** aggregate.ts, lines 72-76:
    [{ ...fm.data, custom_edit_url: fm.data?.custom_edit_url ?? custom }] *)
Definition merge_front_matter (data : value) (custom : string) : object :=
  obj_set edit_key (coalesce (get_prop data edit_key) (VStr custom)) (spread data).

(** ** Paths

    A path is kept as its list of segments, read from the working
    directory; [render] writes it with forward slashes. *)

Definition path := list string.

Module Path.

Definition of_string (s : string) : path := Str.split_on Str.slash s.
Definition render (p : path) : string := Str.join_with "/" p.

(** Node's [normalizeString], segment by segment; [acc] is the result
    so far, last segment first. *)
Fixpoint normalize_rev (allowAboveRoot : bool) (acc : list string) (segs : list string)
  : list string :=
  match segs with
  | [] => acc
  | s :: rest =>
      if decide (s = "" ∨ s = ".") then normalize_rev allowAboveRoot acc rest
      else if decide (s = "..") then
        match acc with
        | top :: acc' =>
            if decide (top = "..")
            then normalize_rev allowAboveRoot
                   (if allowAboveRoot then ".." :: acc else acc) rest
            else normalize_rev allowAboveRoot acc' rest
        | [] =>
            normalize_rev allowAboveRoot
              (if allowAboveRoot then [".."] else []) rest
        end
      else normalize_rev allowAboveRoot (s :: acc) rest
  end.

Definition normalize_segs (allowAboveRoot : bool) (segs : list string) : list string :=
  List.rev (normalize_rev allowAboveRoot [] segs).

(** [path.posix.normalize] *)
Definition posix_normalize (p : string) : string :=
  if String.eqb p "" then "."
  else
    let isAbsolute := bool_decide (Str.first_char p = Some Str.slash) in
    let trailingSeparator := bool_decide (Str.last_char p = Some Str.slash) in
    let body := render (normalize_segs (negb isAbsolute) (of_string p)) in
    if String.eqb body "" then
      if isAbsolute then "/" else if trailingSeparator then "./" else "."
    else
      let body := if trailingSeparator then body +:+ "/" else body in
      if isAbsolute then "/" +:+ body else body.

(** [path.posix.join(a, b)]: empty arguments are skipped. *)
Definition posix_join (a b : string) : string :=
  if String.eqb a "" then
    if String.eqb b "" then "." else posix_normalize b
  else if String.eqb b "" then posix_normalize a
  else posix_normalize (a +:+ "/" +:+ b).

(** [path.join] on segment lists of relative paths; a path that climbs
    above the working directory keeps its leading [".."] segments. *)
Definition join (a b : path) : path := normalize_segs true (a ++ b).

(** [path.dirname] *)
Definition dirname (p : path) : path := removelast p.

(** The path a string denotes, relative to the working directory. *)
Definition resolve (s : string) : path := join [] (of_string s).

(** The string of a normalized path; the empty path is ["."]. *)
Definition to_string (p : path) : string :=
  match p with [] => "." | _ => render p end.

(** [path.posix.resolve(cwd, p)] for an absolute [cwd]: the absolute
    path, with no trailing separator. *)
Definition posix_resolve (cwd p : string) : string :=
  let full := if Str.starts_with "/" p then p else cwd +:+ "/" +:+ p in
  "/" +:+ render (normalize_segs false (of_string full)).

End Path.

(** ** The repository table *)

Record RepoSpec := {
  repo : string;            (* "peers-app/peers-sdk" *)
  local : string;           (* where the checkout was placed *)
  docsDir : option string;  (* default "docs"; "." for root-level docs *)
  branch : option string;   (* default "main" *)
}.

Definition REPOS : list RepoSpec := [
  {| repo := "peers-app/peers-sdk"; local := "_sources/peers-sdk";
     docsDir := Some "docs"; branch := Some "main" |};
  {| repo := "peers-app/peers-ui"; local := "_sources/peers-ui";
     docsDir := Some "."; branch := Some "main" |};
  {| repo := "peers-app/peers-host"; local := "_sources/peers-host";
     docsDir := Some "."; branch := Some "main" |};
  {| repo := "peers-app/peers-electron"; local := "_sources/peers-electron";
     docsDir := Some "."; branch := Some "main" |};
  {| repo := "peers-app/peers-react-native"; local := "_sources/peers-react-native";
     docsDir := Some "."; branch := Some "main" |}
].

Definition OUT_ROOT : string := "projects".

(** [r.repo.split('/')[1]]; [None] is [undefined]. *)
Definition short_name (r : RepoSpec) : option string :=
  Str.split_on Str.slash (repo r) !! 1%nat.

(** [r.docsDir === '.'] *)
Definition root_files (r : RepoSpec) : bool :=
  bool_decide (docsDir r = Some ".").

(** ** The edit URL (aggregate.ts, lines 69-70) *)

Definition sourceRelPath (r : RepoSpec) (rel : string) : string :=
  if root_files r then rel
  else Path.posix_join (default "docs" (docsDir r)) rel.

Definition custom_url (r : RepoSpec) (rel : string) : string :=
  "https://github.com/" +:+ repo r +:+ "/edit/" +:+ default "main" (branch r)
  +:+ "/" +:+ Str.replace_all Str.backslash Str.slash (sourceRelPath r rel).

(** The URL of the repository itself, used for the synthesized index. *)
Definition repo_url (r : RepoSpec) : string := "https://github.com/" +:+ repo r.

(** ** Exceptions and the front-matter codec *)

Inductive errno := ENOENT | EACCES | EEXIST | ENOTDIR | EISDIR | ENOSPC | EIO | EINVAL.

Inductive fs_op := OpEmptyDir | OpEnsureDir | OpCopy | OpReadFile | OpWriteFile | OpGlob.

Inductive exn :=
| FsError (code : errno) (op : fs_op) (p : path)
| TypeError (msg : string)
| EngineNotRegistered (language : string)
| EngineFailure (language : string) (block : string).

(** What [path.join] throws for an argument that is no string. *)
Definition path_type_error : exn :=
  TypeError ("The " +:+ Str.DQUOTE +:+ "path" +:+ Str.DQUOTE
             +:+ " argument must be of type string. Received undefined").

Inductive result (A : Type) :=
| Ok (a : A)
| Throw (e : exn).
Arguments Ok {A} a.
Arguments Throw {A} e.

Definition result_bind {A B} (x : result A) (f : A → result B) : result B :=
  match x with Ok a => f a | Throw e => Throw e end.

(** A front-matter engine as gray-matter registers it: [parse] and
    [stringify], each of which may throw ([None]). *)
Record Engine := {
  engine_parse : string → option value;
  engine_stringify : value → option string;
}.

Record GrayMatterFile := {
  data : value;
  content : string;
  language : string;
}.

Module GrayMatter.

Definition BOM : string :=
  String (ascii_of_nat 239) (String (ascii_of_nat 187) (String (ascii_of_nat 191) EmptyString)).

Definition stripBom (s : string) : string :=
  if Str.starts_with BOM s then Str.drop 3 s else s.

(** Position of the first line break, [/\r?\n/]. *)
Fixpoint search_newline (s : string) : option nat :=
  match s with
  | EmptyString => None
  | String a s' =>
      if Ascii.eqb a (ascii_of_nat 10) then Some O
      else if Ascii.eqb a (ascii_of_nat 13) && Str.starts_with Str.LF s' then Some O
      else S <$> search_newline s'
  end.

(** [matter.language]: what follows the opening delimiter on its line.
    Without a line break [search] is -1 and [slice(0, -1)] drops the
    last character. *)
Definition language_raw (str : string) : string :=
  match search_newline str with
  | Some i => Str.take i str
  | None => Str.take (String.length str - 1) str
  end.

(** What is left after [\s*]. *)
Definition skip_spaces (s : string) : string := Str.trimStart s.

Fixpoint skip_line (s : string) : string :=
  match s with
  | String a s' => if Ascii.eqb a (ascii_of_nat 10) then s else skip_line s'
  | EmptyString => EmptyString
  end.

(** Does [/^\s*#[^\n]+/] match at this line start?  If so, what is
    left after the match. *)
Definition comment_at (s : string) : option string :=
  match skip_spaces s with
  | String a (String b rest) =>
      if Ascii.eqb a "#"%char && negb (Ascii.eqb b (ascii_of_nat 10))
      then Some (skip_line rest) else None
  | _ => None
  end.

(** [matter.replace(/^\s*#[^\n]+/gm, '')]; [fuel] bounds the number of
    removed comments by the length of the block. *)
Fixpoint strip_comments (fuel : nat) (at_line_start : bool) (s : string) : string :=
  match fuel with
  | O => s
  | S fuel' =>
      match (if at_line_start then comment_at s else None) with
      | Some rest => strip_comments fuel' false rest
      | None =>
          match s with
          | EmptyString => EmptyString
          | String a s' =>
              String a (strip_comments fuel' (Ascii.eqb a (ascii_of_nat 10)) s')
          end
      end
  end.

Definition is_empty_block (block : string) : bool :=
  String.eqb (Str.trim (strip_comments (S (String.length block)) true block)) "".

Definition newline (s : string) : string :=
  if bool_decide (Str.last_char s = Some (ascii_of_nat 10)) then s else s +:+ Str.LF.

Definition strip_prefix (p s : string) : string :=
  if Str.starts_with p s then Str.drop (String.length p) s else s.

(** [utils.aliase] *)
Definition aliase (name : string) : string :=
  if decide (name = "js" ∨ name = "javascript") then "javascript"
  else if decide (name = "coffee" ∨ name = "coffeescript" ∨ name = "cson") then "coffee"
  else if decide (name = "yaml" ∨ name = "yml") then "yaml"
  else name.

Section Codec.

(** The registered engines, [options.engines], by name. *)
Variable engines : string → option Engine.

(** [getEngine]: [engines[name] || engines[aliase(name)]] *)
Definition getEngine (name : string) : result Engine :=
  match engines name with
  | Some e => Ok e
  | None =>
      match engines (aliase name) with
      | Some e => Ok e
      | None => Throw (EngineNotRegistered name)
      end
  end.

Definition parse (lang block : string) : result value :=
  result_bind (getEngine lang) (λ e,
    match engine_parse e block with
    | Some v => Ok v
    | None => Throw (EngineFailure lang block)
    end).

(** [parseMatter], with the default delimiters and no excerpt. *)
Definition parseMatter (input : string) : result GrayMatterFile :=
  let file := {| data := VObj []; content := input; language := "yaml" |} in
  if negb (Str.starts_with "---" input) then Ok file
  else if Str.starts_with "-" (Str.drop 3 input) then Ok file
  else
    let str := Str.drop 3 input in
    let len := String.length str in
    let raw := language_raw str in
    let name := Str.trim raw in
    let lang := if String.eqb name "" then "yaml" else name in
    let str := if String.eqb name "" then str else Str.drop (String.length raw) str in
    let close := Str.LF +:+ "---" in
    let closeIndex := Str.index_of close str in
    let block := match closeIndex with Some i => Str.take i str | None => str end in
    let body :=
      match closeIndex with
      | None => ""
      | Some i =>
          strip_prefix Str.LF (strip_prefix Str.CR (Str.drop (i + 4) str))
      end in
    if is_empty_block block
    then Ok {| data := VObj []; content := body; language := lang |}
    else
      result_bind (parse lang block) (λ d,
        Ok {| data := d; content := body; language := lang |}).

(** [matter(input)] *)
Definition matter (input : string) : result GrayMatterFile :=
  if String.eqb input ""
  then Ok {| data := VObj []; content := ""; language := "yaml" |}
  else parseMatter (stripBom input).

(** [Object.assign({}, a, b)] *)
Definition assign (a : value) (b : object) : object :=
  foldl (λ o kv, obj_set kv.1 kv.2 o) (spread a) b.

(** [matter.stringify(str, data)]: the string is parsed first, then
    written back below the serialized [data]. *)
Definition stringify (str : string) (d : object) : result string :=
  result_bind (matter str) (λ file,
  result_bind (getEngine (language file)) (λ e,
    let merged := assign (data file) d in
    match engine_stringify e (VObj merged) with
    | None => Throw (EngineFailure (language file) "")
    | Some yaml =>
        let block := Str.trim yaml in
        let buf :=
          if String.eqb block "{}" then ""
          else newline "---" +:+ newline block +:+ newline "---" in
        Ok (buf +:+ newline (content file))
    end)).

End Codec.

End GrayMatter.

(** ** A YAML engine for flat mappings

    gray-matter's default engine is js-yaml.  The theorems below hold for
    every table of engines; this small engine is the one the concrete
    examples are evaluated with.  It reads and writes the fragment of YAML
    that consists of [key: scalar] lines (null, booleans, decimal
    integers, plain and quoted strings without escapes), and refuses, as
    js-yaml does, a quoted scalar that is not closed and a key that
    occurs twice.  Anything richer is outside the fragment and is refused
    as well.  It writes a string plain when it can and in single quotes
    otherwise, as js-yaml does for the strings met here, and folds no
    long line. *)

Module FlatYaml.

Definition is_alpha (a : ascii) : bool :=
  let n := nat_of_ascii a in
  ((65 <=? n)%nat && (n <=? 90)%nat) || ((97 <=? n)%nat && (n <=? 122)%nat).

Definition is_digit (a : ascii) : bool :=
  let n := nat_of_ascii a in (48 <=? n)%nat && (n <=? 57)%nat.

Fixpoint all_chars (f : ascii → bool) (s : string) : bool :=
  match s with
  | EmptyString => true
  | String a s' => f a && all_chars f s'
  end.

Definition key_char (a : ascii) : bool :=
  is_alpha a || is_digit a || Ascii.eqb a "_"%char || Ascii.eqb a "-"%char.

Definition plain_char (a : ascii) : bool :=
  key_char a || Ascii.eqb a "."%char || Ascii.eqb a "/"%char || Ascii.eqb a " "%char.

Definition reserved : list string :=
  ["null"; "Null"; "NULL"; "true"; "True"; "TRUE"; "false"; "False"; "FALSE"].

Definition is_plain (s : string) : bool :=
  match s with
  | EmptyString => false
  | String a _ =>
      is_alpha a && all_chars plain_char s
      && negb (bool_decide (Str.last_char s = Some " "%char))
      && bool_decide (s ∉ reserved)
  end.

Fixpoint decimal (acc : Z) (s : string) : Z :=
  match s with
  | EmptyString => acc
  | String a s' => decimal (10 * acc + Z.of_nat (nat_of_ascii a - 48)) s'
  end.

(** The text between a pair of quotes [q], if [s] is so quoted and the
    quote does not occur inside. *)
Definition unquote (q : ascii) (s : string) : option string :=
  match s with
  | String a rest =>
      let inner := Str.take (String.length rest - 1) rest in
      if Ascii.eqb a q && bool_decide (Str.last_char rest = Some q)
         && negb (Str.contains q inner) && negb (Str.contains Str.backslash inner)
      then Some inner else None
  | EmptyString => None
  end.

Definition load_scalar (s : string) : option value :=
  if decide (s = "" ∨ s = "~" ∨ s = "null" ∨ s = "Null" ∨ s = "NULL") then Some VNull
  else if decide (s = "true" ∨ s = "True" ∨ s = "TRUE") then Some (VBool true)
  else if decide (s = "false" ∨ s = "False" ∨ s = "FALSE") then Some (VBool false)
  else if Str.starts_with "'" s then VStr <$> unquote "'"%char s
  else if Str.starts_with Str.DQUOTE s then VStr <$> unquote (ascii_of_nat 34) s
  else if all_chars is_digit s && negb (Str.starts_with "0" s && (1 <? String.length s)%nat)
  then Some (VNum (decimal 0 s))
  else if is_plain s then Some (VStr s)
  else None.

(** One [key: scalar] line. *)
Definition load_line (line : string) : option (string * value) :=
  match Str.index_of ":" line with
  | None => None
  | Some i =>
      let key := Str.take i line in
      let rest := Str.drop (S i) line in
      if negb (String.eqb key "") && all_chars key_char key
         && (String.eqb rest "" || Str.starts_with " " rest)
      then (λ v, (key, v)) <$> load_scalar (Str.trim rest)
      else None
  end.

Fixpoint load_lines (lines : list string) (acc : object) : option object :=
  match lines with
  | [] => Some acc
  | line :: rest =>
      if String.eqb (Str.trim line) "" || Str.starts_with "#" line
      then load_lines rest acc
      else
        match load_line line with
        | Some (k, v) =>
            match obj_get k acc with
            | Some _ => None
            | None => load_lines rest (acc ++ [(k, v)])
            end
        | None => None
        end
  end.

Definition load (block : string) : option value :=
  VObj <$> load_lines (Str.split_on (ascii_of_nat 10) block) [].

Definition dump_scalar (v : value) : option string :=
  match v with
  | VNull => Some "null"
  | VBool b => Some (if b then "true" else "false")
  | VNum n => Some (pretty n)
  | VStr s =>
      if is_plain s then Some s
      else if negb (Str.contains "'"%char s) && negb (Str.contains (ascii_of_nat 10) s)
      then Some ("'" +:+ s +:+ "'")
      else None
  | _ => None
  end.

Fixpoint dump_fields (o : object) : option string :=
  match o with
  | [] => Some ""
  | (k, v) :: o' =>
      if negb (String.eqb k "") && all_chars key_char k then
        s ← dump_scalar v; rest ← dump_fields o';
        Some (k +:+ ": " +:+ s +:+ Str.LF +:+ rest)
      else None
  end.

Definition dump (v : value) : option string :=
  match v with
  | VObj [] => Some ("{}" +:+ Str.LF)
  | VObj o => dump_fields o
  | _ => None
  end.

Definition engine : Engine := {| engine_parse := load; engine_stringify := dump |}.

(** The registry: only the YAML engine. *)
Definition engines (name : string) : option Engine :=
  if String.eqb name "yaml" then Some engine else None.

End FlatYaml.

(** ** The file tree and the script's monad

    A tree maps the segments of a path to a file (with its content) or a
    directory; the working directory [[]] is always a directory.  A
    computation runs on a tree and yields a result or an exception, the
    tree it left behind, and what it wrote to the console. *)

Inductive node :=
| File (text : string)
| Dir.

Inductive message :=
| Warn (text : string)
| Log (text : string)
| Error (e : exn).

Record outcome (A : Type) := Outcome {
  res : result A;
  fs : gmap path node;
  console : list message;
}.
Arguments Outcome {A} res fs console.
Arguments res {A} o.
Arguments fs {A} o.
Arguments console {A} o.

Definition M (A : Type) : Type := gmap path node → outcome A.

Definition ret {A} (a : A) : M A := λ t, Outcome (Ok a) t [].
Definition throw {A} (e : exn) : M A := λ t, Outcome (Throw e) t [].

Definition bind {A B} (m : M A) (f : A → M B) : M B := λ t,
  let o := m t in
  match res o with
  | Ok a => let o' := f a (fs o) in Outcome (res o') (fs o') (console o ++ console o')
  | Throw e => Outcome (Throw e) (fs o) (console o)
  end.

#[export] Instance M_ret : MRet M := @ret.
#[export] Instance M_bind : MBind M := λ A B f m, bind m f.

Definition lift {A} (r : result A) : M A :=
  match r with Ok a => ret a | Throw e => throw e end.

Definition get_tree : M (gmap path node) := λ t, Outcome (Ok t) t [].
Definition put_tree (t' : gmap path node) : M unit := λ _, Outcome (Ok tt) t' [].
Definition say (m : message) : M unit := λ t, Outcome (Ok tt) t [m].

(** [for (const x of l) { await f(x) }] *)
Fixpoint for_each {A} (l : list A) (f : A → M unit) : M unit :=
  match l with
  | [] => ret tt
  | x :: l' => f x ;; for_each l' f
  end.

Definition node_at (t : gmap path node) (p : path) : option node :=
  match p with [] => Some Dir | _ => t !! p end.

Definition strictly_below (p k : path) : Prop := p `prefix_of` k ∧ k ≠ p.

#[export] Instance strictly_below_dec p k : Decision (strictly_below p k).
Proof. unfold strictly_below. apply _. Defined.

(** [k] relative to [p], when [k] lies strictly below [p]. *)
Fixpoint relative_to (p k : path) : option path :=
  match p, k with
  | [], [] => None
  | [], _ => Some k
  | a :: p', b :: k' => if decide (a = b) then relative_to p' k' else None
  | _ :: _, [] => None
  end.

(** *** Glob patterns *)

Module Glob.

Inductive seg :=
| Lit (name : string)     (* a literal segment *)
| Star (suffix : string)  (* [*suffix] *)
| Globstar.               (* [**] *)

Definition parse_seg (s : string) : seg :=
  if String.eqb s "**" then Globstar
  else if Str.starts_with "*" s then Star (Str.drop 1 s)
  else Lit s.

Definition parse (pattern : string) : list seg :=
  parse_seg <$> Str.split_on Str.slash pattern.

(** With [dot: false] a wildcard matches no name that starts with a dot;
    a name is never empty. *)
Definition visible (name : string) : bool :=
  negb (String.eqb name "") && negb (Str.starts_with "." name).

Fixpoint matches (pat : list seg) : path → bool :=
  match pat with
  | [] => λ p, bool_decide (p = [])
  | Lit name :: pat' => λ p,
      match p with
      | x :: p' => String.eqb x name && matches pat' p'
      | [] => false
      end
  | Star suffix :: pat' => λ p,
      match p with
      | x :: p' => visible x && Str.ends_with suffix x && matches pat' p'
      | [] => false
      end
  | Globstar :: pat' =>
      fix skip (p : path) : bool :=
        matches pat' p
        || match p with
           | x :: p' => visible x && skip p'
           | [] => false
           end
  end.

End Glob.

(** ** Fencing stray module statements ([fixMdxCodeBlocks])

    The script reads every markdown file below [projects], and where a
    line outside a fenced code block starts with [export] or [import] it
    wraps the lines up to the next blank line or heading in a
    [typescript] fence.  This module is the scan of one file's lines: the
    array, the index and the flags of the loop, with [lines.splice] on the
    array.  ([codeBlockType] is assigned and never read; it is left
    out.) *)

Module FixMdx.

Definition OPEN : string := "```typescript".
Definition CLOSE : string := "```".

(** U+2E3B, the three-em dash, in UTF-8. *)
Definition RULE : string :=
  String (ascii_of_nat 226) (String (ascii_of_nat 184) (String (ascii_of_nat 187) EmptyString)).

(** [line.startsWith('```')] *)
Definition is_fence (line : string) : bool := Str.starts_with "```" line.

(** [line.trim().startsWith('export ') || line.trim().startsWith('import ')] *)
Definition is_module_line (line : string) : bool :=
  Str.starts_with "export " (Str.trim line) || Str.starts_with "import " (Str.trim line).

(** The test that ends a code section: a blank line, a heading, a rule. *)
Definition ends_section (line : string) : bool :=
  String.eqb (Str.trim line) "" || Str.starts_with "#" line || Str.starts_with RULE line.

(** [l.splice(start, 0, x)] *)
Definition splice {A} (start : nat) (x : A) (l : list A) : list A :=
  take start l ++ x :: drop start l.

(** The inner loop, [for (let j = i + 1; j < lines.length; j++)]: [rest]
    holds the lines from index [j] on, and the result is [endIndex]. *)
Fixpoint section_end (rest : list string) (j endIndex : nat) : nat :=
  match rest with
  | [] => endIndex
  | line :: rest' =>
      if ends_section line then j - 1 else section_end rest' (S j) j
  end.

(** The variables of the outer loop. *)
Record scan := Scan {
  lines : list string;
  i : nat;
  inCodeBlock : bool;
  modified : bool;
  logged : list message;
}.

Definition found (file : string) (i : nat) (line : string) : list message :=
  [Log ("⚠️  Found unescaped export/import in " +:+ file +:+ ":" +:+ pretty (i + 1));
   Log ("   Line: " +:+ Str.trim line)].

(** The outer loop, [for (let i = 0; i < lines.length; i++)], from the
    state [st]; every turn takes one unit of [fuel]. *)
Fixpoint loop (fuel : nat) (file : string) (st : scan) : scan :=
  match fuel with
  | O => st
  | S fuel' =>
      match lines st !! i st with
      | None => st
      | Some line =>
          if is_fence line then
            loop fuel' file
              {| lines := lines st; i := i st + 1;
                 inCodeBlock := negb (inCodeBlock st);
                 modified := modified st; logged := logged st |}
          else if negb (inCodeBlock st) && is_module_line line then
            let endIndex := section_end (drop (i st + 1) (lines st)) (i st + 1) (i st) in
            let lines1 := splice (i st) OPEN (lines st) in
            let lines2 := splice (endIndex + 2) CLOSE lines1 in
            loop fuel' file
              {| lines := lines2; i := endIndex + 2 + 1;
                 inCodeBlock := inCodeBlock st;
                 modified := true;
                 logged := logged st ++ found file (i st) line |}
          else
            loop fuel' file
              {| lines := lines st; i := i st + 1;
                 inCodeBlock := inCodeBlock st;
                 modified := modified st; logged := logged st |}
      end
  end.

(** The scan of the lines of [file].  Every turn moves the index closer
    to the end of the array, so the length of the array is fuel enough
    (this is proved with the properties of the scan). *)
Definition start (content : list string) : scan :=
  {| lines := content; i := 0; inCodeBlock := false; modified := false; logged := [] |}.

Definition fix_lines (file : string) (content : list string) : scan :=
  loop (length content) file (start content).

End FixMdx.

(** ** The filter of [syncLocalRepos]

    [fse.copy] asks the filter for every entry it meets, with the
    entry's path relative to the repository ([path.relative], POSIX
    separators). *)

Module SyncLocal.

Record RepoSpec := {
  repo : string;          (* "peers-app/peers-sdk" *)
  localSource : string;   (* "../peers-sdk", relative to this repository *)
  docsDir : option string;
  branch : option string;
}.

Definition REPOS : list RepoSpec := [
  {| repo := "peers-app/peers-sdk"; localSource := "../peers-sdk";
     docsDir := Some "docs"; branch := Some "main" |};
  {| repo := "peers-app/peers-ui"; localSource := "../peers-ui";
     docsDir := Some "."; branch := Some "main" |};
  {| repo := "peers-app/peers-device"; localSource := "../peers-device";
     docsDir := Some "."; branch := Some "main" |};
  {| repo := "peers-app/peers-electron"; localSource := "../peers-electron";
     docsDir := Some "."; branch := Some "main" |};
  {| repo := "peers-app/peers-react-native"; localSource := "../peers-react-native";
     docsDir := Some "."; branch := Some "main" |}
].

Definition SOURCES_ROOT : string := "_sources".

(** [r.repo.split('/')[1]] *)
Definition short_name (r : RepoSpec) : option string :=
  Str.split_on Str.slash (repo r) !! 1%nat.

(** The [filter] option, on [relativePath]. *)
Definition filter (relativePath : string) : bool :=
  if Str.includes "node_modules" relativePath then false
  else if Str.includes ".git" relativePath then false
  else if Str.includes "build" relativePath then false
  else if Str.includes "dist" relativePath then false
  else if Str.includes "coverage" relativePath then false
  else if Str.includes ".next" relativePath then false
  else if Str.includes "ios/Pods" relativePath then false
  else if Str.includes "android/.gradle" relativePath then false
  else true.

End SyncLocal.

(** ** The fixtures of [setupTestSources] *)

Module TestSources.

Record TestRepo := {
  name : string;
  structure : list (string * string);   (* file path, content *)
}.

Definition TEST_SOURCES_ROOT : string := "_sources".

Definition para (heading sentence : string) : string :=
  heading +:+ Str.LF +:+ Str.LF +:+ sentence.

Definition testRepos : list TestRepo := [
  {| name := "peers-sdk";
     structure := [
       ("docs/index.md", para "# Peers SDK" "Core SDK documentation.");
       ("docs/devices.md", para "# Device Management" "How to manage devices.");
       ("docs/data/orm.md", para "# ORM" "Data layer documentation.");
       ("README.md", para "# Peers SDK" "The core SDK for peers application.")] |};
  {| name := "peers-ui";
     structure := [
       ("README.md", para "# Peers UI" "React UI components for peers application.");
       ("COMPONENT_GUIDE.md", para "# Component Guide" "How to use UI components.")] |};
  {| name := "peers-host";
     structure := [
       ("README.md", para "# Peers Host" "Host service for peer management.");
       ("claude.md", para "# Claude Integration" "Notes about Claude usage.");
       ("peer-device-download-chunk.md",
        para "# Device Download" "Chunk download documentation.")] |};
  {| name := "peers-electron";
     structure := [
       ("README.md", para "# Peers Electron" "Electron desktop application.");
       ("CLAUDE.md", para "# Development Notes" "Development and architecture notes.");
       ("diagram.md", para "# Architecture Diagram" "System architecture overview.");
       ("packages.md", para "# Package Dependencies" "Key packages and their usage.")] |};
  {| name := "peers-react-native";
     structure := [
       ("README.md", para "# Peers React Native" "React Native mobile application.")] |}
].

End TestSources.

(** ** Concrete trees

    The sources that [scripts/setup-test-sources.ts] creates, and
    variations of them, for the examples at the end. *)

#[export] Instance errno_eq_dec : EqDecision errno.
Proof. solve_decision. Defined.

#[export] Instance fs_op_eq_dec : EqDecision fs_op.
Proof. solve_decision. Defined.

#[export] Instance node_eq_dec : EqDecision node.
Proof. solve_decision. Defined.

(** *** One more failure

    [with_fault faults op p code] is the environment [faults] in which,
    moreover, the operation [op] on [p] fails with [code]. *)
Definition with_fault (faults : fs_op → path → option errno)
    (op : fs_op) (p : path) (code : errno) : fs_op → path → option errno :=
  λ op' p', if decide (op' = op ∧ p' = p) then Some code else faults op' p'.

(** [m'] does what [m] does, or throws [e]. *)
Definition same_or_throws {A : Type} (e : exn) (m' m : M A) : Prop :=
  ∀ t, m' t = m t ∨ res (m' t) = Throw e.

Module Demo.

Definition no_faults : fs_op → path → option errno := λ _ _, None.

Definition no_env : string → option string := λ _, None.

(** The environment the test suite sets up. *)
Definition test_env : string → option string := λ name,
  if String.eqb name "OUT_ROOT" then Some "test-projects" else None.

Fixpoint with_dirs (base : path) (rest : list string) (t : gmap path node)
  : gmap path node :=
  match rest with
  | [] => t
  | s :: rest' => with_dirs (base ++ [s]) rest' (<[base ++ [s] := Dir]> t)
  end.

(** The tree [t] with the file [p] and the directories above it. *)
Definition file (p : string) (text : string) (t : gmap path node) : gmap path node :=
  <[Path.resolve p := File text]> (with_dirs [] (Path.dirname (Path.resolve p)) t).

Definition para (heading sentence : string) : string :=
  heading +:+ Str.LF +:+ Str.LF +:+ sentence.

Definition sdk_sources (t : gmap path node) : gmap path node :=
  file "_sources/peers-sdk/docs/index.md" (para "# Peers SDK" "Core SDK documentation.") $
  file "_sources/peers-sdk/docs/devices.md" (para "# Device Management" "How to manage devices.") $
  file "_sources/peers-sdk/docs/data/orm.md" (para "# ORM" "Data layer documentation.") $
  file "_sources/peers-sdk/README.md" (para "# Peers SDK" "The core SDK for peers application.") t.

Definition ui_sources (t : gmap path node) : gmap path node :=
  file "_sources/peers-ui/README.md" (para "# Peers UI" "React UI components for peers application.") $
  file "_sources/peers-ui/COMPONENT_GUIDE.md" (para "# Component Guide" "How to use UI components.") t.

Definition host_sources (t : gmap path node) : gmap path node :=
  file "_sources/peers-host/README.md" (para "# Peers Host" "Host service for peer management.") $
  file "_sources/peers-host/claude.md" (para "# Claude Integration" "Notes about Claude usage.") $
  file "_sources/peers-host/peer-device-download-chunk.md"
    (para "# Device Download" "Chunk download documentation.") t.

Definition electron_sources (t : gmap path node) : gmap path node :=
  file "_sources/peers-electron/README.md" (para "# Peers Electron" "Electron desktop application.") $
  file "_sources/peers-electron/CLAUDE.md"
    (para "# Development Notes" "Development and architecture notes.") $
  file "_sources/peers-electron/diagram.md"
    (para "# Architecture Diagram" "System architecture overview.") $
  file "_sources/peers-electron/packages.md"
    (para "# Package Dependencies" "Key packages and their usage.") t.

Definition react_native_sources (t : gmap path node) : gmap path node :=
  file "_sources/peers-react-native/README.md"
    (para "# Peers React Native" "React Native mobile application.") t.

(** The five repositories of the test set-up. *)
Definition sources : gmap path node :=
  sdk_sources $ ui_sources $ host_sources $ electron_sources $ react_native_sources ∅.

(** The same without the checkout of peers-host, and with the output of
    an earlier run of a repository that is no longer configured. *)
Definition partial_sources : gmap path node :=
  file "projects/retired/old.md" "# Old" $
  sdk_sources $ ui_sources $ electron_sources $ react_native_sources ∅.

(** Only peers-ui, with an image below [docs] and no README. *)
Definition ui_with_image : gmap path node :=
  file "_sources/peers-ui/other.md" "# Other Doc" $
  file "_sources/peers-ui/docs/shot.png" "PNG" ∅.

(** Only peers-ui, with an image three directories below its root. *)
Definition ui_nested_image : gmap path node :=
  file "_sources/peers-ui/docs/img/deep/shot.png" "PNG" ∅.

(** The copy of the docs directory of peers-sdk is refused. *)
Definition refused : fs_op → path → option errno :=
  with_fault no_faults OpCopy ["_sources"; "peers-sdk"; "docs"] EACCES.

(** Only peers-sdk, with an image in its docs directory. *)
Definition sdk_with_image : gmap path node :=
  file "_sources/peers-sdk/docs/arch.png" "PNG" $ sdk_sources ∅.

Definition front_matter (lines : list string) (body : string) : string :=
  "---" +:+ Str.LF +:+ Str.join_with Str.LF lines +:+ Str.LF +:+ "---" +:+ Str.LF +:+ body.

(** A README that disables its edit link by hand. *)
Definition readme_null : string :=
  front_matter ["title: Peers UI"; "custom_edit_url: null"] "# Peers UI".

(** A README with an edit URL of its own. *)
Definition readme_own : string :=
  front_matter ["title: Peers UI"; "custom_edit_url: 'https://example.org/edit/ui'"] "# Peers UI".


Definition ui_readme (text : string) : gmap path node :=
  file "_sources/peers-ui/README.md" text ∅.

(** The copy of one file fails with "not found". *)
Definition vanishing : fs_op → path → option errno := λ op p,
  if decide (op = OpCopy ∧ p = ["_sources"; "peers-ui"; "README.md"])
  then Some ENOENT else None.


(** A clone of peers-sdk beside the site. *)
Definition sdk_clone : gmap path node :=
  file "../peers-sdk/README.md" "# Peers SDK" $
  file "../peers-sdk/.gitignore" "node_modules" $
  file "../peers-sdk/docs/rebuild.md" "# Rebuild" $
  file "../peers-sdk/docs/index.md" "# Docs" ∅.

Definition peers_sdk : RepoSpec :=
  {| repo := "peers-app/peers-sdk"; local := "_sources/peers-sdk";
     docsDir := Some "docs"; branch := Some "main" |}.

Definition peers_ui : RepoSpec :=
  {| repo := "peers-app/peers-ui"; local := "_sources/peers-ui";
     docsDir := Some "."; branch := Some "main" |}.

Definition peers_host : RepoSpec :=
  {| repo := "peers-app/peers-host"; local := "_sources/peers-host";
     docsDir := Some "."; branch := Some "main" |}.

End Demo.

Section Script.

(** The engines registered with gray-matter. *)
Variable engines : string → option Engine.

(** The environment's failures: the error, if any, with which an
    operation on a path fails (permissions, a full disk, a path that
    vanished under the script). *)
Variable faults : fs_op → path → option errno.

Definition attempt (op : fs_op) (p : path) : M unit :=
  match faults op p with
  | Some code => throw (FsError code op p)
  | None => ret tt
  end.

(** *** fs-extra *)

(** [fse.existsSync]: never throws. *)
Definition existsSync (p : path) : M bool :=
  t ← get_tree; ret (bool_decide (is_Some (node_at t p))).

(** [mkdir -p] below [base]. *)
Fixpoint mkdirs_from (base : path) (rest : list string) (t : gmap path node)
  : result (gmap path node) :=
  match rest with
  | [] => Ok t
  | s :: rest' =>
      let q := base ++ [s] in
      match t !! q with
      | None => mkdirs_from q rest' (<[q := Dir]> t)
      | Some Dir => mkdirs_from q rest' t
      | Some (File _) =>
          Throw (FsError (match rest' with [] => EEXIST | _ => ENOTDIR end) OpEnsureDir q)
      end
  end.

Definition mkdirs (p : path) : M unit :=
  t ← get_tree; t' ← lift (mkdirs_from [] p t); put_tree t'.

(** [fse.ensureDir] *)
Definition ensureDir (p : path) : M unit := attempt OpEnsureDir p ;; mkdirs p.

(** [fse.emptyDir]: the entries of an existing directory are removed;
    when the directory cannot be read it is created. *)
Definition emptyDir (p : path) : M unit :=
  attempt OpEmptyDir p ;;
  t ← get_tree;
  match node_at t p with
  | Some Dir => put_tree (filter (λ kv, ¬ strictly_below p kv.1) t)
  | _ => mkdirs p
  end.

(** One entry of a directory copy: a file replaces a file, a directory
    merges into a directory, and a file never replaces a directory nor
    a directory a file. *)
Definition place (dest : path) (n : node) (t : gmap path node)
  : result (gmap path node) :=
  match n, node_at t dest with
  | File _, Some Dir => Throw (FsError EISDIR OpCopy dest)
  | Dir, Some (File _) => Throw (FsError ENOTDIR OpCopy dest)
  | Dir, Some Dir => Ok t
  | _, _ => Ok (<[dest := n]> t)
  end.

Fixpoint place_all (dest : path) (entries : list (path * node)) (t : gmap path node)
  : result (gmap path node) :=
  match entries with
  | [] => Ok t
  | (rel, n) :: rest =>
      result_bind (place (dest ++ rel) n t) (place_all dest rest)
  end.

(** The entries strictly below [p], with their paths relative to [p]. *)
Definition entries_below (p : path) (t : gmap path node) : list (path * node) :=
  omap (λ kv, (λ rel, (rel, kv.2)) <$> relative_to p kv.1) (map_to_list t).

(** [fse.copy(src, dest)] with the default options (overwrite).  A
    failure leaves the tree as it was. *)
Definition copy (src dest : path) : M unit :=
  attempt OpCopy src ;;
  t ← get_tree;
  match node_at t src with
  | None => throw (FsError ENOENT OpCopy src)
  | Some n =>
      if decide (src `prefix_of` dest) then throw (FsError EINVAL OpCopy dest)
      else
        t1 ← lift (mkdirs_from [] (Path.dirname dest) t);
        t2 ← lift (place dest n t1);
        t3 ← lift (match n with
                   | Dir => place_all dest (entries_below src t) t2
                   | File _ => Ok t2
                   end);
        put_tree t3
  end.

(** [fse.readFile(p, 'utf-8')] *)
Definition readFile (p : path) : M string :=
  attempt OpReadFile p ;;
  t ← get_tree;
  match node_at t p with
  | Some (File text) => ret text
  | Some Dir => throw (FsError EISDIR OpReadFile p)
  | None => throw (FsError ENOENT OpReadFile p)
  end.

(** [fse.writeFile(p, text)]: the parent directory must exist. *)
Definition writeFile (p : path) (text : string) : M unit :=
  attempt OpWriteFile p ;;
  t ← get_tree;
  match node_at t p, node_at t (Path.dirname p) with
  | Some Dir, _ => throw (FsError EISDIR OpWriteFile p)
  | _, Some Dir => put_tree (<[p := File text]> t)
  | _, Some (File _) => throw (FsError ENOTDIR OpWriteFile p)
  | _, None => throw (FsError ENOENT OpWriteFile p)
  end.

(** *** globby *)

(** [expandDirectories]: a pattern that names a directory stands for
    everything below it. *)
Definition expand (t : gmap path node) (cwd : path) (pattern : string) : list Glob.seg :=
  match node_at t (Path.join cwd (Path.of_string pattern)) with
  | Some Dir => Glob.parse pattern ++ [Glob.Globstar]
  | _ => Glob.parse pattern
  end.

Definition selected (pats : list (list Glob.seg)) (kv : path * node) : bool :=
  match kv.2 with
  | File _ => existsb (λ pat, Glob.matches pat kv.1) pats
  | Dir => false
  end.

(** [globby(patterns, { cwd })]: the files below [cwd] that match one of
    the patterns, relative to [cwd].  A missing [cwd] yields nothing; a
    [cwd] that is a file is an error.  The order of the result is that
    of the tree's enumeration. *)
Definition globby (patterns : list string) (cwd : path) : M (list path) :=
  attempt OpGlob cwd ;;
  t ← get_tree;
  match node_at t cwd with
  | Some (File _) => throw (FsError ENOTDIR OpGlob cwd)
  | _ =>
      ret ((filter (λ kv, selected (expand t cwd <$> patterns) kv) (entries_below cwd t)).*1)
  end.

(** *** scripts/aggregate.ts *)

Definition markdownPatterns : list string := ["*.md"; "*.mdx"].
Definition docPatterns : list string :=
  ["docs/**/*"; "documentation/**/*"; "*.md"; "CLAUDE.md"].
Definition injectPatterns : list string := ["**/*.md"; "**/*.mdx"].
Definition indexCandidates : list string := ["index.md"; "README.md"].

(** [l.some(f)] *)
Fixpoint some {A} (l : list A) (f : A → M bool) : M bool :=
  match l with
  | [] => ret false
  | x :: l' => b ← f x; if b : bool then ret true else some l' f
  end.

(** Lines 36-55: root-level docs. *)
Definition copy_root_files (srcDocs out : path) : M unit :=
  ensureDir out ;;
  markdownFiles ← globby markdownPatterns srcDocs;
  for_each markdownFiles (λ file,
    copy (Path.join srcDocs file) (Path.join out file)) ;;
  docFiles ← globby docPatterns srcDocs;
  for_each docFiles (λ file,
    let srcFile := Path.join srcDocs file in
    let destFile := Path.join out file in
    e ← existsSync srcFile;
    if e : bool then ensureDir (Path.dirname destFile) ;; copy srcFile destFile
    else ret tt).

(** Lines 66-78, on the text of one document: the text written back. *)
Definition annotate (r : RepoSpec) (rel : string) (raw : string) : result string :=
  result_bind (GrayMatter.matter engines raw) (λ fm,
    GrayMatter.stringify engines
      (Str.trimStart (content fm) +:+ Str.LF)
      (merge_front_matter (data fm) (custom_url r rel))).

(** Lines 61-79: inject [custom_edit_url] into every .md/.mdx. *)
Definition inject (r : RepoSpec) (out : path) : M unit :=
  files ← globby injectPatterns out;
  for_each files (λ rel,
    let abs := Path.join out rel in
    raw ← readFile abs;
    text ← lift (annotate r (Path.render rel) raw);
    writeFile abs text).

Definition index_body (r : RepoSpec) (name : string) : string :=
  "# " +:+ name +:+ Str.LF +:+ Str.LF
  +:+ "Project documentation aggregated from "
  +:+ Str.BACKTICK +:+ repo r +:+ Str.BACKTICK +:+ "." +:+ Str.LF.

(** Lines 81-92: add an index if missing. *)
Definition add_index (r : RepoSpec) (name : string) (out : path) : M unit :=
  hasIndex ← some indexCandidates (λ n, existsSync (Path.join out (Path.of_string n)));
  if negb hasIndex : bool then
    text ← lift (GrayMatter.stringify engines (index_body r name)
                   [(edit_key, VStr (repo_url r))]);
    writeFile (Path.join out (Path.of_string "index.md")) text
  else ret tt.

Definition srcDocs_of (r : RepoSpec) : path :=
  Path.join (Path.of_string (local r)) (Path.of_string (default "docs" (docsDir r))).

Definition out_of (name : string) : path :=
  Path.join (Path.of_string OUT_ROOT) (Path.of_string name).

(** Line 31; [srcDocs] is printed as [path.join] returns it. *)
Definition skip_warning (r : RepoSpec) : message :=
  Warn ("[skip] " +:+ repo r +:+ " has no "
        +:+ Path.posix_join (local r) (default "docs" (docsDir r))).

(** Lines 27-92: the body of the loop.  [path.join] rejects the
    [undefined] that a repository identifier without a slash yields. *)
Definition process_repo (r : RepoSpec) : M unit :=
  let srcDocs := srcDocs_of r in
  match short_name r with
  | None => throw path_type_error
  | Some name =>
      let out := out_of name in
      e ← existsSync srcDocs;
      if negb e : bool then say (skip_warning r)
      else
        (if root_files r then copy_root_files srcDocs out else copy srcDocs out) ;;
        inject r out ;;
        add_index r name out
  end.

(** Lines 23-96. *)
Definition run (repos : list RepoSpec) : M unit :=
  emptyDir (Path.resolve OUT_ROOT) ;;
  for_each repos process_repo ;;
  say (Log "Aggregation complete.").

(** Lines 98-101: [run().catch(err => { console.error(err); process.exit(1) })].
    [env] is [process.env], which the script has at hand and never reads. *)
Definition main (env : string → option string) (repos : list RepoSpec) (t : gmap path node)
  : nat * outcome unit :=
  let o := run repos t in
  match res o with
  | Ok _ => (0%nat, o)
  | Throw e => (1%nat, Outcome (Throw e) (fs o) (console o ++ [Error e]))
  end.


(** *** fixMdxCodeBlocks

    The body of the function; the script exits with status 1 when it
    throws. *)

Definition fixPatterns : list string := ["projects/**/*.md"].

(** The body of the loop over the files. *)
Definition fix_file (file : path) : M unit :=
  content ← readFile file;
  let st := FixMdx.fix_lines (Path.render file) (Str.split_on (ascii_of_nat 10) content) in
  for_each (FixMdx.logged st) say ;;
  if FixMdx.modified st : bool then
    writeFile file (Str.join_with Str.LF (FixMdx.lines st)) ;;
    say (Log ("✅ Fixed MDX issues in " +:+ Path.render file))
  else ret tt.

Definition fixMdxCodeBlocks : M unit :=
  say (Log "Fixing MDX code block issues...") ;;
  files ← globby fixPatterns [];
  for_each files fix_file ;;
  say (Log "MDX code block fixing complete!").

(** *** setupTestSources

    The body of the function, with the table of fixtures as a
    parameter. *)

Definition repoPath_of (repo : TestSources.TestRepo) : path :=
  Path.join (Path.of_string TestSources.TEST_SOURCES_ROOT)
            (Path.of_string (TestSources.name repo)).

Definition fullPath_of (repo : TestSources.TestRepo) (filePath : string) : path :=
  Path.join (repoPath_of repo) (Path.of_string filePath).

(** The body of the loop over the repositories. *)
Definition create_test_repo (repo : TestSources.TestRepo) : M unit :=
  ensureDir (repoPath_of repo) ;;
  for_each (TestSources.structure repo) (λ entry,
    let fullPath := fullPath_of repo entry.1 in
    ensureDir (Path.dirname fullPath) ;;
    writeFile fullPath entry.2) ;;
  say (Log ("✓ Created test repo: " +:+ TestSources.name repo)).

Definition setupTestSources (testRepos : list TestSources.TestRepo) : M unit :=
  say (Log "Setting up test source directories...") ;;
  emptyDir (Path.resolve TestSources.TEST_SOURCES_ROOT) ;;
  for_each testRepos create_test_repo ;;
  say (Log "Test sources setup complete!").

(** *** syncLocalRepos

    The body of the function, with the table of repositories as a
    parameter.  [process_cwd] is [process.cwd()], which [path.resolve]
    puts in front of a relative path; [execSync] gives the output of a command
    run in a directory, or [None] when it throws. *)

Section Sync.

Variable process_cwd : string.
Variable execSync : string → path → option string.

(** [fse.pathExists] *)
Definition pathExists (p : path) : M bool := existsSync p.

(** The non-empty prefixes of a path, the shortest first. *)
Fixpoint ancestors (p : path) : list path :=
  match p with
  | [] => []
  | x :: p' => [x] :: (cons x <$> ancestors p')
  end.

(** An entry is reached when the filter accepts it and every directory
    above it: what the filter refuses is skipped with all below it. *)
Definition reached (keep : string → bool) (rel : path) : bool :=
  forallb (λ q, keep (Path.render q)) (ancestors rel).

(** [fse.copy(src, dest, { filter })], where [keep] is the filter as a
    function of the path relative to [src].  The filter is asked for
    [src] itself first. *)
Definition copy_with (keep : string → bool) (src dest : path) : M unit :=
  attempt OpCopy src ;;
  t ← get_tree;
  match node_at t src with
  | None => throw (FsError ENOENT OpCopy src)
  | Some n =>
      if decide (src `prefix_of` dest) then throw (FsError EINVAL OpCopy dest)
      else if negb (keep (Path.render [])) then ret tt
      else
        t1 ← lift (mkdirs_from [] (Path.dirname dest) t);
        t2 ← lift (place dest n t1);
        t3 ← lift (match n with
                   | Dir =>
                       place_all dest
                         (filter (λ e, reached keep e.1) (entries_below src t)) t2
                   | File _ => Ok t2
                   end);
        put_tree t3
  end.

(** Lines 38-57: the report on the git status of the clone. *)
Definition git_report (name : string) (sourceRepoPath : path) : M unit :=
  match execSync "git status --porcelain" sourceRepoPath with
  | None => say (Log ("📁 " +:+ name +:+ ": (not a git repo)"))
  | Some status =>
      let gitStatus := Str.trim status in
      match execSync "git branch --show-current" sourceRepoPath with
      | None => say (Log ("📁 " +:+ name +:+ ": (not a git repo)"))
      | Some current =>
          let currentBranch := Str.trim current in
          say (Log ("📁 " +:+ name +:+ ": " +:+ currentBranch
                    +:+ (if String.eqb gitStatus "" then "" else " (uncommitted changes)"))) ;;
          if String.eqb gitStatus "" then ret tt
          else say (Log "   Warning: Repository has uncommitted changes")
      end
  end.

Definition destPath_of (name : string) : path :=
  Path.join (Path.of_string SyncLocal.SOURCES_ROOT) (Path.of_string name).

(** The body of the loop over the repositories. *)
Definition sync_repo (r : SyncLocal.RepoSpec) : M unit :=
  let sourceRepoPath := Path.resolve (SyncLocal.localSource r) in
  match SyncLocal.short_name r with
  | None => throw path_type_error
  | Some name =>
      let destPath := destPath_of name in
      e ← pathExists sourceRepoPath;
      if negb e : bool then
        say (Warn ("⚠️  [skip] Local repo not found: "
                   +:+ Path.posix_resolve process_cwd (SyncLocal.localSource r))) ;;
        say (Warn ("   Make sure " +:+ name +:+ " is cloned at " +:+ SyncLocal.localSource r))
      else
        git_report name sourceRepoPath ;;
        copy_with SyncLocal.filter sourceRepoPath destPath ;;
        say (Log ("✅ Copied " +:+ name))
  end.

Definition syncLocalRepos (repos : list SyncLocal.RepoSpec) : M unit :=
  say (Log "Syncing documentation from local peer repositories...") ;;
  emptyDir (Path.resolve SyncLocal.SOURCES_ROOT) ;;
  for_each repos sync_repo ;;
  say (Log (Str.LF +:+ "🎉 Sync complete! Run 'npm run aggregate' to process documentation.")).

End Sync.

(** ** The vocabulary of the properties *)

Definition plain (s : string) : Prop := s ≠ "" ∧ s ≠ "." ∧ s ≠ "..".

(** A path segment as a file system has it: not empty, not a dot
    segment, free of both separators. *)
Definition segment (s : string) : Prop :=
  plain s ∧ Str.contains Str.slash s = false ∧ Str.contains Str.backslash s = false.

(** [preserves R Q m]: running [m] relates the tree before and after by
    [R], whatever the result, and a value it returns satisfies [Q]. *)
Definition preserves {A : Type} (R : relation (gmap path node)) (Q : A → Prop) (m : M A) : Prop :=
  ∀ t, R t (fs (m t)) ∧ ∀ a, res (m t) = Ok a → Q a.

Definition grows (t t' : gmap path node) : Prop :=
  ∀ k, (is_Some (t !! k) → is_Some (t' !! k)) ∧ (t !! k = Some Dir → t' !! k = Some Dir).

Definition within (D : path → Prop) (t t' : gmap path node) : Prop :=
  grows t t' ∧ ∀ k, ¬ D k → t' !! k = t !! k.

(** A set of paths that is closed under extension and under non-empty
    prefixes, as the region below the output root is. *)
Class Region (D : path → Prop) := {
  region_below : ∀ p k, D p → p `prefix_of` k → D k;
  region_above : ∀ p k, D p → k ≠ [] → k `prefix_of` p → D k;
}.

#[local] Instance plain_dec s : Decision (plain s).
Proof. unfold plain. apply _. Defined.

Definition lit_plain (g : Glob.seg) : bool :=
  match g with Glob.Lit name => bool_decide (plain name) | _ => true end.

Definition tame (patterns : list string) : Prop :=
  Forall (λ pattern, forallb lit_plain (Glob.parse pattern) = true) patterns.

(** The convention root of [r] is a relative path, written without a
    trailing separator: the segments that [srcDocs_of] keeps are the
    path that [path.join] returns.  The tree is read from the working
    directory, so an absolute convention root lies outside of what it
    describes, and a path with a trailing separator names a directory
    only. *)
Definition located (r : RepoSpec) : Prop :=
  Path.to_string (srcDocs_of r) = Path.posix_join (local r) (default "docs" (docsDir r)).

#[local] Instance located_dec r : Decision (located r).
Proof. unfold located. apply _. Defined.

Definition out_root : path := Path.resolve OUT_ROOT.

Definition below_out_root (k : path) : Prop := out_root `prefix_of` k.

#[local] Instance below_out_root_dec k : Decision (below_out_root k).
Proof. unfold below_out_root. apply _. Defined.

(** Every entry lies in a directory. *)
Definition well_formed (t : gmap path node) : Prop :=
  ∀ k n, t !! k = Some n → node_at t (Path.dirname k) = Some Dir.

(** The tree once the output root has been emptied: what lies outside
    the output root, and the output root as an empty directory. *)
Definition cleared (t : gmap path node) : gmap path node :=
  <[out_root := Dir]> (filter (λ kv, ¬ below_out_root kv.1) t).


(** The block gray-matter writes in front of the body for the serialized
    mapping [yaml]. *)
Definition front_matter_block (yaml : string) : string :=
  if String.eqb (Str.trim yaml) "{}" then ""
  else GrayMatter.newline "---" +:+ GrayMatter.newline (Str.trim yaml)
       +:+ GrayMatter.newline "---".

Definition is_markdown (name : string) : bool :=
  Str.ends_with ".md" name || Str.ends_with ".mdx" name.

(** *** The text [fixMdxCodeBlocks] leaves

    One pass over the lines, as a transducer: outside a section it
    copies the lines and follows the fences; a module statement outside
    the fences opens a section, which the next blank line, heading or
    rule (or the end of the file) closes. *)

Inductive mode :=
| Scanning (inCodeBlock : bool)
| InSection.

Fixpoint fenced (m : mode) (ls : list string) : list string :=
  match ls with
  | [] => match m with InSection => [FixMdx.CLOSE] | Scanning _ => [] end
  | line :: rest =>
      match m with
      | Scanning inCode =>
          if FixMdx.is_fence line then line :: fenced (Scanning (negb inCode)) rest
          else if negb inCode && FixMdx.is_module_line line
          then FixMdx.OPEN :: line :: fenced InSection rest
          else line :: fenced (Scanning inCode) rest
      | InSection =>
          if FixMdx.ends_section line
          then FixMdx.CLOSE :: line :: fenced (Scanning false) rest
          else line :: fenced InSection rest
      end
  end.

(** Is there a module statement outside the fences? *)
Fixpoint unescaped (inCode : bool) (ls : list string) : bool :=
  match ls with
  | [] => false
  | line :: rest =>
      if FixMdx.is_fence line then unescaped (negb inCode) rest
      else if negb inCode && FixMdx.is_module_line line then true
      else unescaped inCode rest
  end.

(** No fence inside a section that the pass wraps. *)
Fixpoint tidy (m : mode) (ls : list string) : bool :=
  match ls with
  | [] => true
  | line :: rest =>
      match m with
      | Scanning inCode =>
          if FixMdx.is_fence line then tidy (Scanning (negb inCode)) rest
          else if negb inCode && FixMdx.is_module_line line then tidy InSection rest
          else tidy (Scanning inCode) rest
      | InSection =>
          if FixMdx.ends_section line then tidy (Scanning false) rest
          else negb (FixMdx.is_fence line) && tidy InSection rest
      end
  end.

(** The lines of a section that starts before [rest], and what follows
    them. *)
Fixpoint section_of (rest : list string) : list string :=
  match rest with
  | [] => []
  | line :: rest' => if FixMdx.ends_section line then [] else line :: section_of rest'
  end.

Fixpoint after_section (rest : list string) : list string :=
  match rest with
  | [] => []
  | line :: rest' => if FixMdx.ends_section line then rest else after_section rest'
  end.

(** The state in which a second scan reaches the lines that the first
    one wrote in mode [m]. *)
Definition second_pass (m : mode) : bool :=
  match m with Scanning inCode => inCode | InSection => true end.

(** The text of a file once [fixMdxCodeBlocks] has seen it. *)
Definition fixed (content : string) : string :=
  Str.join_with Str.LF (fenced (Scanning false) (Str.split_on (ascii_of_nat 10) content)).

(** *** More relations between the tree before and after

    [extends]: every entry stays as it is.
    [stable I]: what holds of the tree before holds of the tree after.
    [news P]: every entry afterwards was there before or satisfies [P]. *)

Definition extends (t t' : gmap path node) : Prop :=
  ∀ k n, t !! k = Some n → t' !! k = Some n.

Definition stable (I : gmap path node → Prop) (t t' : gmap path node) : Prop :=
  I t → I t'.

Definition news (P : path → node → Prop) (t t' : gmap path node) : Prop :=
  ∀ k n, t' !! k = Some n → t !! k = Some n ∨ P k n.

(** A set of paths that is closed under non-empty prefixes. *)
Class Sheltered (D : path → Prop) :=
  sheltered : ∀ p k, D p → k ≠ [] → k `prefix_of` p → D k.

(** The output root and what lies in the output directory of a
    configured repository. *)
Definition output_of (repos : list RepoSpec) (k : path) : Prop :=
  k = out_root
  ∨ ∃ r name, r ∈ repos ∧ short_name r = Some name ∧ out_of name `prefix_of` k.

(** A computation that writes nothing to the console. *)
Definition silent {A} (m : M A) : Prop := ∀ t, console (m t) = [].

(** *** The fixtures

    The files [setupTestSources] is asked to write, with the paths it
    writes them to. *)

Definition sources_root : path := Path.resolve TestSources.TEST_SOURCES_ROOT.

Definition targets_of (repo : TestSources.TestRepo) : list (path * string) :=
  (λ entry, (fullPath_of repo entry.1, entry.2)) <$> TestSources.structure repo.

Definition targets (repos : list TestSources.TestRepo) : list (path * string) :=
  repos ≫= targets_of.

Definition created (repo : TestSources.TestRepo) : message :=
  Log ("✓ Created test repo: " +:+ TestSources.name repo).

(** *** Documents and their output directories *)

(** Every repository has a short name that is a proper directory name,
    and no two share one: each has an output directory of its own,
    right below the output root. *)
Definition distinct_outputs (repos : list RepoSpec) : Prop :=
  NoDup (short_name <$> repos)
  ∧ Forall (λ r, ∃ name, short_name r = Some name ∧ plain name) repos.

(** [raw] is the text of a markdown document of [r], at [rel] below its
    convention root: at top level for root-level docs, at any depth of a
    dedicated docs directory, with no dot-name on the way, and outside
    the output root. *)
Definition document_of (t : gmap path node) (r : RepoSpec) (rel : path) (raw : string)
  : Prop :=
  node_at t (srcDocs_of r) = Some Dir
  ∧ t !! (srcDocs_of r ++ rel) = Some (File raw)
  ∧ ¬ below_out_root (srcDocs_of r ++ rel)
  ∧ ∃ dirs fname,
      rel = dirs ++ [fname]
      ∧ Forall (λ x, Glob.visible x = true) dirs
      ∧ Glob.visible fname = true
      ∧ is_markdown fname = true
      ∧ (root_files r = true → dirs = []).

(** *** Documents with a front-matter block *)

(** The text of a document with a block: the opening delimiter and what
    follows it on its line, the block, the closing delimiter on a line
    of its own, and the rest. *)
Definition delimited (lang block rest : string) : string :=
  "---" +:+ lang +:+ Str.LF +:+ block +:+ Str.LF +:+ "---" +:+ rest.

(** No line of the block starts with the delimiter. *)
Definition no_delimiter (block : string) : Prop :=
  Forall (λ line, Str.starts_with "---" line = false) (Str.split_on (ascii_of_nat 10) block).

#[local] Instance no_delimiter_dec block : Decision (no_delimiter block).
Proof. unfold no_delimiter. apply _. Defined.

(** The line of the opening delimiter is a line, and the delimiter has
    three dashes. *)
Definition language_line (lang : string) : Prop :=
  Str.contains (ascii_of_nat 10) lang = false
  ∧ Str.contains (ascii_of_nat 13) lang = false
  ∧ Str.starts_with "-" lang = false.

(** The keys of an object are distinct, as JavaScript has them. *)
Definition distinct_keys (v : value) : Prop := NoDup (spread v).*1.

#[local] Instance distinct_keys_dec v : Decision (distinct_keys v).
Proof. unfold distinct_keys. apply _. Defined.
(** * Properties *)

(** ** Strings *)

Lemma contains_app c (a b : string) :
  Str.contains c (a +:+ b) = Str.contains c a || Str.contains c b.
Proof.
  induction a as [|x a IH]; simpl; [done|].
  rewrite IH. by rewrite orb_assoc.
Qed.

Lemma replace_all_clears c d (s : string) :
  c ≠ d → Str.contains c (Str.replace_all c d s) = false.
Proof.
  intros Hcd. induction s as [|x s IH]; simpl; [done|].
  rewrite IH, orb_false_r.
  destruct (Ascii.eqb_spec x c) as [->|Hx].
  - apply Ascii.eqb_neq. congruence.
  - by apply Ascii.eqb_neq.
Qed.

Lemma replace_all_id c d (s : string) :
  Str.contains c s = false → Str.replace_all c d s = s.
Proof.
  induction s as [|x s IH]; simpl; [done|].
  intros [Hx Hs]%orb_false_elim. by rewrite Hx, IH.
Qed.

(** ** The front-matter merge *)

Lemma obj_get_set_eq k v o : obj_get k (obj_set k v o) = Some v.
Proof.
  induction o as [|[k' v'] o IH]; simpl.
  - by rewrite String.eqb_refl.
  - destruct (String.eqb k k') eqn:E; simpl; rewrite ?String.eqb_refl, ?E; done.
Qed.

Lemma obj_get_set_ne k k' v o : k ≠ k' → obj_get k (obj_set k' v o) = obj_get k o.
Proof.
  intros Hne. apply String.eqb_neq in Hne.
  induction o as [|[k0 v0] o IH]; simpl.
  - by rewrite Hne.
  - destruct (String.eqb k' k0) eqn:E; simpl.
    + apply String.eqb_eq in E as ->. by rewrite Hne.
    + by rewrite IH.
Qed.

Lemma merge_other_key data custom k :
  k ≠ edit_key →
  obj_get k (merge_front_matter data custom) = obj_get k (spread data).
Proof. intros. unfold merge_front_matter. by apply obj_get_set_ne. Qed.

Lemma merge_edit_key data custom :
  obj_get edit_key (merge_front_matter data custom)
  = Some (coalesce (get_prop data edit_key) (VStr custom)).
Proof. apply obj_get_set_eq. Qed.

Lemma annotate_unfold r rel raw fm :
  GrayMatter.matter engines raw = Ok fm →
  annotate r rel raw
  = GrayMatter.stringify engines (Str.trimStart (content fm) +:+ Str.LF)
      (merge_front_matter (data fm) (custom_url r rel)).
Proof. intros H. unfold annotate. by rewrite H. Qed.

(** ** The edit URL *)

Lemma backslash_free_url r rel :
  Str.contains Str.backslash (repo r) = false →
  Str.contains Str.backslash (default "main" (branch r)) = false →
  Str.contains Str.backslash (custom_url r rel) = false.
Proof.
  intros Hrepo Hbranch. unfold custom_url.
  rewrite !contains_app, Hrepo, Hbranch.
  rewrite replace_all_clears by done. done.
Qed.

Lemma append_cons x (a b : string) : String x a +:+ b = String x (a +:+ b).
Proof. reflexivity. Qed.

Lemma append_assoc (a b c : string) : (a +:+ b) +:+ c = a +:+ b +:+ c.
Proof. induction a as [|x a IH]; [done|]. rewrite !append_cons. by f_equal. Qed.

Lemma append_nil_r (a : string) : a +:+ "" = a.
Proof. induction a as [|x a IH]; [done|]. rewrite append_cons. by f_equal. Qed.

Lemma split_on_nonempty c s : Str.split_on c s ≠ [].
Proof.
  destruct s as [|a s]; simpl; [done|].
  destruct (Ascii.eqb a c); [done|]. by destruct (Str.split_on c s).
Qed.

Lemma split_on_app c (a b : string) :
  Str.split_on c (a +:+ String c b) = Str.split_on c a ++ Str.split_on c b.
Proof.
  induction a as [|x a IH]; simpl.
  - by rewrite Ascii.eqb_refl.
  - destruct (Ascii.eqb x c); [by rewrite IH|].
    rewrite IH. pose proof (split_on_nonempty c a).
    by destruct (Str.split_on c a).
Qed.

Lemma split_on_absent c s : Str.contains c s = false → Str.split_on c s = [s].
Proof.
  induction s as [|a s IH]; simpl; [done|].
  intros [Ha Hs]%orb_false_elim. by rewrite Ha, IH.
Qed.

Lemma split_on_join c (segs : list string) :
  segs ≠ [] →
  Forall (λ s, Str.contains c s = false) segs →
  Str.split_on c (Str.join_with (String c "") segs) = segs.
Proof.
  intros Hne Hall. induction Hall as [|s segs Hs Hall IH]; [done|].
  destruct segs as [|s' segs]; simpl.
  - by apply split_on_absent.
  - change (Str.split_on c (s +:+ String c (Str.join_with (String c "") (s' :: segs)))
            = s :: s' :: segs).
    rewrite split_on_app, IH by done. by rewrite split_on_absent.
Qed.

Lemma replace_all_app c d (a b : string) :
  Str.replace_all c d (a +:+ b) = Str.replace_all c d a +:+ Str.replace_all c d b.
Proof. induction a as [|x a IH]; simpl; [done|]. by rewrite IH. Qed.

Lemma replace_all_join c d (segs : list string) :
  Forall (λ s, Str.contains c s = false) segs →
  Str.replace_all c d (Str.join_with (String c "") segs)
  = Str.join_with (String d "") segs.
Proof.
  induction 1 as [|s segs Hs Hall IH]; [done|].
  destruct segs as [|s' segs].
  - simpl. by apply replace_all_id.
  - change (Str.replace_all c d (s +:+ String c (Str.join_with (String c "") (s' :: segs)))
            = s +:+ String d (Str.join_with (String d "") (s' :: segs))).
    rewrite replace_all_app, (replace_all_id c d s) by done.
    f_equal. rewrite <- IH. cbn [Str.replace_all]. by rewrite Ascii.eqb_refl.
Qed.

(** ** Path normalization *)

Lemma normalize_rev_app b acc xs ys :
  Path.normalize_rev b acc (xs ++ ys)
  = Path.normalize_rev b (Path.normalize_rev b acc xs) ys.
Proof.
  revert acc. induction xs as [|x xs IH]; intros acc; simpl; [done|].
  repeat case_decide; try done; destruct acc; try case_decide; by rewrite IH.
Qed.

Lemma normalize_rev_plain b acc segs :
  Forall plain segs → Path.normalize_rev b acc segs = List.rev segs ++ acc.
Proof.
  intros H. revert acc. induction H as [|s segs (H1 & H2 & H3) _ IH]; intros acc; simpl; [done|].
  rewrite decide_False by (intros [?|?]; done).
  rewrite decide_False by done. rewrite IH. by rewrite <- app_assoc.
Qed.

Lemma normalize_segs_app_plain b pre segs :
  Forall plain segs →
  Path.normalize_segs b (pre ++ segs) = Path.normalize_segs b pre ++ segs.
Proof.
  intros H. unfold Path.normalize_segs.
  rewrite normalize_rev_app, normalize_rev_plain by done.
  by rewrite rev_app_distr, rev_involutive.
Qed.

Lemma normalize_segs_plain b segs :
  Forall plain segs → Path.normalize_segs b segs = segs.
Proof. intros H. by rewrite <- (app_nil_l segs), normalize_segs_app_plain. Qed.

Lemma render_app a b :
  a ≠ [] → b ≠ [] → Path.render (a ++ b) = Path.render a +:+ "/" +:+ Path.render b.
Proof.
  intros Ha Hb. induction a as [|x a IH]; [done|].
  destruct a as [|y a].
  - destruct b; [done|]. reflexivity.
  - change (x +:+ "/" +:+ Path.render ((y :: a) ++ b)
            = (x +:+ "/" +:+ Path.render (y :: a)) +:+ "/" +:+ Path.render b).
    rewrite IH by done. by rewrite !append_assoc.
Qed.

Lemma render_nonempty l s : s ∈ l → s ≠ "" → Path.render l ≠ "".
Proof.
  intros Hin Hs. induction l as [|x l IH]; [by apply not_elem_of_nil in Hin|].
  destruct l as [|y l].
  - apply list_elem_of_singleton in Hin as ->. done.
  - change (x +:+ "/" +:+ Path.render (y :: l) ≠ ""). by destruct x.
Qed.

Lemma first_char_app (a b : string) : a ≠ "" → Str.first_char (a +:+ b) = Str.first_char a.
Proof. by destruct a. Qed.

Lemma last_char_app (a b : string) : b ≠ "" → Str.last_char (a +:+ b) = Str.last_char b.
Proof.
  intros Hb. induction a as [|x a IH]; [done|].
  simpl. rewrite IH. destruct (a +:+ b) eqn:E; [|done].
  destruct a; [done|discriminate].
Qed.

Lemma last_char_contains c s : Str.last_char s = Some c → Str.contains c s = true.
Proof.
  induction s as [|x s IH]; [done|]. simpl. destruct s as [|y s].
  - intros [= ->]. by rewrite Ascii.eqb_refl.
  - intros H. rewrite IH by done. by rewrite orb_true_r.
Qed.

Lemma contains_join c sep (segs : list string) :
  Str.contains c sep = false →
  Forall (λ s, Str.contains c s = false) segs →
  Str.contains c (Str.join_with sep segs) = false.
Proof.
  intros Hsep. induction 1 as [|s segs Hs Hall IH]; [done|].
  destruct segs as [|s' segs]; [done|].
  change (Str.contains c (s +:+ sep +:+ Str.join_with sep (s' :: segs)) = false).
  by rewrite !contains_app, Hs, Hsep, IH.
Qed.

(** [posix_normalize] on a path whose last segments are plain. *)
Lemma posix_normalize_plain p pre segs :
  Str.split_on Str.slash p = pre ++ segs →
  segs ≠ [] → Forall plain segs →
  Str.last_char p ≠ Some Str.slash →
  Path.posix_normalize p
  = (if bool_decide (Str.first_char p = Some Str.slash) then "/" else "")
    +:+ Path.render
          (Path.normalize_segs (negb (bool_decide (Str.first_char p = Some Str.slash))) pre
           ++ segs).
Proof.
  intros Hsplit Hne Hplain Hlast. unfold Path.posix_normalize.
  assert (p ≠ "") as Hp.
  { intros ->. simpl in Hsplit. destruct pre as [|x pre]; simpl in Hsplit.
    - subst segs. apply Forall_singleton in Hplain as [? _]. done.
    - injection Hsplit as _ Hnil. symmetry in Hnil.
      apply app_eq_nil in Hnil as [_ ?]. done. }
  rewrite (proj2 (String.eqb_neq _ _)) by done.
  rewrite (bool_decide_eq_false_2 (Str.last_char p = Some Str.slash)) by done.
  unfold Path.of_string. rewrite Hsplit, normalize_segs_app_plain by done.
  set (b := bool_decide _). set (body := Path.render _).
  assert (body ≠ "") as Hbody.
  { destruct segs as [|s segs]; [done|]. apply Forall_cons in Hplain as [[? _] _].
    apply (render_nonempty _ s); [|done]. apply elem_of_app. right. by left. }
  rewrite (proj2 (String.eqb_neq _ _)) by done.
  by destruct b.
Qed.

Lemma segment_plain segs : Forall segment segs → Forall plain segs.
Proof. intros H. eapply Forall_impl; [exact H|]. by intros s [? _]. Qed.

Lemma segment_no_slash segs :
  Forall segment segs → Forall (λ s, Str.contains Str.slash s = false) segs.
Proof. intros H. eapply Forall_impl; [exact H|]. by intros s (_ & ? & _). Qed.

Lemma segment_no_backslash segs :
  Forall segment segs → Forall (λ s, Str.contains Str.backslash s = false) segs.
Proof. intros H. eapply Forall_impl; [exact H|]. by intros s (_ & _ & ?). Qed.

Lemma first_char_contains c s : Str.first_char s = Some c → Str.contains c s = true.
Proof. destruct s; [done|]. simpl. intros [= ->]. by rewrite Ascii.eqb_refl. Qed.

Lemma join_last_char sep (segs : list string) c :
  Forall (λ s, s ≠ "") segs →
  Str.last_char (Str.join_with sep segs) = Some c →
  ∃ s, s ∈ segs ∧ Str.last_char s = Some c.
Proof.
  induction 1 as [|s segs Hs Hall IH]; [done|].
  destruct segs as [|s' segs].
  - intros H. exists s. split; [by left|done].
  - intros H.
    change (Str.last_char (s +:+ sep +:+ Str.join_with sep (s' :: segs)) = Some c) in H.
    rewrite <- append_assoc, last_char_app in H.
    + destruct (IH H) as (x & ? & ?). exists x. split; [by right|done].
    + apply Forall_cons in Hall as [? _].
      destruct segs; simpl; [done|by destruct s'].
Qed.

(** The relative path of a file written with either separator: one
    segment for POSIX when the separator is the backslash. *)
Lemma win32_rel_one_segment segs :
  segs ≠ [] → Forall segment segs →
  Str.split_on Str.slash (Str.join_with "\" segs) = [Str.join_with "\" segs]
  ∧ plain (Str.join_with "\" segs)
  ∧ Str.last_char (Str.join_with "\" segs) ≠ Some Str.slash.
Proof.
  intros Hne Hall.
  assert (Str.contains Str.slash (Str.join_with "\" segs) = false) as Hns.
  { apply contains_join; [done|by apply segment_no_slash]. }
  split; [by apply split_on_absent|]. split.
  - destruct segs as [|s [|s' segs]]; [done| |].
    + by apply Forall_singleton in Hall as [? _].
    + change (plain (s +:+ "\" +:+ Str.join_with "\" (s' :: segs))).
      assert (Str.contains Str.backslash (s +:+ "\" +:+ Str.join_with "\" (s' :: segs)) = true)
        as Hb by (rewrite !contains_app; simpl; by rewrite orb_true_r).
      repeat split; intros E; rewrite E in Hb; done.
  - intros H%last_char_contains. congruence.
Qed.

Lemma posix_rel_segments segs :
  segs ≠ [] → Forall segment segs →
  Str.split_on Str.slash (Str.join_with "/" segs) = segs
  ∧ Str.last_char (Str.join_with "/" segs) ≠ Some Str.slash.
Proof.
  intros Hne Hall. split.
  - apply (split_on_join Str.slash); [done|by apply segment_no_slash].
  - intros (s & Hin & Hs%last_char_contains)%join_last_char.
    + rewrite Forall_forall in Hall. destruct (Hall s Hin) as (_ & ? & _). congruence.
    + eapply Forall_impl; [exact Hall|]. by intros s [[? _] _].
Qed.

(** What [path.posix.join(d, _)] puts in front of the plain segments of
    its second argument depends on [d] alone. *)
Lemma posix_join_plain d :
  ∃ pfx front, ∀ rel segs,
    Str.split_on Str.slash rel = segs → segs ≠ [] → Forall plain segs →
    Str.last_char rel ≠ Some Str.slash →
    Path.posix_join d rel = pfx +:+ Path.render (front ++ segs).
Proof.
  destruct (decide (d = "")) as [->|Hd].
  - exists "", []. intros rel segs Hsplit Hne Hplain Hlast.
    assert (Str.first_char rel ≠ Some Str.slash) as Hfirst.
    { destruct rel as [|a rel]; [done|]. simpl. intros [= ->].
      simpl in Hsplit. subst segs. by apply Forall_cons in Hplain as [[? _] _]. }
    assert (rel ≠ "") as Hrel.
    { intros ->. simpl in Hsplit. subst segs.
      by apply Forall_singleton in Hplain as [? _]. }
    unfold Path.posix_join. simpl.
    rewrite (proj2 (String.eqb_neq _ _)) by done.
    rewrite (posix_normalize_plain rel [] segs) by done.
    by rewrite bool_decide_eq_false_2.
  - exists (if bool_decide (Str.first_char d = Some Str.slash) then "/" else ""),
      (Path.normalize_segs (negb (bool_decide (Str.first_char d = Some Str.slash)))
         (Str.split_on Str.slash d)).
    intros rel segs Hsplit Hne Hplain Hlast.
    assert (rel ≠ "") as Hrel.
    { intros ->. simpl in Hsplit. subst segs.
      by apply Forall_singleton in Hplain as [? _]. }
    unfold Path.posix_join.
    rewrite (proj2 (String.eqb_neq d "")), (proj2 (String.eqb_neq rel "")) by done.
    rewrite (posix_normalize_plain _ (Str.split_on Str.slash d) segs); try done.
    + by rewrite first_char_app.
    + change (d +:+ "/" +:+ rel) with (d +:+ String Str.slash rel).
      by rewrite split_on_app, Hsplit.
    + rewrite last_char_app by done. by rewrite last_char_app.
Qed.

Lemma url_separator_independent r segs :
  segs ≠ [] → Forall segment segs →
  custom_url r (Str.join_with "\" segs) = custom_url r (Str.join_with "/" segs).
Proof.
  intros Hne Hall. unfold custom_url. do 5 f_equal.
  pose proof (win32_rel_one_segment segs Hne Hall) as (Hw1 & Hw2 & Hw3).
  pose proof (posix_rel_segments segs Hne Hall) as (Hp1 & Hp2).
  assert (Str.replace_all Str.backslash Str.slash (Str.join_with "\" segs)
          = Str.join_with "/" segs) as Hrw.
  { apply (replace_all_join Str.backslash Str.slash). by apply segment_no_backslash. }
  assert (Str.replace_all Str.backslash Str.slash (Str.join_with "/" segs)
          = Str.join_with "/" segs) as Hrp.
  { apply replace_all_id, contains_join; [done|by apply segment_no_backslash]. }
  unfold sourceRelPath. destruct (root_files r); [by rewrite Hrw, Hrp|].
  destruct (posix_join_plain (default "docs" (docsDir r))) as (pfx & front & Hjoin).
  rewrite (Hjoin _ [Str.join_with "\" segs]), (Hjoin _ segs);
    [|done|done|by apply segment_plain|done|done|done|by apply Forall_singleton|done].
  rewrite !replace_all_app. f_equal.
  assert (Str.replace_all Str.backslash Str.slash (Path.render [Str.join_with "\" segs])
          = Str.replace_all Str.backslash Str.slash (Path.render segs)) as Hsame.
  { change (Path.render [Str.join_with "\" segs]) with (Str.join_with "\" segs).
    change (Path.render segs) with (Str.join_with "/" segs).
    by rewrite Hrw, Hrp. }
  destruct front as [|x front]; [by rewrite !app_nil_l|].
  rewrite !render_app, !replace_all_app by done. by rewrite Hsame.
Qed.

Lemma dedicated_source_path d segs :
  segment d → segs ≠ [] → Forall segment segs →
  Path.posix_join d (Str.join_with "/" segs) = d +:+ "/" +:+ Str.join_with "/" segs.
Proof.
  intros Hd Hne Hall.
  pose proof (posix_rel_segments segs Hne Hall) as (Hp1 & Hp2).
  destruct Hd as ((Hd1 & Hd2 & Hd3) & Hd4 & Hd5).
  assert (Str.join_with "/" segs ≠ "") as Hrel.
  { intros E. rewrite E in Hp1. simpl in Hp1. subst segs.
    by apply Forall_singleton in Hall as [[? _] _]. }
  unfold Path.posix_join.
  rewrite (proj2 (String.eqb_neq d "")), (proj2 (String.eqb_neq _ "")) by done.
  rewrite (posix_normalize_plain _ [] (d :: segs)).
  - rewrite first_char_app by done.
    rewrite bool_decide_eq_false_2.
    + simpl. destruct segs; [done|reflexivity].
    + intros H%first_char_contains. congruence.
  - change (d +:+ "/" +:+ Str.join_with "/" segs)
      with (d +:+ String Str.slash (Str.join_with "/" segs)).
    by rewrite split_on_app, Hp1, split_on_absent.
  - done.
  - apply Forall_cons. split; [done|by apply segment_plain].
  - rewrite last_char_app by done. by rewrite last_char_app.
Qed.

(** C2: for a repository whose identifier and branch hold no backslash
    and a selected file, given by the segments of its path relative to
    the output directory, the computed default edit URL is
    [https://github.com/<repo>/edit/<branch>/<path>] under the root-files
    convention and
    [https://github.com/<repo>/edit/<branch>/<docsDir>/<path>] for a
    dedicated docs directory, with the path written with forward
    slashes; the URL is the same when the relative path comes with
    backslashes, and it contains no backslash. *)
Theorem edit_url_computed r segs :
  Str.contains Str.backslash (repo r) = false →
  Str.contains Str.backslash (default "main" (branch r)) = false →
  segs ≠ [] → Forall segment segs →
  (root_files r = true →
   custom_url r (Str.join_with "/" segs)
   = "https://github.com/" +:+ repo r +:+ "/edit/" +:+ default "main" (branch r)
     +:+ "/" +:+ Str.join_with "/" segs)
  ∧ (root_files r = false → segment (default "docs" (docsDir r)) →
     custom_url r (Str.join_with "/" segs)
     = "https://github.com/" +:+ repo r +:+ "/edit/" +:+ default "main" (branch r)
       +:+ "/" +:+ default "docs" (docsDir r) +:+ "/" +:+ Str.join_with "/" segs)
  ∧ custom_url r (Str.join_with "\" segs) = custom_url r (Str.join_with "/" segs)
  ∧ Str.contains Str.backslash (custom_url r (Str.join_with "/" segs)) = false
  ∧ Str.contains Str.backslash (custom_url r (Str.join_with "\" segs)) = false.
Proof.
  intros Hrepo Hbranch Hne Hall.
  assert (Str.replace_all Str.backslash Str.slash (Str.join_with "/" segs)
          = Str.join_with "/" segs) as Hid.
  { apply replace_all_id, contains_join; [done|by apply segment_no_backslash]. }
  split; [|split; [|split; [|split]]].
  - intros Hroot. unfold custom_url, sourceRelPath. by rewrite Hroot, Hid.
  - intros Hroot Hd. unfold custom_url, sourceRelPath. rewrite Hroot.
    rewrite dedicated_source_path by done.
    change (default "docs" (docsDir r) +:+ "/" +:+ Str.join_with "/" segs)
      with (default "docs" (docsDir r) +:+ String Str.slash (Str.join_with "/" segs)).
    rewrite replace_all_app. cbn [Str.replace_all]. rewrite Hid.
    rewrite replace_all_id; [done|]. by destruct Hd as (_ & _ & ?).
  - by apply url_separator_independent.
  - by apply backslash_free_url.
  - by apply backslash_free_url.
Qed.

(** ** Reasoning about the script's monad *)

Lemma bind_eq {A B} (m : M A) (f : A → M B) t :
  (m ≫= f) t
  = match res (m t) with
    | Ok a => Outcome (res (f a (fs (m t)))) (fs (f a (fs (m t))))
                (console (m t) ++ console (f a (fs (m t))))
    | Throw e => Outcome (Throw e) (fs (m t)) (console (m t))
    end.
Proof. reflexivity. Qed.

Lemma outcome_eta {A} (o : outcome A) : Outcome (res o) (fs o) (console o) = o.
Proof. by destruct o. Qed.

Lemma bind_ok {A B} (m : M A) (f : A → M B) t b :
  res ((m ≫= f) t) = Ok b →
  ∃ a, res (m t) = Ok a ∧ res (f a (fs (m t))) = Ok b
       ∧ fs ((m ≫= f) t) = fs (f a (fs (m t)))
       ∧ console ((m ≫= f) t) = console (m t) ++ console (f a (fs (m t))).
Proof.
  rewrite bind_eq. destruct (res (m t)) as [a|e] eqn:E; simpl; [|done].
  intros Hb. by exists a.
Qed.

Lemma bind_throw {A B} (m : M A) (f : A → M B) t e :
  res (m t) = Throw e →
  (m ≫= f) t = Outcome (Throw e) (fs (m t)) (console (m t)).
Proof. intros H. by rewrite bind_eq, H. Qed.

Lemma for_each_app {A} (l1 l2 : list A) (f : A → M unit) t :
  for_each (l1 ++ l2) f t = (for_each l1 f ;; for_each l2 f) t.
Proof.
  revert t. induction l1 as [|x l1 IH]; intros t.
  - rewrite bind_eq. simpl. by rewrite outcome_eta.
  - change (for_each ((x :: l1) ++ l2) f) with (f x ;; for_each (l1 ++ l2) f).
    change (for_each (x :: l1) f) with (f x ;; for_each l1 f).
    rewrite !bind_eq. destruct (res (f x t)) as [[]|e]; simpl; [|done].
    rewrite IH, !bind_eq.
    destruct (res (for_each l1 f (fs (f x t)))) as [[]|e]; simpl; [|done].
    by rewrite app_assoc.
Qed.

Section Preserves.
Context (R : relation (gmap path node)) `{!PreOrder R}.

Lemma preserves_ret {A} (Q : A → Prop) a : Q a → preserves R Q (ret a).
Proof. intros HQ t. split; [done|]. by intros ? [= <-]. Qed.

Lemma preserves_throw {A} (Q : A → Prop) e : preserves R Q (throw e).
Proof. intros t. split; [done|]. by intros ? [=]. Qed.

Lemma preserves_say msg : preserves R (λ _, True) (say msg).
Proof. intros t. by split. Qed.

Lemma preserves_lift {A} (Q : A → Prop) (r : result A) :
  (∀ a, r = Ok a → Q a) → preserves R Q (lift r).
Proof.
  intros HQ. destruct r; [apply preserves_ret; by apply HQ|apply preserves_throw].
Qed.

Lemma preserves_weaken {A} (Q Q' : A → Prop) m :
  (∀ a, Q a → Q' a) → preserves R Q m → preserves R Q' m.
Proof. intros HQ Hm t. destruct (Hm t) as [? H]. split; [done|]. intros a ?. by apply HQ, H. Qed.

Lemma preserves_bind {A B} (Q : A → Prop) (Q' : B → Prop) (m : M A) (f : A → M B) :
  preserves R Q m → (∀ a, Q a → preserves R Q' (f a)) → preserves R Q' (m ≫= f).
Proof.
  intros Hm Hf t. rewrite bind_eq. destruct (Hm t) as [HR HQ].
  destruct (res (m t)) as [a|e] eqn:E; simpl.
  - destruct (Hf a (HQ a eq_refl) (fs (m t))) as [HR' HQ'].
    split; [by etrans|done].
  - split; [done|by intros ? [=]].
Qed.

Lemma preserves_for_each {A} (l : list A) (f : A → M unit) :
  (∀ x, x ∈ l → preserves R (λ _, True) (f x)) →
  preserves R (λ _, True) (for_each l f).
Proof.
  induction l as [|x l IH]; intros Hf; simpl.
  - by apply preserves_ret.
  - apply preserves_bind with (Q := λ _, True).
    + apply Hf. by left.
    + intros _ _. apply IH. intros y Hy. apply Hf. by right.
Qed.

Lemma preserves_attempt op p : preserves R (λ _, True) (attempt op p).
Proof. unfold attempt. destruct (faults op p); [apply preserves_throw|by apply preserves_ret]. Qed.

Lemma preserves_existsSync p : preserves R (λ _, True) (existsSync p).
Proof. intros t. by split. Qed.

Lemma preserves_some {A} (l : list A) (f : A → M bool) :
  (∀ x, preserves R (λ _, True) (f x)) → preserves R (λ _, True) (some l f).
Proof.
  intros Hf. induction l as [|x l IH]; simpl.
  - by apply preserves_ret.
  - apply preserves_bind with (Q := λ _, True); [done|].
    intros [] _; [by apply preserves_ret|done].
Qed.
End Preserves.

(** ** How the operations change the tree

    [grows]: nothing disappears and a directory stays a directory.
    [within D]: moreover only paths in [D] change. *)

#[local] Instance within_preorder D : PreOrder (within D).
Proof.
  split.
  - intros t. split; [by intros k|done].
  - intros t1 t2 t3 [G12 F12] [G23 F23]. split.
    + intros k. destruct (G12 k), (G23 k). split; auto.
    + intros k Hk. by rewrite F23, F12.
Qed.

Lemma within_insert_dir D t q :
  t !! q = None → D q → within D t (<[q := Dir]> t).
Proof.
  intros Hq HD. split.
  - intros k. destruct (decide (k = q)) as [->|Hne].
    + rewrite Hq. split; [by intros [? ?]|done].
    + by rewrite lookup_insert_ne.
  - intros k Hk. rewrite lookup_insert_ne; [done|]. by intros ->.
Qed.

Lemma within_insert_file D t p text :
  t !! p ≠ Some Dir → D p → within D t (<[p := File text]> t).
Proof.
  intros Hp HD. split.
  - intros k. destruct (decide (k = p)) as [->|Hne].
    + rewrite lookup_insert_eq. split; [by eauto|done].
    + by rewrite lookup_insert_ne.
  - intros k Hk. rewrite lookup_insert_ne; [done|]. by intros ->.
Qed.

Lemma mkdirs_from_within D base rest t t' :
  mkdirs_from base rest t = Ok t' →
  (∀ k, base `prefix_of` k → k ≠ base → k `prefix_of` base ++ rest → D k) →
  within D t t'.
Proof.
  revert base t. induction rest as [|s rest IH]; intros base t; simpl.
  - by intros [= <-] _.
  - intros Hrun HD.
    assert (D (base ++ [s])) as Hq.
    { apply HD.
      - by apply prefix_app_r.
      - intros E. apply (f_equal length) in E. rewrite length_app in E. simpl in E. lia.
      - apply prefix_app, prefix_cons, prefix_nil. }
    assert (∀ k, base ++ [s] `prefix_of` k → k ≠ base ++ [s]
                 → k `prefix_of` (base ++ [s]) ++ rest → D k) as HD'.
    { intros k Hpre Hne Hle. apply HD.
      - etrans; [|exact Hpre]. by apply prefix_app_r.
      - intros ->. apply prefix_length in Hpre. rewrite length_app in Hpre. simpl in Hpre. lia.
      - by rewrite <- app_assoc in Hle. }
    destruct (t !! _) as [[text|]|] eqn:E; [done| |].
    + by apply (IH (base ++ [s])).
    + etrans; [by apply within_insert_dir|]. by apply (IH (base ++ [s])).
Qed.

Lemma place_within D dest n t t' :
  place dest n t = Ok t' → D dest → within D t t'.
Proof.
  unfold place, node_at. intros Hrun HD. revert Hrun.
  destruct n as [text|].
  - destruct dest as [|s dest]; [done|].
    destruct (t !! _) as [[?|]|] eqn:E; intros [= <-].
    + apply within_insert_file; [by rewrite E|done].
    + apply within_insert_file; [by rewrite E|done].
  - destruct dest as [|s dest]; [by intros [= <-]|].
    destruct (t !! _) as [[?|]|] eqn:E; intros [= <-]; [done|].
    by apply within_insert_dir.
Qed.

Lemma place_all_within D dest entries t t' :
  place_all dest entries t = Ok t' → (∀ rel, D (dest ++ rel)) → within D t t'.
Proof.
  intros Hrun HD. revert t Hrun. induction entries as [|[rel n] entries IH]; intros t; simpl.
  - by intros [= <-].
  - destruct (place (dest ++ rel) n t) as [t1|e] eqn:E; simpl; [|done].
    intros Hrest. etrans; [by eapply place_within|by apply IH].
Qed.

Lemma prefix_of_dirname (k p : path) : k `prefix_of` Path.dirname p → k `prefix_of` p.
Proof.
  intros [rest Hrest]. unfold Path.dirname in Hrest.
  destruct (decide (p = [])) as [->|Hp]; [by exists rest|].
  destruct (exists_last Hp) as (p' & x & ->).
  rewrite removelast_last in Hrest. subst p'. exists (rest ++ [x]). by rewrite app_assoc.
Qed.

Section Within.
Context (D : path → Prop) `{!Region D}.

Lemma region_mkdirs p t t' :
  mkdirs_from [] p t = Ok t' → D p ∨ p = [] → within D t t'.
Proof.
  intros Hrun [HD| ->]; [|simpl in Hrun; injection Hrun as <-; reflexivity].
  eapply mkdirs_from_within; [done|].
  intros k _ Hk Hpre. by eapply region_above.
Qed.

Lemma preserves_mkdirs p : D p ∨ p = [] → preserves (within D) (λ _, True) (mkdirs p).
Proof.
  intros HD t. unfold mkdirs. rewrite !bind_eq. simpl.
  destruct (mkdirs_from [] p t) as [t'|e] eqn:E; simpl; [|done].
  split; [by eapply region_mkdirs|done].
Qed.

Lemma preserves_ensureDir p : D p ∨ p = [] → preserves (within D) (λ _, True) (ensureDir p).
Proof.
  intros HD. unfold ensureDir.
  eapply preserves_bind; [apply _|apply preserves_attempt; apply _|].
  intros _ _. by apply preserves_mkdirs.
Qed.

Lemma preserves_copy src dest : D dest → preserves (within D) (λ _, True) (copy src dest).
Proof.
  intros HD. unfold copy.
  eapply preserves_bind; [apply _|apply preserves_attempt; apply _|]. intros _ _ t.
  rewrite bind_eq. simpl.
  destruct (node_at t src) as [n|]; [|done].
  case_decide; [done|].
  rewrite !bind_eq.
  destruct (mkdirs_from [] (Path.dirname dest) t) as [t1|e] eqn:E1; simpl; [|done].
  rewrite !bind_eq.
  destruct (place dest n t1) as [t2|e] eqn:E2; simpl; [|done].
  assert (within D t t2) as H12.
  { etrans; [|by eapply place_within].
    eapply mkdirs_from_within; [done|].
    intros k _ Hk Hpre. eapply region_above; [done|done|]. by apply prefix_of_dirname. }
  destruct n as [text|]; simpl; [done|].
  rewrite !bind_eq.
  destruct (place_all dest (entries_below src t) t2) as [t3|e] eqn:E3; simpl; [|done].
  split; [|done]. etrans; [done|].
  eapply place_all_within; [done|]. intros rel. eapply region_below; [done|].
  by apply prefix_app_r.
Qed.

Lemma preserves_readFile p : preserves (within D) (λ _, True) (readFile p).
Proof.
  unfold readFile. eapply preserves_bind; [apply _|apply preserves_attempt; apply _|].
  intros _ _ t. rewrite bind_eq. simpl. by destruct (node_at t p) as [[]|].
Qed.

Lemma preserves_writeFile p text :
  D p → preserves (within D) (λ _, True) (writeFile p text).
Proof.
  intros HD. unfold writeFile.
  eapply preserves_bind; [apply _|apply preserves_attempt; apply _|].
  intros _ _ t. rewrite bind_eq. simpl.
  destruct (node_at t p) as [[?|]|] eqn:Ep; [|done|];
    (destruct (node_at t (Path.dirname p)) as [[?|]|]; simpl; [done| |done]);
    (split; [|done]); apply within_insert_file; try done;
    destruct p; simpl in Ep; congruence.
Qed.

End Within.

(** ** What globby selects *)

Lemma visible_plain x : Glob.visible x = true → plain x.
Proof.
  unfold Glob.visible. intros [H1 H2]%andb_prop.
  apply negb_true_iff in H1, H2. apply String.eqb_neq in H1.
  repeat split; [done|intros ->; done|intros ->; done].
Qed.

Lemma matches_plain pat p :
  forallb lit_plain pat = true → Glob.matches pat p = true → Forall plain p.
Proof.
  revert p. induction pat as [|g pat IH]; intros p Hlit; simpl.
  - intros ->%bool_decide_eq_true. constructor.
  - simpl in Hlit. apply andb_prop in Hlit as [Hg Hlit].
    destruct g as [name|suffix|].
    + destruct p as [|x p]; [done|].
      intros [Hx Hp]%andb_prop. apply String.eqb_eq in Hx as ->.
      constructor; [by apply bool_decide_eq_true in Hg|by apply IH].
    + destruct p as [|x p]; [done|].
      intros [[Hx _]%andb_prop Hp]%andb_prop.
      constructor; [by apply visible_plain|by apply IH].
    + induction p as [|x p IHp].
      * intros _. constructor.
      * intros [Hp|[Hx Hp]%andb_prop]%orb_prop; [by apply IH|].
        constructor; [by apply visible_plain|by apply IHp].
Qed.

Lemma forallb_lit_plain_snoc pat :
  forallb lit_plain (pat ++ [Glob.Globstar]) = forallb lit_plain pat.
Proof. rewrite forallb_app. simpl. by rewrite andb_true_r. Qed.

Lemma expand_lit_plain t cwd pattern :
  forallb lit_plain (Glob.parse pattern) = true →
  forallb lit_plain (expand t cwd pattern) = true.
Proof.
  intros H. unfold expand.
  destruct (node_at t _) as [[]|]; [done| |done]. by rewrite forallb_lit_plain_snoc.
Qed.

Lemma globby_eq patterns cwd t :
  globby patterns cwd t
  = match faults OpGlob cwd with
    | Some code => Outcome (Throw (FsError code OpGlob cwd)) t []
    | None =>
        match node_at t cwd with
        | Some (File _) => Outcome (Throw (FsError ENOTDIR OpGlob cwd)) t []
        | _ =>
            Outcome
              (Ok (filter (λ kv, selected (expand t cwd <$> patterns) kv)
                     (entries_below cwd t)).*1)
              t []
        end
    end.
Proof.
  unfold globby, attempt. destruct (faults OpGlob cwd); [done|].
  rewrite bind_eq. simpl. by destruct (node_at t cwd) as [[]|].
Qed.

Lemma globby_plain patterns cwd t files :
  tame patterns →
  res (globby patterns cwd t) = Ok files → Forall (Forall plain) files.
Proof.
  intros Htame. rewrite globby_eq.
  assert (Forall (Forall plain)
            (filter (λ kv, selected (expand t cwd <$> patterns) kv) (entries_below cwd t)).*1)
    as Hsel.
  { apply Forall_fmap, Forall_forall. intros [rel n] [Hs _]%list_elem_of_filter.
    simpl. unfold selected in Hs. simpl in Hs. destruct n; [|done].
    apply Is_true_true, existsb_exists in Hs as (pat & Hin & Hm).
    apply list_elem_of_In, list_elem_of_fmap in Hin as (pattern & -> & Hin).
    eapply matches_plain; [|done]. apply expand_lit_plain.
    unfold tame in Htame. rewrite Forall_forall in Htame. by apply Htame. }
  destruct (faults OpGlob cwd); [done|].
  destruct (node_at t cwd) as [[]|]; simpl; [done| |]; by intros [= <-].
Qed.

Lemma preserves_globby R `{!PreOrder R} patterns cwd :
  tame patterns →
  preserves R (λ files, Forall (Forall plain) files) (globby patterns cwd).
Proof.
  intros Htame t. split; [|intros files Hf; by eapply globby_plain].
  rewrite globby_eq. destruct (faults OpGlob cwd); [done|].
  by destruct (node_at t cwd) as [[]|].
Qed.

Lemma tame_markdownPatterns : tame markdownPatterns.
Proof. repeat constructor. Qed.

Lemma tame_docPatterns : tame docPatterns.
Proof. repeat constructor. Qed.

Lemma tame_injectPatterns : tame injectPatterns.
Proof. repeat constructor. Qed.

(** ** The output directory of a repository *)

Lemma split_on_free c s : Forall (λ x, Str.contains c x = false) (Str.split_on c s).
Proof.
  induction s as [|a s IH]; simpl; [by repeat constructor|].
  destruct (Ascii.eqb a c) eqn:E; [by constructor|].
  destruct (Str.split_on c s) as [|x xs]; [by repeat constructor; simpl; rewrite E|].
  apply Forall_cons in IH as [Hx Hxs]. constructor; [|done]. simpl. by rewrite E, Hx.
Qed.

Lemma short_name_no_slash r name :
  short_name r = Some name → Str.contains Str.slash name = false.
Proof.
  unfold short_name. intros H%list_elem_of_lookup_2.
  pose proof (split_on_free Str.slash (repo r)) as Hall.
  rewrite Forall_forall in Hall. by apply Hall.
Qed.

Lemma out_of_cases r name :
  short_name r = Some name →
  (name = ".." ∧ out_of name = [])
  ∨ out_of name = ["projects"]
  ∨ (plain name ∧ out_of name = ["projects"; name]).
Proof.
  intros Hs%short_name_no_slash. unfold out_of, Path.of_string.
  rewrite (split_on_absent _ name) by done.
  change (Str.split_on Str.slash OUT_ROOT) with ["projects"].
  unfold Path.join, Path.normalize_segs. simpl.
  destruct (decide (name = "" ∨ name = ".")) as [H|H]; [by right; left|].
  destruct (decide (name = "..")) as [->|H']; [by left|].
  right. right. split; [|done]. repeat split; [|  |done]; intros ->; apply H; auto.
Qed.

Lemma out_of_plain r name : short_name r = Some name → Forall plain (out_of name).
Proof.
  intros [[_ ->]|[->|[(?&?&?) ->]]]%out_of_cases; repeat constructor; done.
Qed.

Lemma join_plain a b : Forall plain a → Forall plain b → Path.join a b = a ++ b.
Proof. intros Ha Hb. unfold Path.join. apply normalize_segs_plain. by apply Forall_app. Qed.

Lemma plain_index_candidates :
  Forall (λ n, Forall plain (Path.of_string n)) indexCandidates.
Proof. repeat constructor; done. Qed.

(** ** Every step of a repository writes below its output directory *)

Section Process.
Context (D : path → Prop) `{!Region D}.
Context (r : RepoSpec) (name : string) (out : path).
Hypothesis out_plain : Forall plain out.
Hypothesis out_region : ∀ rel, D (out ++ rel).

Lemma region_out : D out.
Proof. rewrite <- (app_nil_r out). apply out_region. Qed.

Lemma region_dirname p : D p → D (Path.dirname p) ∨ Path.dirname p = [].
Proof.
  intros Hp. destruct (decide (Path.dirname p = [])) as [|Hne]; [by right|left].
  eapply region_above; [done|done|]. by apply prefix_of_dirname.
Qed.

Lemma preserves_copy_root_files srcDocs :
  preserves (within D) (λ _, True) (copy_root_files srcDocs out).
Proof.
  unfold copy_root_files.
  eapply preserves_bind; [apply _|apply preserves_ensureDir; [done|left; apply region_out]|].
  intros _ _.
  eapply preserves_bind;
    [apply _|apply preserves_globby; [apply _|apply tame_markdownPatterns]|].
  intros files Hfiles.
  eapply preserves_bind; [apply _| |].
  { apply preserves_for_each; [apply _|]. intros file Hin.
    rewrite Forall_forall in Hfiles.
    rewrite (join_plain out file) by auto. by apply preserves_copy. }
  intros _ _.
  eapply preserves_bind;
    [apply _|apply preserves_globby; [apply _|apply tame_docPatterns]|].
  intros docs Hdocs.
  apply preserves_for_each; [apply _|]. intros file Hin.
  rewrite Forall_forall in Hdocs.
  rewrite (join_plain out file) by auto.
  eapply preserves_bind; [apply _|apply preserves_existsSync; apply _|].
  intros [] _; [|apply preserves_ret; [apply _|done]].
  eapply preserves_bind; [apply _| |intros _ _; by apply preserves_copy].
  apply preserves_ensureDir; [done|]. by apply region_dirname.
Qed.

Lemma preserves_inject : preserves (within D) (λ _, True) (inject r out).
Proof.
  unfold inject.
  eapply preserves_bind;
    [apply _|apply preserves_globby; [apply _|apply tame_injectPatterns]|].
  intros files Hfiles.
  apply preserves_for_each; [apply _|]. intros rel Hin.
  rewrite Forall_forall in Hfiles. rewrite (join_plain out rel) by auto.
  eapply preserves_bind; [apply _|by apply preserves_readFile|].
  intros raw _.
  eapply preserves_bind; [apply _|apply (preserves_lift _ (λ _, True)); done|].
  intros text _. by apply preserves_writeFile.
Qed.

Lemma preserves_add_index : preserves (within D) (λ _, True) (add_index r name out).
Proof.
  unfold add_index.
  eapply preserves_bind; [apply _| |].
  { apply preserves_some; [apply _|]. intros n. apply preserves_existsSync. apply _. }
  intros [] _; simpl; [apply preserves_ret; [apply _|done]|].
  eapply preserves_bind; [apply _|apply (preserves_lift _ (λ _, True)); done|].
  intros text _. rewrite join_plain; [|done|by repeat constructor].
  by apply preserves_writeFile.
Qed.

End Process.

Lemma preserves_process_repo D `{!Region D} r :
  (∀ name rel, short_name r = Some name → D (out_of name ++ rel)) →
  preserves (within D) (λ _, True) (process_repo r).
Proof.
  intros HD. unfold process_repo.
  destruct (short_name r) as [name|] eqn:Hname; [|apply preserves_throw; apply _].
  pose proof (out_of_plain r name Hname) as Hplain.
  eapply preserves_bind; [apply _|apply preserves_existsSync; apply _|].
  intros e _. destruct (negb e); [apply preserves_say; apply _|].
  eapply preserves_bind; [apply _| |].
  { destruct (root_files r).
    - apply preserves_copy_root_files; auto.
    - apply preserves_copy; [done|]. rewrite <- (app_nil_r (out_of name)). auto. }
  intros _ _.
  eapply preserves_bind; [apply _|apply preserves_inject; auto|].
  intros _ _. apply preserves_add_index; auto.
Qed.

Lemma preserves_repos D `{!Region D} repos :
  (∀ r name rel, r ∈ repos → short_name r = Some name → D (out_of name ++ rel)) →
  preserves (within D) (λ _, True) (for_each repos process_repo).
Proof.
  intros HD. apply preserves_for_each; [apply _|].
  intros r Hr. apply preserves_process_repo; [done|]. intros name rel. by apply HD.
Qed.

(** ** The output root *)

#[local] Instance below_out_root_region : Region below_out_root.
Proof.
  split.
  - intros p k Hp Hk. unfold below_out_root in *. by etrans.
  - intros p k [rest ->] Hk [rest' Hrest]. change out_root with ["projects"] in *.
    destruct k as [|x k]; [done|]. simpl in Hrest. injection Hrest as <- _.
    by apply prefix_cons, prefix_nil.
Qed.

#[local] Instance all_paths_region : Region (λ _, True).
Proof. by split. Qed.

Lemma lookup_filter_keep (P : path → Prop) (Pd : ∀ kv : path * node, Decision (P kv.1))
    (t : gmap path node) k :
  P k → filter (λ kv, P kv.1) t !! k = t !! k.
Proof.
  intros HP. apply option_eq. intros n. rewrite map_lookup_filter_Some. simpl. tauto.
Qed.

Lemma lookup_filter_drop (P : path → Prop) (Pd : ∀ kv : path * node, Decision (P kv.1))
    (t : gmap path node) k :
  ¬ P k → filter (λ kv, P kv.1) t !! k = None.
Proof.
  intros HP. apply map_lookup_filter_None. right. by intros n _.
Qed.

Lemma lookup_cleared t k :
  cleared t !! k
  = if decide (k = out_root) then Some Dir
    else if decide (below_out_root k) then None else t !! k.
Proof.
  unfold cleared. destruct (decide (k = out_root)) as [->|Hk].
  - by rewrite lookup_insert_eq.
  - rewrite lookup_insert_ne by done.
    destruct (decide (below_out_root k)).
    + apply (lookup_filter_drop (λ k, ¬ below_out_root k)). tauto.
    + by apply (lookup_filter_keep (λ k, ¬ below_out_root k)).
Qed.

Lemma cleared_outside t t2 :
  (∀ k, ¬ below_out_root k → t2 !! k = t !! k) → cleared t2 = cleared t.
Proof.
  intros H. apply map_eq. intros k. rewrite !lookup_cleared.
  repeat case_decide; auto.
Qed.

Lemma strictly_below_out_root k :
  strictly_below out_root k ↔ below_out_root k ∧ k ≠ out_root.
Proof. done. Qed.

Lemma well_formed_no_orphans t k :
  well_formed t → t !! out_root = None → below_out_root k → t !! k = None.
Proof.
  intros Hwf Hroot [rest ->]. induction rest as [|x rest IH] using rev_ind.
  - by rewrite app_nil_r.
  - destruct (t !! (out_root ++ rest ++ [x])) as [n|] eqn:E; [|done].
    apply Hwf in E. unfold Path.dirname in E.
    rewrite app_assoc, removelast_last in E.
    change out_root with ["projects"] in *. simpl in *. congruence.
Qed.

Lemma emptyDir_eq p t :
  emptyDir p t
  = match faults OpEmptyDir p with
    | Some code => Outcome (Throw (FsError code OpEmptyDir p)) t []
    | None =>
        match node_at t p with
        | Some Dir => Outcome (Ok tt) (filter (λ kv, ¬ strictly_below p kv.1) t) []
        | _ =>
            match mkdirs_from [] p t with
            | Ok t' => Outcome (Ok tt) t' []
            | Throw e => Outcome (Throw e) t []
            end
        end
    end.
Proof.
  unfold emptyDir, attempt. destruct (faults OpEmptyDir p); [done|].
  rewrite bind_eq. simpl.
  destruct (node_at t p) as [[]|]; try done;
    unfold mkdirs; rewrite !bind_eq; simpl; by destruct (mkdirs_from [] p t).
Qed.

(** Emptying the output root succeeds unless the environment fails it or
    a file is in its place, and leaves the [cleared] tree. *)
Lemma emptyDir_out_root t :
  well_formed t ∨ t !! out_root = Some Dir →
  res (emptyDir out_root t) = Ok tt →
  emptyDir out_root t = Outcome (Ok tt) (cleared t) [].
Proof.
  intros Hwf. rewrite emptyDir_eq.
  destruct (faults OpEmptyDir out_root); [done|].
  change (node_at t out_root) with (t !! out_root).
  change (mkdirs_from [] out_root t)
    with (match t !! out_root with
          | None => Ok (<[out_root := Dir]> t)
          | Some Dir => Ok t
          | Some (File _) => Throw (FsError EEXIST OpEnsureDir out_root)
          end).
  destruct (t !! out_root) as [[text|]|] eqn:Hroot; [done| |]; intros _; f_equal.
  - apply map_eq. intros k. rewrite lookup_cleared.
    destruct (decide (k = out_root)) as [->|Hk].
    + rewrite <- Hroot. apply (lookup_filter_keep (λ k, ¬ strictly_below out_root k)).
      by intros [_ ?].
    + destruct (decide (below_out_root k)).
      * apply (lookup_filter_drop (λ k, ¬ strictly_below out_root k)).
        intros H'. by apply H'.
      * apply (lookup_filter_keep (λ k, ¬ strictly_below out_root k)). by intros [? _].
  - destruct Hwf as [Hwf|?]; [|congruence].
    apply map_eq. intros k. rewrite lookup_cleared.
    destruct (decide (k = out_root)) as [->|Hk]; [by rewrite lookup_insert_eq|].
    rewrite lookup_insert_ne by done.
    case_decide; [by apply well_formed_no_orphans|done].
Qed.


Lemma emptyDir_ok_faults p t :
  res (emptyDir p t) = Ok tt → faults OpEmptyDir p = None.
Proof. rewrite emptyDir_eq. by destruct (faults OpEmptyDir p). Qed.

Lemma emptyDir_out_root_ok t :
  faults OpEmptyDir out_root = None →
  (∀ text, t !! out_root ≠ Some (File text)) →
  res (emptyDir out_root t) = Ok tt.
Proof.
  intros Hf Hroot. rewrite emptyDir_eq, Hf.
  change (node_at t out_root) with (t !! out_root).
  change (mkdirs_from [] out_root t)
    with (match t !! out_root with
          | None => Ok (<[out_root := Dir]> t)
          | Some Dir => Ok t
          | Some (File _) => Throw (FsError EEXIST OpEnsureDir out_root)
          end).
  destruct (t !! out_root) as [[text|]|] eqn:E; [|done|done]. by destruct (Hroot text).
Qed.

(** Two trees that agree outside the output root are the same to
    [emptyDir], hence to the whole run. *)
Lemma emptyDir_same_sources t t2 :
  well_formed t ∨ t !! out_root = Some Dir →
  well_formed t2 ∨ t2 !! out_root = Some Dir →
  res (emptyDir out_root t) = Ok tt →
  (∀ text, t2 !! out_root ≠ Some (File text)) →
  (∀ k, ¬ below_out_root k → t2 !! k = t !! k) →
  emptyDir out_root t2 = emptyDir out_root t.
Proof.
  intros Hwf Hwf2 Hok Hroot2 Hsame.
  rewrite (emptyDir_out_root t), (emptyDir_out_root t2); try done.
  - by rewrite (cleared_outside t t2).
  - apply emptyDir_out_root_ok; [|done]. by eapply emptyDir_ok_faults.
Qed.

Lemma run_after_emptyDir repos t t2 :
  emptyDir out_root t2 = emptyDir out_root t → run repos t2 = run repos t.
Proof.
  intros H. unfold run. change (Path.resolve OUT_ROOT) with out_root.
  by rewrite (bind_eq _ _ t2), (bind_eq _ _ t), H.
Qed.

Lemma main_run_ok env repos t o :
  main env repos t = (0%nat, o) → o = run repos t ∧ res (run repos t) = Ok tt.
Proof.
  unfold main. destruct (res (run repos t)) as [[]|e] eqn:E; [|done].
  by intros [= <-].
Qed.

Lemma run_ok_inv repos t :
  res (run repos t) = Ok tt →
  res (emptyDir out_root t) = Ok tt
  ∧ res (for_each repos process_repo (fs (emptyDir out_root t))) = Ok tt
  ∧ fs (run repos t) = fs (for_each repos process_repo (fs (emptyDir out_root t)))
  ∧ console (run repos t)
    = console (emptyDir out_root t)
      ++ console (for_each repos process_repo (fs (emptyDir out_root t)))
      ++ [Log "Aggregation complete."].
Proof.
  unfold run. change (Path.resolve OUT_ROOT) with out_root.
  intros H. apply bind_ok in H as ([] & H1 & H2 & H3 & H4).
  pose proof H2 as H2'. apply bind_ok in H2' as ([] & H5 & _ & H7 & H8).
  repeat split; try done.
  - by rewrite H3, H7.
  - by rewrite H4, H8.
Qed.

Lemma out_below_root r name rel :
  short_name r = Some name → name ≠ ".." → below_out_root (out_of name ++ rel).
Proof.
  intros Hname Hne.
  destruct (out_of_cases r name Hname) as [[? _]|[->|[_ ->]]]; [done| |].
  - by exists rel.
  - by exists (name :: rel).
Qed.

(** What a successful run leaves: the output root is a directory, and
    nothing outside it has changed. *)
Lemma run_confined repos t :
  well_formed t ∨ t !! out_root = Some Dir →
  Forall (λ r, short_name r ≠ Some "..") repos →
  res (run repos t) = Ok tt →
  fs (run repos t) !! out_root = Some Dir
  ∧ ∀ k, ¬ below_out_root k → fs (run repos t) !! k = t !! k.
Proof.
  intros Hwf Hrepos (H0 & H1 & H2 & _)%run_ok_inv.
  rewrite H2. rewrite (emptyDir_out_root t) by done. simpl.
  destruct (preserves_repos below_out_root repos) with (t := cleared t) as [[Hg Hf] _].
  { intros r name rel Hr Hname. apply (out_below_root r); [done|].
    rewrite Forall_forall in Hrepos. intros ->. by apply (Hrepos r). }
  split.
  - apply Hg. rewrite lookup_cleared. by rewrite decide_True.
  - intros k Hk. rewrite Hf by done. rewrite lookup_cleared.
    rewrite decide_False, decide_False; [done|done|].
    intros ->. apply Hk. by exists [].
Qed.

(** C5: when a run succeeded on a well-formed tree, a run on any
    well-formed tree that agrees with it outside the output root (the
    sources are unchanged; the output root holds whatever an earlier run
    left, or is absent) has the very same outcome: same exit status, same
    tree, same console.  The output root is emptied first, so nothing of
    an earlier run persists.  In particular, for repositories whose short
    name is not [".."], which keeps every write below the output root, a
    second run on the tree the first one left reproduces it. *)
Theorem aggregation_idempotent env repos t o :
  well_formed t →
  main env repos t = (0%nat, o) →
  (∀ t2, well_formed t2 →
         (∀ text, t2 !! out_root ≠ Some (File text)) →
         (∀ k, ¬ below_out_root k → t2 !! k = t !! k) →
         main env repos t2 = (0%nat, o))
  ∧ (Forall (λ r, short_name r ≠ Some "..") repos →
     main env repos (fs o) = (0%nat, o)).
Proof.
  intros Hwf Hmain.
  destruct (main_run_ok _ _ _ _ Hmain) as [-> Hok].
  pose proof (run_ok_inv _ _ Hok) as (H0 & _).
  split.
  - intros t2 Hwf2 Hroot2 Hsame.
    rewrite <- Hmain. unfold main.
    rewrite (run_after_emptyDir repos t t2); [done|].
    apply emptyDir_same_sources; try done; by left.
  - intros Hrepos.
    destruct (run_confined repos t) as [Hroot Hout]; [by left|done|done|].
    rewrite <- Hmain. unfold main.
    rewrite (run_after_emptyDir repos t (fs (run repos t))); [done|].
    apply emptyDir_same_sources; try done; [by left|by right|].
    intros text. by rewrite Hroot.
Qed.

(** ** Missing sources and errors *)

Lemma process_repo_missing r name t :
  short_name r = Some name →
  node_at t (srcDocs_of r) = None →
  process_repo r t = Outcome (Ok tt) t [skip_warning r].
Proof.
  intros Hname Hsrc. unfold process_repo. rewrite Hname, bind_eq. simpl.
  rewrite Hsrc. rewrite bool_decide_eq_false_2; [done|]. by intros [? ?].
Qed.

Lemma for_each_cons {A} (x : A) l (f : A → M unit) :
  for_each (x :: l) f = (f x ;; for_each l f).
Proof. reflexivity. Qed.

Lemma for_each_skip before r after t :
  res (for_each before process_repo t) = Ok tt →
  process_repo r (fs (for_each before process_repo t))
  = Outcome (Ok tt) (fs (for_each before process_repo t)) [skip_warning r] →
  for_each (before ++ r :: after) process_repo t
  = Outcome
      (res (for_each after process_repo (fs (for_each before process_repo t))))
      (fs (for_each after process_repo (fs (for_each before process_repo t))))
      (console (for_each before process_repo t)
       ++ skip_warning r
          :: console (for_each after process_repo (fs (for_each before process_repo t)))).
Proof.
  intros Hbefore Hskip.
  rewrite for_each_app, bind_eq, Hbefore, for_each_cons, bind_eq, Hskip. done.
Qed.

Lemma for_each_throw before r after t e :
  res (for_each before process_repo t) = Ok tt →
  res (process_repo r (fs (for_each before process_repo t))) = Throw e →
  for_each (before ++ r :: after) process_repo t
  = Outcome (Throw e)
      (fs (process_repo r (fs (for_each before process_repo t))))
      (console (for_each before process_repo t)
       ++ console (process_repo r (fs (for_each before process_repo t)))).
Proof.
  intros Hbefore Hthrow.
  by rewrite for_each_app, bind_eq, Hbefore, for_each_cons, bind_eq, Hthrow.
Qed.

(** A convention root outside the output root that is missing when the
    run starts is still missing when the repository's turn comes. *)
Lemma missing_stays_missing before src t :
  well_formed t ∨ t !! out_root = Some Dir →
  Forall (λ r, short_name r ≠ Some "..") before →
  res (emptyDir out_root t) = Ok tt →
  ¬ below_out_root src →
  node_at t src = None →
  node_at (fs (for_each before process_repo (fs (emptyDir out_root t)))) src = None.
Proof.
  intros Hwf Hrepos Hok Hsrc Hmissing.
  rewrite (emptyDir_out_root t) by done. simpl.
  destruct (preserves_repos below_out_root before) with (t := cleared t) as [[_ Hf] _].
  { intros r name rel Hr Hname. apply (out_below_root r); [done|].
    rewrite Forall_forall in Hrepos. intros ->. by apply (Hrepos r). }
  destruct src as [|s src]; [done|]. simpl in *.
  rewrite Hf by done. rewrite lookup_cleared.
  rewrite decide_False, decide_False; [done|done|].
  intros E. apply Hsrc. rewrite E. by exists [].
Qed.

Lemma run_throw_in_loop repos t e :
  res (emptyDir out_root t) = Ok tt →
  res (for_each repos process_repo (fs (emptyDir out_root t))) = Throw e →
  res (run repos t) = Throw e.
Proof.
  intros H0 H1. unfold run. change (Path.resolve OUT_ROOT) with out_root.
  by rewrite bind_eq, H0, bind_eq, H1.
Qed.

Lemma attempt_fails op p code t :
  faults op p = Some code →
  attempt op p t = Outcome (Throw (FsError code op p)) t [].
Proof. intros H. unfold attempt. by rewrite H. Qed.

Lemma copy_fails src dest code t :
  faults OpCopy src = Some code →
  copy src dest t = Outcome (Throw (FsError code OpCopy src)) t [].
Proof. intros H. unfold copy. by rewrite bind_eq, (attempt_fails _ _ code). Qed.

Lemma writeFile_fails p text code t :
  faults OpWriteFile p = Some code →
  writeFile p text t = Outcome (Throw (FsError code OpWriteFile p)) t [].
Proof. intros H. unfold writeFile. by rewrite bind_eq, (attempt_fails _ _ code). Qed.

(** ** The fallback index *)

Lemma writeFile_ok p text t :
  res (writeFile p text t) = Ok tt →
  fs (writeFile p text t) = <[p := File text]> t.
Proof.
  unfold writeFile, attempt. rewrite bind_eq.
  destruct (faults OpWriteFile p); [done|]. simpl.
  by destruct (node_at t p) as [[]|], (node_at t (Path.dirname p)) as [[]|].
Qed.

Lemma some_index_candidates (f : string → path) t :
  some indexCandidates (λ n, existsSync (f n)) t
  = Outcome
      (Ok (bool_decide (is_Some (node_at t (f "index.md")))
           || bool_decide (is_Some (node_at t (f "README.md")))))
      t [].
Proof.
  unfold indexCandidates, some, existsSync. rewrite !bind_eq. simpl.
  destruct (bool_decide (is_Some (node_at t (f "index.md")))); [done|].
  simpl. by destruct (bool_decide (is_Some (node_at t (f "README.md")))).
Qed.





Section AddIndex.
Context (r : RepoSpec) (name : string) (out : path).
Hypothesis out_plain : Forall plain out.

Lemma add_index_eq t :
  add_index r name out t
  = if bool_decide (is_Some (node_at t (out ++ ["index.md"])))
       || bool_decide (is_Some (node_at t (out ++ ["README.md"])))
    then Outcome (Ok tt) t []
    else match GrayMatter.stringify engines (index_body r name)
                 [(edit_key, VStr (repo_url r))] with
         | Ok text => writeFile (out ++ ["index.md"]) text t
         | Throw e => Outcome (Throw e) t []
         end.
Proof.
  unfold add_index. rewrite bind_eq, some_index_candidates. simpl.
  rewrite !join_plain by (done || by repeat constructor).
  change (Path.of_string "index.md") with ["index.md"].
  change (Path.of_string "README.md") with ["README.md"].
  destruct (_ || _); simpl; [done|].
  rewrite bind_eq.
  destruct (GrayMatter.stringify engines _ _) as [text|e]; simpl; [|done].
  by rewrite outcome_eta.
Qed.



End AddIndex.





(** ** Decoding front matter *)



(** ** The environment *)

Lemma main_ignores_env env env' repos t : main env repos t = main env' repos t.
Proof. reflexivity. Qed.

(** ** Which files are selected *)

Lemma relative_to_spec p k rel : relative_to p k = Some rel → k = p ++ rel ∧ rel ≠ [].
Proof.
  revert k. induction p as [|a p IH]; intros k; simpl.
  - destruct k; [done|]. by intros [= <-].
  - destruct k as [|b k]; [done|]. case_decide; [|done]. subst b.
    intros [-> ?]%IH. done.
Qed.

Lemma relative_to_app p rel : rel ≠ [] → relative_to p (p ++ rel) = Some rel.
Proof.
  intros Hrel. induction p as [|a p IH]; simpl.
  - by destruct rel.
  - by rewrite decide_True.
Qed.

Lemma elem_of_entries_below p t rel n :
  (rel, n) ∈ entries_below p t ↔ rel ≠ [] ∧ t !! (p ++ rel) = Some n.
Proof.
  unfold entries_below. rewrite list_elem_of_omap. split.
  - intros ([k n'] & Hin & Hrel). apply elem_of_map_to_list in Hin. simpl in Hrel.
    destruct (relative_to p k) as [rel'|] eqn:E; simplify_eq/=.
    apply relative_to_spec in E as [-> ?]. done.
  - intros [Hrel Hlook]. exists (p ++ rel, n). split; [by apply elem_of_map_to_list|].
    simpl. by rewrite relative_to_app.
Qed.

Lemma elem_of_globby patterns cwd t files rel :
  res (globby patterns cwd t) = Ok files →
  rel ∈ files ↔
  ∃ text pattern,
    rel ≠ [] ∧ t !! (cwd ++ rel) = Some (File text)
    ∧ pattern ∈ patterns ∧ Glob.matches (expand t cwd pattern) rel = true.
Proof.
  rewrite globby_eq. destruct (faults OpGlob cwd); [done|].
  intros Hfiles.
  assert (files = (filter (λ kv, selected (expand t cwd <$> patterns) kv)
                     (entries_below cwd t)).*1) as ->.
  { destruct (node_at t cwd) as [[]|]; simpl in Hfiles; by simplify_eq. }
  rewrite list_elem_of_fmap. split.
  - intros ([rel' n] & -> & [Hsel Hin]%list_elem_of_filter). simpl.
    apply elem_of_entries_below in Hin as [Hrel Hlook].
    unfold selected in Hsel. simpl in Hsel. destruct n as [text|]; [|done].
    apply Is_true_true, existsb_exists in Hsel as (pat & Hpat & Hm).
    apply list_elem_of_In, list_elem_of_fmap in Hpat as (pattern & -> & Hpattern).
    by exists text, pattern.
  - intros (text & pattern & Hrel & Hlook & Hpattern & Hm).
    exists (rel, File text). split; [done|].
    apply list_elem_of_filter. split; [|by apply elem_of_entries_below].
    unfold selected. simpl. apply Is_true_true, existsb_exists.
    exists (expand t cwd pattern). split; [|done].
    apply list_elem_of_In, list_elem_of_fmap. by exists pattern.
Qed.

Lemma expand_cases t cwd pattern :
  expand t cwd pattern = Glob.parse pattern
  ∨ expand t cwd pattern = Glob.parse pattern ++ [Glob.Globstar].
Proof. unfold expand. destruct (node_at t _) as [[]|]; auto. Qed.

Lemma ends_with_empty s : Str.ends_with "" s = true.
Proof.
  unfold Str.ends_with. simpl. rewrite Nat.sub_0_r.
  assert (Str.drop (String.length s) s = "") as ->; [|done].
  induction s; simpl; auto.
Qed.

Lemma parsed_markdownPatterns :
  Glob.parse <$> markdownPatterns = [[Glob.Star ".md"]; [Glob.Star ".mdx"]].
Proof. reflexivity. Qed.

Lemma parsed_docPatterns :
  Glob.parse <$> docPatterns
  = [[Glob.Lit "docs"; Glob.Globstar; Glob.Star ""];
     [Glob.Lit "documentation"; Glob.Globstar; Glob.Star ""];
     [Glob.Star ".md"];
     [Glob.Lit "CLAUDE.md"]].
Proof. reflexivity. Qed.

Lemma single_segment_markdown pat name :
  pat ∈ (Glob.parse <$> markdownPatterns) ++ (Glob.parse <$> docPatterns) →
  Glob.matches pat [name] = true ∨ Glob.matches (pat ++ [Glob.Globstar]) [name] = true →
  is_markdown name = true.
Proof.
  rewrite parsed_markdownPatterns, parsed_docPatterns. unfold is_markdown.
  intros Hin. simpl in Hin.
  repeat (apply elem_of_cons in Hin as [->|Hin]); [..|by apply not_elem_of_nil in Hin];
    simpl; rewrite ?andb_false_r, ?andb_true_r, ?orb_false_r; intros [H|H];
    try done;
    repeat match goal with
           | H : _ && _ = true |- _ => apply andb_prop in H as [? ?]
           | H : String.eqb _ _ = true |- _ => apply String.eqb_eq in H as ->
           end;
    try done;
    match goal with H : Str.ends_with _ _ = true |- _ => by rewrite H, ?orb_true_r end.
Qed.

(** [**/*] matches every path of visible segments that is not empty. *)
Lemma matches_globstar_any dirs name :
  Forall (λ x, Glob.visible x = true) dirs → Glob.visible name = true →
  Glob.matches [Glob.Globstar; Glob.Star ""] (dirs ++ [name]) = true.
Proof.
  intros Hdirs Hname. induction Hdirs as [|x dirs Hx _ IH].
  - simpl. by rewrite Hname, ends_with_empty.
  - change ((x :: dirs) ++ [name]) with (x :: dirs ++ [name]).
    change (Glob.matches [Glob.Globstar; Glob.Star ""] (x :: dirs ++ [name]))
      with (Glob.matches [Glob.Star ""] (x :: dirs ++ [name])
            || Glob.visible x && Glob.matches [Glob.Globstar; Glob.Star ""] (dirs ++ [name])).
    by rewrite IH, Hx, orb_true_r.
Qed.

Lemma matches_globstar_any_expanded dirs name :
  Forall (λ x, Glob.visible x = true) dirs → Glob.visible name = true →
  Glob.matches [Glob.Globstar; Glob.Star ""; Glob.Globstar] (dirs ++ [name]) = true.
Proof.
  intros Hdirs Hname. induction Hdirs as [|x dirs Hx _ IH].
  - simpl. by rewrite Hname, ends_with_empty.
  - change ((x :: dirs) ++ [name]) with (x :: dirs ++ [name]).
    change (Glob.matches [Glob.Globstar; Glob.Star ""; Glob.Globstar] (x :: dirs ++ [name]))
      with (Glob.matches [Glob.Star ""; Glob.Globstar] (x :: dirs ++ [name])
            || Glob.visible x
               && Glob.matches [Glob.Globstar; Glob.Star ""; Glob.Globstar] (dirs ++ [name])).
    by rewrite IH, Hx, orb_true_r.
Qed.

Lemma nested_docs_match dir dirs name :
  dir = "docs" ∨ dir = "documentation" →
  Forall (λ x, Glob.visible x = true) dirs →
  Glob.visible name = true →
  ∃ pattern, pattern ∈ docPatterns ∧
    Glob.matches (Glob.parse pattern) (dir :: dirs ++ [name]) = true
    ∧ Glob.matches (Glob.parse pattern ++ [Glob.Globstar]) (dir :: dirs ++ [name]) = true.
Proof.
  intros [-> | ->] Hdirs Hv.
  - exists "docs/**/*". split; [by left|].
    change (Glob.parse "docs/**/*") with [Glob.Lit "docs"; Glob.Globstar; Glob.Star ""].
    cbn [app Glob.matches]. rewrite String.eqb_refl. cbn [andb].
    split; [by apply matches_globstar_any|by apply matches_globstar_any_expanded].
  - exists "documentation/**/*". split; [right; by left|].
    change (Glob.parse "documentation/**/*")
      with [Glob.Lit "documentation"; Glob.Globstar; Glob.Star ""].
    cbn [app Glob.matches]. rewrite String.eqb_refl. cbn [andb].
    split; [by apply matches_globstar_any|by apply matches_globstar_any_expanded].
Qed.

(** *** A directory copy copies every file *)

Lemma place_lookup dest n t t' :
  place dest n t = Ok t' → dest ≠ [] → t' !! dest = Some n.
Proof.
  unfold place, node_at. destruct dest as [|s dest]; [done|]. intros Hrun _. revert Hrun.
  destruct n as [text|]; destruct (t !! _) as [[?|]|] eqn:E; intros [= <-];
    by rewrite ?lookup_insert_eq.
Qed.

Lemma place_other dest n t t' k :
  place dest n t = Ok t' → k ≠ dest → t' !! k = t !! k.
Proof.
  intros Hrun Hk.
  destruct (place_within (λ k, k = dest) dest n t t' Hrun eq_refl) as [_ Hf]. by apply Hf.
Qed.

Lemma place_all_other dest entries t t' k :
  place_all dest entries t = Ok t' →
  (∀ rel, rel ∈ entries.*1 → k ≠ dest ++ rel) →
  t' !! k = t !! k.
Proof.
  revert t. induction entries as [|[rel n] entries IH]; intros t; simpl.
  - by intros [= <-].
  - destruct (place (dest ++ rel) n t) as [t1|e] eqn:E; simpl; [|done].
    intros Hrest Hk. rewrite (IH t1 Hrest).
    + eapply place_other; [done|]. apply Hk. by left.
    + intros rel' Hin. apply Hk. by right.
Qed.

Lemma place_all_lookup dest entries t t' rel n :
  place_all dest entries t = Ok t' →
  (∀ rel n n', (rel, n) ∈ entries → (rel, n') ∈ entries → n = n') →
  (rel, n) ∈ entries → rel ≠ [] →
  t' !! (dest ++ rel) = Some n.
Proof.
  intros Hrun Hfun Hin Hrel. revert t Hrun.
  induction entries as [|[rel0 n0] entries IH]; intros t; simpl.
  - by apply not_elem_of_nil in Hin.
  - destruct (place (dest ++ rel0) n0 t) as [t1|e] eqn:E; simpl; [|done].
    intros Hrest.
    destruct (decide (rel ∈ entries.*1)) as [Hlater|Hlast].
    + apply list_elem_of_fmap in Hlater as ([rel' n'] & Heq & Hin'). simpl in Heq. subst rel'.
      assert (n' = n) as ->.
      { apply (Hfun rel); [by right|done]. }
      apply (IH ltac:(intros ? ? ? ? ?; eapply Hfun; by right) Hin' t1 Hrest).
    + apply elem_of_cons in Hin as [[= <- <-]|Hin].
      * rewrite (place_all_other _ _ _ _ _ Hrest).
        -- eapply place_lookup; [done|]. by destruct dest, rel.
        -- intros rel' Hin' Heq. apply app_inv_head in Heq. by subst.
      * destruct Hlast. apply list_elem_of_fmap. by exists (rel, n).
Qed.

Lemma copy_eq src dest t :
  copy src dest t
  = match faults OpCopy src with
    | Some code => Outcome (Throw (FsError code OpCopy src)) t []
    | None =>
        match node_at t src with
        | None => Outcome (Throw (FsError ENOENT OpCopy src)) t []
        | Some n =>
            if decide (src `prefix_of` dest)
            then Outcome (Throw (FsError EINVAL OpCopy dest)) t []
            else
              match
                result_bind (mkdirs_from [] (Path.dirname dest) t) (λ t1,
                result_bind (place dest n t1) (λ t2,
                  match n with
                  | Dir => place_all dest (entries_below src t) t2
                  | File _ => Ok t2
                  end))
              with
              | Ok t3 => Outcome (Ok tt) t3 []
              | Throw e => Outcome (Throw e) t []
              end
        end
    end.
Proof.
  unfold copy, attempt, mbind, M_bind, bind, get_tree, put_tree, lift.
  destruct (faults OpCopy src); [done|].
  cbn -[place place_all mkdirs_from node_at].
  destruct (node_at t src) as [n|]; [|done]. case_decide; [done|].
  destruct (mkdirs_from [] (Path.dirname dest) t) as [t1|e];
    cbn -[place place_all mkdirs_from node_at]; [|done].
  destruct (place dest n t1) as [t2|e]; cbn -[place place_all mkdirs_from node_at]; [|done].
  by destruct n; [|destruct (place_all dest (entries_below src t) t2)].
Qed.

Lemma copy_directory src dest t rel text :
  node_at t src = Some Dir →
  rel ≠ [] → t !! (src ++ rel) = Some (File text) →
  res (copy src dest t) = Ok tt →
  fs (copy src dest t) !! (dest ++ rel) = Some (File text).
Proof.
  intros Hsrc Hrel Hfile. rewrite copy_eq, Hsrc.
  destruct (faults OpCopy src); [done|]. case_decide; [done|].
  destruct (mkdirs_from [] (Path.dirname dest) t) as [t1|e]; [|done].
  cbn -[place place_all node_at].
  destruct (place dest Dir t1) as [t2|e]; [|done].
  cbn -[place place_all node_at].
  destruct (place_all dest (entries_below src t) t2) as [t3|e] eqn:E; [|done].
  intros _. eapply place_all_lookup; [done| |by apply elem_of_entries_below|done].
  intros rel' n n' [_ H1]%elem_of_entries_below [_ H2]%elem_of_entries_below. congruence.
Qed.

(** C9, as the code has it: under the root-files convention every file
    that either pass selects at the top level of the convention root is
    a file of that directory with a markdown-family extension ([.md] or
    [.mdx]); a file at any depth below [docs] or [documentation] is
    selected by the second pass whatever its extension, as long as no
    name on the way to it starts with a dot; and the copy of a dedicated
    docs directory copies every file below it, whatever its extension. *)
Theorem selection_by_extension cwd t :
  (∀ patterns files name,
     patterns = markdownPatterns ∨ patterns = docPatterns →
     res (globby patterns cwd t) = Ok files →
     [name] ∈ files →
     is_markdown name = true ∧ ∃ text, t !! (cwd ++ [name]) = Some (File text))
  ∧ (∀ files dir dirs name text,
       dir = "docs" ∨ dir = "documentation" →
       res (globby docPatterns cwd t) = Ok files →
       Forall (λ x, Glob.visible x = true) dirs →
       Glob.visible name = true →
       t !! (cwd ++ dir :: dirs ++ [name]) = Some (File text) →
       dir :: dirs ++ [name] ∈ files)
  ∧ (∀ dest rel text,
       node_at t cwd = Some Dir →
       rel ≠ [] → t !! (cwd ++ rel) = Some (File text) →
       res (copy cwd dest t) = Ok tt →
       fs (copy cwd dest t) !! (dest ++ rel) = Some (File text)).
Proof.
  split; [|split].
  - intros patterns files name Hpats Hfiles Hin.
    apply (elem_of_globby _ _ _ _ _ Hfiles) in Hin
      as (text & pattern & _ & Hlook & Hpattern & Hm).
    split; [|by exists text].
    apply (single_segment_markdown (Glob.parse pattern)).
    + apply elem_of_app. destruct Hpats as [-> | ->]; [left|right];
        apply list_elem_of_fmap; by exists pattern.
    + destruct (expand_cases t cwd pattern) as [E|E]; rewrite E in Hm; auto.
  - intros files dir dirs name text Hdir Hfiles Hdirs Hv Hlook.
    apply (elem_of_globby _ _ _ _ _ Hfiles).
    destruct (nested_docs_match dir dirs name Hdir Hdirs Hv) as (pattern & Hin & Hm1 & Hm2).
    exists text, pattern. repeat split; try done.
    by destruct (expand_cases t cwd pattern) as [-> | ->].
  - intros dest rel text. apply copy_directory.
Qed.

(** ** Trimming *)

(** A byte that starts no white-space code point. *)
Lemma trimStart_keeps a s :
  Str.is_space a = false →
  (∀ b, Str.is_space2 a b = false) →
  (∀ b c, Str.is_space3 a b c = false) →
  Str.trimStart (String a s) = String a s.
Proof.
  intros H1 H2 H3. cbn [Str.trimStart]. rewrite H1.
  destruct s as [|b [|c s]]; [done|by rewrite H2|by rewrite H2, H3].
Qed.

Lemma trimEnd_first_char a s :
  Str.trimStart (String a s) ≠ "" → ∃ x, Str.trimEnd (String a s) = String a x.
Proof.
  intros H. cbn [Str.trimEnd].
  destruct (String.eqb_spec (Str.trimStart (String a s)) "") as [E|_]; [done|]. by eexists.
Qed.

(** A string that does not start with white space keeps its first
    character when trimmed. *)
Lemma trim_first_char a s :
  Str.trimStart (String a s) = String a s → ∃ x, Str.trim (String a s) = String a x.
Proof.
  intros H. unfold Str.trim. rewrite H. apply trimEnd_first_char. by rewrite H.
Qed.

Lemma starts_with_first c p s :
  Str.starts_with (String c p) s = true → ∃ s', s = String c s'.
Proof.
  unfold Str.starts_with. destruct s as [|a s]; [done|]. cbn [String.prefix].
  destruct (ascii_dec c a) as [<-|]; [by eexists|done].
Qed.

(** ** The scan of [fixMdxCodeBlocks] *)

(** A line that ends a section is neither a fence nor a module
    statement: the outer loop steps over it. *)
Lemma ends_section_plain line :
  FixMdx.ends_section line = true →
  FixMdx.is_fence line = false ∧ FixMdx.is_module_line line = false.
Proof.
  unfold FixMdx.ends_section, FixMdx.is_fence, FixMdx.is_module_line.
  intros [[Hblank|Hhead]%orb_prop|Hrule]%orb_prop.
  - apply String.eqb_eq in Hblank. rewrite Hblank. split; [|done].
    destruct (Str.starts_with "```" line) eqn:E; [|done].
    apply starts_with_first in E as [s ->].
    destruct (trim_first_char "`"%char s) as [x Hx]; [|congruence].
    by apply trimStart_keeps.
  - apply starts_with_first in Hhead as [s ->].
    destruct (trim_first_char "#"%char s) as [x ->]; [|done].
    by apply trimStart_keeps.
  - assert (∃ s, line = FixMdx.RULE +:+ s) as [s ->].
    { revert Hrule. unfold Str.starts_with, FixMdx.RULE.
      destruct line as [|a [|b [|c s]]]; cbn [String.prefix]; try done;
        repeat (destruct (ascii_dec _ _) as [<-|]; try done).
      intros _. by exists s. }
    change (FixMdx.RULE +:+ s)
      with (String (ascii_of_nat 226)
              (String (ascii_of_nat 184) (String (ascii_of_nat 187) s))).
    by destruct (trim_first_char (ascii_of_nat 226)
                   (String (ascii_of_nat 184) (String (ascii_of_nat 187) s)) eq_refl)
      as [x ->].
Qed.

Lemma section_split rest : section_of rest ++ after_section rest = rest.
Proof.
  induction rest as [|line rest IH]; simpl; [done|].
  destruct (FixMdx.ends_section line); simpl; [done|]. by rewrite IH.
Qed.

Lemma section_end_length rest e :
  FixMdx.section_end rest (S e) e = e + length (section_of rest).
Proof.
  revert e. induction rest as [|line rest IH]; intros e; simpl; [lia|].
  destruct (FixMdx.ends_section line); simpl; [lia|]. rewrite IH. lia.
Qed.

Lemma after_section_length rest : (length (after_section rest) ≤ length rest)%nat.
Proof.
  induction rest as [|line rest IH]; simpl; [done|].
  destruct (FixMdx.ends_section line); simpl; lia.
Qed.

Lemma fenced_after_section rest :
  fenced (Scanning false) (after_section rest)
  = match after_section rest with
    | [] => []
    | line :: rest' => line :: fenced (Scanning false) rest'
    end.
Proof.
  induction rest as [|line rest IH]; simpl; [done|].
  destruct (FixMdx.ends_section line) eqn:E; [|done].
  simpl. by destruct (ends_section_plain line E) as [-> ->].
Qed.

(** A section is copied up to its end, closed, and the scan goes on
    with the line that ended it. *)
Lemma fenced_section rest :
  fenced InSection rest
  = section_of rest ++ FixMdx.CLOSE :: fenced (Scanning false) (after_section rest).
Proof.
  induction rest as [|line rest IH]; simpl; [done|].
  destruct (FixMdx.ends_section line) eqn:E; simpl.
  - by destruct (ends_section_plain line E) as [-> ->].
  - by rewrite IH.
Qed.

Lemma unescaped_after_section rest :
  unescaped false (after_section rest)
  = match after_section rest with [] => false | _ :: rest' => unescaped false rest' end.
Proof.
  induction rest as [|line rest IH]; simpl; [done|].
  destruct (FixMdx.ends_section line) eqn:E; [|done].
  simpl. by destruct (ends_section_plain line E) as [-> ->].
Qed.

Lemma splice_app {A} (pre rest : list A) x :
  FixMdx.splice (length pre) x (pre ++ rest) = pre ++ x :: rest.
Proof.
  unfold FixMdx.splice. by rewrite take_app_length, drop_app_length.
Qed.

(** The loop from index [length pre], with fuel for the lines that are
    left, leaves what the transducer writes and stops at the end of the
    array. *)
Lemma loop_fenced fuel file pre rest inCode md lg :
  (length rest ≤ fuel)%nat →
  ∃ lg',
    FixMdx.loop fuel file (FixMdx.Scan (pre ++ rest) (length pre) inCode md lg)
    = FixMdx.Scan (pre ++ fenced (Scanning inCode) rest)
        (length (pre ++ fenced (Scanning inCode) rest))
        (FixMdx.inCodeBlock
           (FixMdx.loop fuel file (FixMdx.Scan (pre ++ rest) (length pre) inCode md lg)))
        (md || unescaped inCode rest)
        (lg ++ lg')
    ∧ length (fenced (Scanning inCode) rest) = length rest + length lg'
    ∧ (unescaped inCode rest = false → lg' = []).
Proof.
  revert pre rest inCode md lg.
  induction fuel as [|fuel IH]; intros pre rest inCode md lg Hfuel.
  { destruct rest; [|simpl in Hfuel; lia]. exists []. simpl.
    by rewrite !app_nil_r, orb_false_r. }
  destruct rest as [|line rest].
  { exists []. simpl. rewrite !app_nil_r, orb_false_r.
    by rewrite lookup_ge_None_2. }
  simpl in Hfuel.
  cbn [FixMdx.loop FixMdx.lines FixMdx.i FixMdx.inCodeBlock FixMdx.modified FixMdx.logged].
  rewrite lookup_app_r, Nat.sub_diag by done.
  cbn [lookup list_lookup fenced unescaped].
  assert (pre ++ line :: rest = (pre ++ [line]) ++ rest) as Hsnoc by by rewrite <- app_assoc.
  assert (length pre + 1 = length (pre ++ [line])) as Hlen
    by (rewrite length_app; simpl; lia).
  destruct (FixMdx.is_fence line) eqn:Ef.
  - rewrite Hsnoc, Hlen.
    destruct (IH (pre ++ [line]) rest (negb inCode) md lg ltac:(lia)) as (lg' & -> & Hl & Hn).
    exists lg'. rewrite <- !app_assoc. simpl. split; [done|]. split; [lia|done].
  - destruct (negb inCode && FixMdx.is_module_line line) eqn:Em.
    + apply andb_prop in Em as [->%negb_true_iff Em].
      assert (drop (length pre + 1) (pre ++ line :: rest) = rest) as ->.
      { rewrite Hsnoc, Hlen. apply drop_app_length. }
      rewrite (Nat.add_1_r (length pre)), section_end_length, splice_app.
      set (sec := section_of rest). set (tl := after_section rest).
      assert (rest = sec ++ tl) as Hrest by (symmetry; apply section_split).
      assert (pre ++ FixMdx.OPEN :: line :: rest
              = (pre ++ FixMdx.OPEN :: line :: sec) ++ tl) as ->.
      { rewrite <- app_assoc. simpl. by rewrite <- Hrest. }
      assert (length pre + length sec + 2 = length (pre ++ FixMdx.OPEN :: line :: sec)) as ->.
      { rewrite length_app. simpl. lia. }
      rewrite splice_app.
      assert ((pre ++ FixMdx.OPEN :: line :: sec) ++ FixMdx.CLOSE :: tl
              = (pre ++ FixMdx.OPEN :: line :: sec ++ [FixMdx.CLOSE]) ++ tl) as ->.
      { rewrite <- !app_assoc. simpl. by rewrite <- app_assoc. }
      assert (length (pre ++ FixMdx.OPEN :: line :: sec) + 1
              = length (pre ++ FixMdx.OPEN :: line :: sec ++ [FixMdx.CLOSE])) as ->.
      { rewrite !length_app. simpl. rewrite length_app. simpl. lia. }
      destruct (IH (pre ++ FixMdx.OPEN :: line :: sec ++ [FixMdx.CLOSE]) tl false true
                  (lg ++ FixMdx.found file (length pre) line)) as (lg' & -> & Hl & Hn).
      { pose proof (after_section_length rest). unfold tl. lia. }
      exists (FixMdx.found file (length pre) line ++ lg').
      rewrite fenced_section. fold sec tl.
      rewrite <- !app_assoc. simpl. rewrite <- !app_assoc. simpl.
      rewrite orb_true_r. split; [done|]. split; [|done].
      rewrite length_app. simpl. rewrite Hl.
      apply (f_equal length) in Hrest. rewrite length_app in Hrest. lia.
    + rewrite Hsnoc, Hlen.
      destruct (IH (pre ++ [line]) rest inCode md lg ltac:(lia)) as (lg' & -> & Hl & Hn).
      exists lg'. rewrite <- !app_assoc. simpl. split; [done|]. split; [lia|done].
Qed.

Lemma loop_more fuel extra file st :
  FixMdx.lines (FixMdx.loop fuel file st) !! FixMdx.i (FixMdx.loop fuel file st) = None →
  FixMdx.loop (fuel + extra) file st = FixMdx.loop fuel file st.
Proof.
  revert st. induction fuel as [|fuel IH]; intros st.
  - simpl. intros H. destruct extra; [done|]. simpl. by rewrite H.
  - cbn [Nat.add FixMdx.loop].
    destruct (FixMdx.lines st !! FixMdx.i st) as [line|]; [|done].
    destruct (FixMdx.is_fence line); [apply IH|].
    destruct (negb (FixMdx.inCodeBlock st) && FixMdx.is_module_line line); apply IH.
Qed.

Lemma fix_lines_eq file content :
  ∃ lg,
    FixMdx.fix_lines file content
    = FixMdx.Scan (fenced (Scanning false) content)
        (length (fenced (Scanning false) content))
        (FixMdx.inCodeBlock (FixMdx.fix_lines file content))
        (unescaped false content) lg
    ∧ length (fenced (Scanning false) content) = length content + length lg
    ∧ (unescaped false content = false → lg = []).
Proof.
  destruct (loop_fenced (length content) file [] content false false [] ltac:(done))
    as (lg & H & Hl & Hn).
  exists lg. unfold FixMdx.fix_lines, FixMdx.start. by rewrite H at 1.
Qed.

(** X1: the loop of [fixMdxCodeBlocks] comes to its end: with the length
    of the array as fuel, and with any more, it stops because the index
    has reached the end of the array, and with the same result. *)
Theorem scan_terminates file content extra :
  FixMdx.loop (length content + extra) file (FixMdx.start content)
  = FixMdx.fix_lines file content
  ∧ FixMdx.i (FixMdx.fix_lines file content)
    = length (FixMdx.lines (FixMdx.fix_lines file content)).
Proof.
  destruct (fix_lines_eq file content) as (lg & H & _).
  assert (FixMdx.i (FixMdx.fix_lines file content)
          = length (FixMdx.lines (FixMdx.fix_lines file content))) as Hi by by rewrite H.
  split; [|done]. apply loop_more.
  fold (FixMdx.fix_lines file content). apply lookup_ge_None_2. by rewrite Hi.
Qed.

Lemma fenced_unchanged inCode ls :
  unescaped inCode ls = false → fenced (Scanning inCode) ls = ls.
Proof.
  revert inCode. induction ls as [|line ls IH]; intros inCode; simpl; [done|].
  destruct (FixMdx.is_fence line); [intros H; by rewrite IH|].
  destruct (negb inCode && FixMdx.is_module_line line); [done|].
  intros H. by rewrite IH.
Qed.

Lemma fenced_length m ls :
  (length ls + match m with InSection => 1 | Scanning _ => 0 end ≤ length (fenced m ls))%nat.
Proof.
  revert m. induction ls as [|line ls IH]; intros m; simpl.
  - destruct m; simpl; lia.
  - destruct m as [inCode|].
    + destruct (FixMdx.is_fence line); simpl.
      { specialize (IH (Scanning (negb inCode))). simpl in IH. lia. }
      destruct (negb inCode && FixMdx.is_module_line line); simpl.
      * specialize (IH InSection). simpl in IH. lia.
      * specialize (IH (Scanning inCode)). simpl in IH. lia.
    + destruct (FixMdx.ends_section line); simpl.
      * specialize (IH (Scanning false)). simpl in IH. lia.
      * specialize (IH InSection). simpl in IH. lia.
Qed.

Lemma fenced_longer inCode ls :
  unescaped inCode ls = true →
  (length ls + 2 ≤ length (fenced (Scanning inCode) ls))%nat.
Proof.
  revert inCode. induction ls as [|line ls IH]; intros inCode; simpl; [done|].
  destruct (FixMdx.is_fence line); simpl.
  { intros H. specialize (IH _ H). lia. }
  destruct (negb inCode && FixMdx.is_module_line line); simpl.
  - intros _. pose proof (fenced_length InSection ls) as H. simpl in H. lia.
  - intros H. specialize (IH _ H). lia.
Qed.

Lemma fenced_sublist m ls : ls `sublist_of` fenced m ls.
Proof.
  revert m. induction ls as [|line ls IH]; intros m; simpl; [apply sublist_nil_l|].
  destruct m as [inCode|].
  - destruct (FixMdx.is_fence line); [by apply sublist_skip|].
    destruct (negb inCode && FixMdx.is_module_line line).
    + apply sublist_cons. by apply sublist_skip.
    + by apply sublist_skip.
  - destruct (FixMdx.ends_section line).
    + apply sublist_cons. by apply sublist_skip.
    + by apply sublist_skip.
Qed.

Lemma fenced_elem m ls line :
  line ∈ fenced m ls → line ∈ ls ∨ line = FixMdx.OPEN ∨ line = FixMdx.CLOSE.
Proof.
  revert m. induction ls as [|x ls IH]; intros m; simpl.
  - destruct m; [by intros ?%elem_of_nil|]. intros ->%list_elem_of_singleton. auto.
  - assert (∀ m', line ∈ x :: fenced m' ls
                  → line ∈ x :: ls ∨ line = FixMdx.OPEN ∨ line = FixMdx.CLOSE) as Hcons.
    { intros m' [->|H]%elem_of_cons; [left; by left|].
      destruct (IH _ H) as [?|?]; [left; by right|by right]. }
    destruct m as [inCode|].
    + destruct (FixMdx.is_fence x); [apply Hcons|].
      destruct (negb inCode && FixMdx.is_module_line x); [|apply Hcons].
      intros [->|H]%elem_of_cons; [auto|]. by apply (Hcons InSection).
    + destruct (FixMdx.ends_section x); [|apply Hcons].
      intros [->|H]%elem_of_cons; [auto|]. by apply (Hcons (Scanning false)).
Qed.

(** X2: what the scan leaves is what the one-pass transducer writes; the
    file counts as modified exactly when a module statement stands
    outside the fences; and every report goes with one inserted line. *)
Theorem scan_fenced file content :
  FixMdx.lines (FixMdx.fix_lines file content) = fenced (Scanning false) content
  ∧ FixMdx.modified (FixMdx.fix_lines file content) = unescaped false content
  ∧ length (FixMdx.lines (FixMdx.fix_lines file content))
    = length content + length (FixMdx.logged (FixMdx.fix_lines file content)).
Proof.
  destruct (fix_lines_eq file content) as (lg & H & Hl & _).
  rewrite H. by simpl.
Qed.

(** X3: a file with no module statement outside its fences is left as
    it is, with nothing reported; any other file grows, by the fences
    alone: its lines stay, in their order, and every line that is new is
    one of the two fences. *)
Theorem scan_conservative file content :
  (unescaped false content = false →
   FixMdx.lines (FixMdx.fix_lines file content) = content
   ∧ FixMdx.modified (FixMdx.fix_lines file content) = false
   ∧ FixMdx.logged (FixMdx.fix_lines file content) = [])
  ∧ (unescaped false content = true →
     FixMdx.modified (FixMdx.fix_lines file content) = true
     ∧ (length content + 2 ≤ length (FixMdx.lines (FixMdx.fix_lines file content)))%nat)
  ∧ content `sublist_of` FixMdx.lines (FixMdx.fix_lines file content)
  ∧ (∀ line, line ∈ FixMdx.lines (FixMdx.fix_lines file content) →
       line ∈ content ∨ line = FixMdx.OPEN ∨ line = FixMdx.CLOSE).
Proof.
  destruct (fix_lines_eq file content) as (lg & H & Hl & Hn).
  rewrite H. simpl. repeat split.
  - by apply fenced_unchanged.
  - done.
  - by apply Hn.
  - done.
  - by apply fenced_longer.
  - apply fenced_sublist.
  - apply fenced_elem.
Qed.

Lemma fenced_escaped m ls :
  tidy m ls = true → unescaped (second_pass m) (fenced m ls) = false.
Proof.
  revert m. induction ls as [|line ls IH]; intros m; simpl.
  - by destruct m.
  - destruct m as [inCode|]; simpl.
    + destruct (FixMdx.is_fence line) eqn:Ef.
      { intros H. simpl. rewrite Ef. by apply (IH (Scanning (negb inCode))). }
      destruct (negb inCode && FixMdx.is_module_line line) eqn:Em.
      * intros H. apply andb_prop in Em as [->%negb_true_iff Em]. simpl.
        rewrite Ef. simpl. by apply (IH InSection).
      * intros H. simpl. rewrite Ef, Em. by apply (IH (Scanning inCode)).
    + destruct (FixMdx.ends_section line) eqn:Es.
      * intros H. destruct (ends_section_plain line Es) as [Ef Em]. simpl.
        rewrite Ef, Em. by apply (IH (Scanning false)).
      * intros [Ef%negb_true_iff H]%andb_prop. simpl. rewrite Ef. simpl.
        by apply (IH InSection).
Qed.

(** X4: when no section that the scan wraps holds a fence of its own, a
    second scan finds nothing to do. *)
Theorem scan_idempotent file content :
  tidy (Scanning false) content = true →
  FixMdx.lines (FixMdx.fix_lines file (FixMdx.lines (FixMdx.fix_lines file content)))
  = FixMdx.lines (FixMdx.fix_lines file content)
  ∧ FixMdx.modified (FixMdx.fix_lines file (FixMdx.lines (FixMdx.fix_lines file content)))
    = false.
Proof.
  intros Htidy.
  destruct (fix_lines_eq file content) as (lg & -> & _). simpl.
  destruct (fix_lines_eq file (fenced (Scanning false) content)) as (lg2 & -> & _). simpl.
  pose proof (fenced_escaped (Scanning false) content Htidy) as H. simpl in H.
  split; [by apply fenced_unchanged|done].
Qed.

(** ** Lines *)

Lemma concat_cons_char sep a x xs :
  String.concat sep (String a x :: xs) = String a (String.concat sep (x :: xs)).
Proof. by destruct xs. Qed.

Lemma join_split c s : Str.join_with (String c "") (Str.split_on c s) = s.
Proof.
  unfold Str.join_with. induction s as [|a s IH]; simpl; [done|].
  pose proof (split_on_nonempty c s) as Hne.
  destruct (Ascii.eqb_spec a c) as [->|Hac].
  - destruct (Str.split_on c s) as [|x xs]; [done|].
    change (String.concat (String c "") ("" :: x :: xs))
      with (String c (String.concat (String c "") (x :: xs))).
    by rewrite IH.
  - destruct (Str.split_on c s) as [|x xs]; [done|].
    by rewrite concat_cons_char, IH.
Qed.

(** ** More on what globby selects *)

Lemma matches_snoc_globstar pat p :
  Glob.matches pat p = true → Glob.matches (pat ++ [Glob.Globstar]) p = true.
Proof.
  revert p. induction pat as [|g pat IH]; intros p.
  - simpl. intros ->%bool_decide_eq_true. done.
  - destruct g as [name|suffix|]; simpl.
    + destruct p as [|x p]; [done|].
      intros [-> Hp]%andb_prop. by rewrite IH.
    + destruct p as [|x p]; [done|].
      intros [-> Hp]%andb_prop. by rewrite IH.
    + induction p as [|x p IHp].
      * rewrite orb_false_r. intros H. by rewrite IH.
      * intros [H|[-> H]%andb_prop]%orb_prop.
        { by rewrite IH. }
        rewrite IHp by done. by rewrite orb_true_r.
Qed.

(** A file below visible directories, with a visible name that ends in
    [suffix], matches [**/*suffix]. *)
Lemma matches_globstar_star suffix dirs name :
  Forall (λ x, Glob.visible x = true) dirs →
  Glob.visible name = true → Str.ends_with suffix name = true →
  Glob.matches [Glob.Globstar; Glob.Star suffix] (dirs ++ [name]) = true.
Proof.
  intros Hdirs Hname Hsuffix. induction Hdirs as [|x dirs Hx _ IH].
  - simpl. by rewrite Hname, Hsuffix.
  - change ((x :: dirs) ++ [name]) with (x :: dirs ++ [name]).
    change (Glob.matches [Glob.Globstar; Glob.Star suffix] (x :: dirs ++ [name]))
      with (Glob.matches [Glob.Star suffix] (x :: dirs ++ [name])
            || Glob.visible x
               && Glob.matches [Glob.Globstar; Glob.Star suffix] (dirs ++ [name])).
    by rewrite IH, Hx, orb_true_r.
Qed.

(** What [**/*suffix] matches, with or without the directory expansion,
    has a segment that ends in [suffix]. *)
Lemma matches_suffix_segment suffix tail p :
  Glob.matches (Glob.Globstar :: Glob.Star suffix :: tail) p = true →
  ∃ x, x ∈ p ∧ Str.ends_with suffix x = true.
Proof.
  induction p as [|x p IH]; [done|].
  change (Glob.matches (Glob.Globstar :: Glob.Star suffix :: tail) (x :: p))
    with (Glob.matches (Glob.Star suffix :: tail) (x :: p)
          || Glob.visible x && Glob.matches (Glob.Globstar :: Glob.Star suffix :: tail) p).
  intros [H|[_ H]%andb_prop]%orb_prop.
  - simpl in H. apply andb_prop in H as [[_ H]%andb_prop _]. exists x. split; [by left|done].
  - destruct (IH H) as (y & Hy & Hs). exists y. split; [by right|done].
Qed.

Lemma entries_below_NoDup p t : NoDup (entries_below p t).*1.
Proof.
  unfold entries_below.
  pose proof (NoDup_fst_map_to_list t) as Hnd.
  induction (map_to_list t) as [|[k n] l IH]; simpl; [constructor|].
  apply NoDup_cons in Hnd as [Hk Hnd]. simpl in Hk.
  destruct (relative_to p k) as [rel|] eqn:E; simpl; [|by apply IH].
  constructor; [|by apply IH].
  intros ([rel' n'] & Heq & ([k' n''] & Hin & Hrel)%list_elem_of_omap)%list_elem_of_fmap.
  simpl in *. subst rel'.
  destruct (relative_to p k') as [rel2|] eqn:E'; simplify_eq/=.
  apply relative_to_spec in E as [-> _]. apply relative_to_spec in E' as [-> _].
  apply Hk. apply list_elem_of_fmap. by exists (p ++ rel, n').
Qed.

Lemma globby_NoDup patterns cwd t files :
  res (globby patterns cwd t) = Ok files → NoDup files.
Proof.
  rewrite globby_eq. destruct (faults OpGlob cwd); [done|].
  intros Hfiles.
  assert (files = (filter (λ kv, selected (expand t cwd <$> patterns) kv)
                     (entries_below cwd t)).*1) as ->.
  { destruct (node_at t cwd) as [[]|]; simpl in Hfiles; by simplify_eq. }
  eapply sublist_NoDup; [apply entries_below_NoDup|].
  apply fmap_sublist, sublist_filter.
Qed.

Lemma globby_fs patterns cwd t : fs (globby patterns cwd t) = t.
Proof.
  rewrite globby_eq. destruct (faults OpGlob cwd); [done|].
  by destruct (node_at t cwd) as [[]|].
Qed.

(** ** Loops that rewrite files *)

Lemma readFile_ok p t raw :
  res (readFile p t) = Ok raw →
  node_at t p = Some (File raw) ∧ fs (readFile p t) = t.
Proof.
  unfold readFile, attempt. destruct (faults OpReadFile p); [done|].
  rewrite bind_eq. simpl. destruct (node_at t p) as [[text|]|]; simpl; [|done..].
  by intros [= ->].
Qed.

Lemma lift_ok {A} (r : result A) t a : res (lift r t) = Ok a → r = Ok a ∧ fs (lift r t) = t.
Proof. destruct r; simpl; [by intros [= ->]|done]. Qed.

Lemma for_each_say msgs t : for_each msgs say t = Outcome (Ok tt) t msgs.
Proof.
  induction msgs as [|m msgs IH]; [done|].
  rewrite for_each_cons, bind_eq. simpl. by rewrite IH.
Qed.

(** A loop over distinct files, every turn of which rewrites the file
    it stands for and nothing else. *)
Lemma for_each_edits {A} (l : list A) (key : A → path) (G : A → string → string → Prop)
    (body : A → M unit) t :
  NoDup (key <$> l) →
  (∀ x t', x ∈ l → res (body x t') = Ok tt →
     ∃ raw text, t' !! key x = Some (File raw) ∧ G x raw text
                 ∧ fs (body x t') = <[key x := File text]> t') →
  res (for_each l body t) = Ok tt →
  (∀ k, k ∉ key <$> l → fs (for_each l body t) !! k = t !! k)
  ∧ (∀ x, x ∈ l →
       ∃ raw text, t !! key x = Some (File raw) ∧ G x raw text
                   ∧ fs (for_each l body t) !! key x = Some (File text)).
Proof.
  revert t. induction l as [|x l IH]; intros t Hnd Hbody Hrun.
  - split; [done|]. by intros x ?%elem_of_nil.
  - rewrite fmap_cons in Hnd. apply NoDup_cons in Hnd as [Hx Hnd].
    rewrite for_each_cons in Hrun |- *.
    apply bind_ok in Hrun as ([] & Hfirst & Hrest & -> & _).
    destruct (Hbody x t ltac:(by left) Hfirst) as (raw & text & Hraw & HG & Hfs).
    destruct (IH (fs (body x t)) Hnd) as [Hother Hkeys]; [|done|].
    { intros y t' Hy. apply Hbody. by right. }
    split.
    + intros k Hk. rewrite fmap_cons in Hk. apply not_elem_of_cons in Hk as [Hne Hk].
      rewrite Hother by done. rewrite Hfs. by rewrite lookup_insert_ne.
    + intros y [->|Hy]%elem_of_cons.
      * exists raw, text. split; [done|]. split; [done|].
        rewrite Hother by done. rewrite Hfs. by rewrite lookup_insert_eq.
      * destruct (Hkeys y Hy) as (raw' & text' & Hraw' & HG' & Hfs').
        exists raw', text'. split; [|done].
        rewrite Hfs in Hraw'. rewrite lookup_insert_ne in Hraw'; [done|].
        intros E. apply Hx. rewrite E. apply list_elem_of_fmap. by exists y.
Qed.

Lemma parsed_injectPatterns pattern :
  pattern ∈ injectPatterns →
  Glob.parse pattern = [Glob.Globstar; Glob.Star ".md"]
  ∨ Glob.parse pattern = [Glob.Globstar; Glob.Star ".mdx"].
Proof.
  intros Hin. unfold injectPatterns in Hin.
  repeat (apply elem_of_cons in Hin as [->|Hin]); [by left|by right|].
  by apply elem_of_nil in Hin.
Qed.

Lemma inject_turn r abs s t :
  abs ≠ [] →
  res ((raw ← readFile abs; text ← lift (annotate r s raw); writeFile abs text) t) = Ok tt →
  ∃ raw text, t !! abs = Some (File raw) ∧ annotate r s raw = Ok text
              ∧ fs ((raw ← readFile abs; text ← lift (annotate r s raw); writeFile abs text) t)
                = <[abs := File text]> t.
Proof.
  intros Habs Hrun.
  apply bind_ok in Hrun as (raw & Hread & Hrun & -> & _).
  apply readFile_ok in Hread as [Hraw Hfs1]. rewrite Hfs1 in Hrun |- *.
  apply bind_ok in Hrun as (text & Hlift & Hwrite & -> & _).
  apply lift_ok in Hlift as [Hann Hfs2]. rewrite Hfs2 in Hwrite |- *.
  exists raw, text. split; [by destruct abs|]. split; [done|].
  by apply writeFile_ok.
Qed.

Lemma inject_inv r out t :
  Forall plain out →
  res (inject r out t) = Ok tt →
  ∃ files,
    res (globby injectPatterns out t) = Ok files
    ∧ (∀ k, k ∉ (λ rel, out ++ rel) <$> files → fs (inject r out t) !! k = t !! k)
    ∧ (∀ rel, rel ∈ files →
         ∃ raw text, t !! (out ++ rel) = Some (File raw)
                     ∧ annotate r (Path.render rel) raw = Ok text
                     ∧ fs (inject r out t) !! (out ++ rel) = Some (File text)).
Proof.
  intros Hout Hrun. unfold inject in Hrun |- *.
  apply bind_ok in Hrun as (files & Hglob & Hrun & -> & _).
  rewrite globby_fs in Hrun |- *.
  exists files. split; [done|].
  pose proof (globby_plain _ _ _ _ tame_injectPatterns Hglob) as Hplain.
  rewrite Forall_forall in Hplain.
  apply (for_each_edits files (λ rel, out ++ rel)
           (λ rel raw text, annotate r (Path.render rel) raw = Ok text)); [| |done].
  - apply NoDup_fmap_2_strong; [|by eapply globby_NoDup].
    intros x y _ _ E. by apply app_inv_head in E.
  - intros rel t' Hrel. rewrite (join_plain out rel) by auto.
    apply inject_turn.
    apply (elem_of_globby _ _ _ _ rel Hglob) in Hrel as (_ & _ & Hne & _).
    by destruct out.
Qed.

Lemma inject_markdown r out t dirs name raw :
  Forall plain out →
  res (inject r out t) = Ok tt →
  t !! (out ++ dirs ++ [name]) = Some (File raw) →
  Forall (λ x, Glob.visible x = true) dirs → Glob.visible name = true →
  is_markdown name = true →
  ∃ text, annotate r (Path.render (dirs ++ [name])) raw = Ok text
          ∧ fs (inject r out t) !! (out ++ dirs ++ [name]) = Some (File text).
Proof.
  intros Hout Hrun Hraw Hdirs Hname Hmd.
  destruct (inject_inv r out t Hout Hrun) as (files & Hglob & Hother & Hkeys).
  assert (dirs ++ [name] ∈ files) as Hin.
  { apply (elem_of_globby _ _ _ _ _ Hglob).
    unfold is_markdown in Hmd. apply orb_prop in Hmd.
    exists raw, (if Str.ends_with ".md" name then "**/*.md" else "**/*.mdx").
    split; [by destruct dirs|]. split; [done|]. split.
    { destruct (Str.ends_with ".md" name); [by left|right; by left]. }
    assert (Glob.matches
              (Glob.parse (if Str.ends_with ".md" name then "**/*.md" else "**/*.mdx"))
              (dirs ++ [name]) = true) as Hm.
    { destruct (Str.ends_with ".md" name) eqn:E.
      - by apply (matches_globstar_star ".md").
      - destruct Hmd as [|Hmdx]; [done|]. by apply (matches_globstar_star ".mdx"). }
    destruct (expand_cases t out (if Str.ends_with ".md" name then "**/*.md" else "**/*.mdx"))
      as [-> | ->]; [done|by apply matches_snoc_globstar]. }
  destruct (Hkeys _ Hin) as (raw' & text & Hraw' & Hann & Hfs).
  rewrite Hraw in Hraw'. injection Hraw' as <-. by exists text.
Qed.

(** X5: [inject] rewrites every markdown document below the output
    directory of the repository to its annotation, and changes nothing
    else: a file none of whose path segments has a markdown extension
    keeps its content, nothing outside the directory changes, and no
    entry is created or removed. *)
Theorem inject_rewrites r out t :
  Forall plain out →
  res (inject r out t) = Ok tt →
  (∀ dirs name raw,
     t !! (out ++ dirs ++ [name]) = Some (File raw) →
     Forall (λ x, Glob.visible x = true) dirs → Glob.visible name = true →
     is_markdown name = true →
     ∃ text, annotate r (Path.render (dirs ++ [name])) raw = Ok text
             ∧ fs (inject r out t) !! (out ++ dirs ++ [name]) = Some (File text))
  ∧ (∀ rel, (∀ x, x ∈ rel → is_markdown x = false) →
       fs (inject r out t) !! (out ++ rel) = t !! (out ++ rel))
  ∧ (∀ k, ¬ out `prefix_of` k → fs (inject r out t) !! k = t !! k)
  ∧ (∀ k, (is_Some (fs (inject r out t) !! k) ↔ is_Some (t !! k))
          ∧ (fs (inject r out t) !! k = Some Dir ↔ t !! k = Some Dir)).
Proof.
  intros Hout Hrun.
  destruct (inject_inv r out t Hout Hrun) as (files & Hglob & Hother & Hkeys).
  repeat split.
  - intros dirs name raw. by apply inject_markdown.
  - intros rel Hrel. apply Hother.
    intros (rel' & E & Hin)%list_elem_of_fmap. apply app_inv_head in E as <-.
    apply (elem_of_globby _ _ _ _ _ Hglob) in Hin as (_ & pattern & _ & _ & Hpat & Hm).
    assert (∃ suffix tail, expand t out pattern = Glob.Globstar :: Glob.Star suffix :: tail
                           ∧ (suffix = ".md" ∨ suffix = ".mdx")) as (suffix & tail & E & Hs).
    { destruct (parsed_injectPatterns pattern Hpat) as [Hp|Hp],
        (expand_cases t out pattern) as [He|He]; rewrite He, Hp; eauto. }
    rewrite E in Hm. apply matches_suffix_segment in Hm as (x & Hx & Hends).
    specialize (Hrel x Hx). unfold is_markdown in Hrel.
    destruct Hs as [-> | ->]; rewrite Hends in Hrel; by rewrite ?orb_true_r in Hrel.
  - intros k Hk. apply Hother.
    intros (rel & -> & _)%list_elem_of_fmap. apply Hk. by apply prefix_app_r.
  - destruct (decide (k ∈ (λ rel, out ++ rel) <$> files)) as [Hin|Hout'].
    + apply list_elem_of_fmap in Hin as (rel & -> & Hin).
      destruct (Hkeys _ Hin) as (raw & text & E1 & _ & E2). intros _. eexists. exact E1.
    + by rewrite Hother.
  - destruct (decide (k ∈ (λ rel, out ++ rel) <$> files)) as [Hin|Hout'].
    + apply list_elem_of_fmap in Hin as (rel & -> & Hin).
      destruct (Hkeys _ Hin) as (raw & text & E1 & _ & E2). intros _. eexists. exact E2.
    + by rewrite Hother.
  - destruct (decide (k ∈ (λ rel, out ++ rel) <$> files)) as [Hin|Hout'].
    + apply list_elem_of_fmap in Hin as (rel & -> & Hin).
      destruct (Hkeys _ Hin) as (raw & text & E1 & _ & E2). intros H.
      assert (Some (File text) = Some Dir) by (etrans; [symmetry; exact E2|exact H]). done.
    + by rewrite Hother.
  - destruct (decide (k ∈ (λ rel, out ++ rel) <$> files)) as [Hin|Hout'].
    + apply list_elem_of_fmap in Hin as (rel & -> & Hin).
      destruct (Hkeys _ Hin) as (raw & text & E1 & _ & E2). intros H.
      assert (Some (File raw) = Some Dir) by (etrans; [symmetry; exact E1|exact H]). done.
    + by rewrite Hother.
Qed.

(** *** fixMdxCodeBlocks on the tree *)

Lemma matches_lit name pat x p :
  Glob.matches (Glob.Lit name :: pat) (x :: p) = String.eqb x name && Glob.matches pat p.
Proof. done. Qed.

Lemma fixed_unchanged content :
  unescaped false (Str.split_on (ascii_of_nat 10) content) = false → fixed content = content.
Proof.
  intros H. unfold fixed. rewrite fenced_unchanged by done. apply join_split.
Qed.

Lemma fix_file_ok file t :
  file ≠ [] →
  res (fix_file file t) = Ok tt →
  ∃ content text, t !! file = Some (File content) ∧ text = fixed content
                  ∧ fs (fix_file file t) = <[file := File text]> t.
Proof.
  intros Hfile Hrun. unfold fix_file in Hrun |- *.
  apply bind_ok in Hrun as (content & Hread & Hrun & -> & _).
  apply readFile_ok in Hread as [Hcontent Hfs1]. rewrite Hfs1 in Hrun |- *.
  assert (t !! file = Some (File content)) as Hlook by by destruct file.
  exists content, (fixed content). split; [done|]. split; [done|].
  destruct (fix_lines_eq (Path.render file) (Str.split_on (ascii_of_nat 10) content))
    as (lg & E & _ & _).
  revert Hrun. rewrite E. cbn [FixMdx.logged FixMdx.modified FixMdx.lines].
  rewrite !bind_eq, for_each_say. cbn [res fs].
  destruct (unescaped false (Str.split_on (ascii_of_nat 10) content)) eqn:Hun.
  - rewrite !bind_eq.
    destruct (res (writeFile file _ t)) as [[]|e] eqn:Hw; [|done].
    intros _. simpl. by apply writeFile_ok.
  - intros _. simpl. rewrite fixed_unchanged by done. by rewrite insert_id.
Qed.

Lemma fixMdx_inv t :
  res (fixMdxCodeBlocks t) = Ok tt →
  ∃ files,
    res (globby fixPatterns [] t) = Ok files
    ∧ (∀ k, k ∉ files → fs (fixMdxCodeBlocks t) !! k = t !! k)
    ∧ (∀ file, file ∈ files →
         ∃ content, t !! file = Some (File content)
                    ∧ fs (fixMdxCodeBlocks t) !! file = Some (File (fixed content))).
Proof.
  intros Hrun. unfold fixMdxCodeBlocks in Hrun |- *.
  apply bind_ok in Hrun as ([] & _ & Hrun & -> & _). cbn [say fs] in Hrun |- *.
  apply bind_ok in Hrun as (files & Hglob & Hrun & -> & _).
  rewrite globby_fs in Hrun |- *.
  apply bind_ok in Hrun as ([] & Hloop & _ & -> & _). cbn [say fs].
  exists files. split; [done|].
  destruct (for_each_edits files id (λ _ content text, text = fixed content) fix_file t)
    as [Hother Hkeys]; [| |done|].
  - rewrite list_fmap_id. by eapply globby_NoDup.
  - intros file t' Hin. apply fix_file_ok.
    by apply (elem_of_globby _ _ _ _ file Hglob) in Hin as (_ & _ & Hne & _).
  - rewrite list_fmap_id in Hother. split; [done|].
    intros file Hin. destruct (Hkeys file Hin) as (content & text & Hc & -> & Hfs).
    by exists content.
Qed.

(** X6: [fixMdxCodeBlocks] rewrites every [.md] file below [projects] to
    the text the scan leaves and touches nothing else: a file with no
    module statement outside its fences keeps its content, a path none
    of whose segments ends in [.md] (an [.mdx] document, say) keeps its
    entry, and so does everything outside [projects]. *)
Theorem fixMdx_rewrites t :
  res (fixMdxCodeBlocks t) = Ok tt →
  (∀ dirs name content,
     t !! ("projects" :: dirs ++ [name]) = Some (File content) →
     Forall (λ x, Glob.visible x = true) dirs → Glob.visible name = true →
     Str.ends_with ".md" name = true →
     fs (fixMdxCodeBlocks t) !! ("projects" :: dirs ++ [name])
     = Some (File (Str.join_with Str.LF
                     (fenced (Scanning false) (Str.split_on (ascii_of_nat 10) content)))))
  ∧ (∀ k content,
       t !! k = Some (File content) →
       unescaped false (Str.split_on (ascii_of_nat 10) content) = false →
       fs (fixMdxCodeBlocks t) !! k = Some (File content))
  ∧ (∀ k, (∀ x, x ∈ k → Str.ends_with ".md" x = false) →
       fs (fixMdxCodeBlocks t) !! k = t !! k)
  ∧ (∀ k, ¬ ["projects"] `prefix_of` k → fs (fixMdxCodeBlocks t) !! k = t !! k).
Proof.
  intros Hrun. destruct (fixMdx_inv t Hrun) as (files & Hglob & Hother & Hkeys).
  assert (∀ k, k ∈ files →
            ∃ rel tail, k = "projects" :: rel
              ∧ Glob.matches (Glob.Globstar :: Glob.Star ".md" :: tail) rel = true) as Hsel.
  { intros k Hin.
    apply (elem_of_globby _ _ _ _ _ Hglob) in Hin as (_ & pattern & _ & _ & Hpat & Hm).
    apply list_elem_of_singleton in Hpat as ->.
    destruct (expand_cases t [] "projects/**/*.md") as [E|E]; rewrite E in Hm;
      change (Glob.parse "projects/**/*.md")
        with [Glob.Lit "projects"; Glob.Globstar; Glob.Star ".md"] in Hm;
      (destruct k as [|x rel]; [done|]);
      cbn [app] in Hm; rewrite matches_lit in Hm;
      apply andb_prop in Hm as [->%String.eqb_eq Hm]; eauto. }
  repeat split.
  - intros dirs name content Hcontent Hdirs Hname Hmd.
    assert ("projects" :: dirs ++ [name] ∈ files) as Hin.
    { apply (elem_of_globby _ _ _ _ _ Hglob).
      exists content, "projects/**/*.md". split; [done|]. split; [done|].
      split; [by left|].
      assert (Glob.matches (Glob.parse "projects/**/*.md") ("projects" :: dirs ++ [name])
              = true) as Hm.
      { change (Glob.parse "projects/**/*.md")
          with [Glob.Lit "projects"; Glob.Globstar; Glob.Star ".md"].
        rewrite matches_lit. by rewrite matches_globstar_star. }
      destruct (expand_cases t [] "projects/**/*.md") as [-> | ->];
        [done|by apply matches_snoc_globstar]. }
    destruct (Hkeys _ Hin) as (content' & Hc & Hfs).
    assert (Some (File content) = Some (File content')) as [= <-]
      by (etrans; [symmetry; exact Hcontent|exact Hc]).
    exact Hfs.
  - intros k content Hcontent Hun.
    destruct (decide (k ∈ files)) as [Hin|Hout]; [|by rewrite Hother].
    destruct (Hkeys _ Hin) as (content' & Hc & Hfs).
    assert (Some (File content) = Some (File content')) as [= <-]
      by (etrans; [symmetry; exact Hcontent|exact Hc]).
    rewrite <- (fixed_unchanged content) by done. exact Hfs.
  - intros k Hk. apply Hother. intros Hin.
    destruct (Hsel k Hin) as (rel & tail & -> & Hm).
    apply matches_suffix_segment in Hm as (x & Hx & Hends).
    rewrite Hk in Hends; [done|by right].
  - intros k Hk. apply Hother. intros Hin.
    destruct (Hsel k Hin) as (rel & tail & -> & _).
    apply Hk. by apply prefix_cons, prefix_nil.
Qed.

(** ** The run and the sources *)

Lemma emptyDir_outside t k :
  ¬ below_out_root k → fs (emptyDir out_root t) !! k = t !! k.
Proof.
  intros Hk. rewrite emptyDir_eq.
  destruct (faults OpEmptyDir out_root); [done|].
  change (node_at t out_root) with (t !! out_root).
  change (mkdirs_from [] out_root t)
    with (match t !! out_root with
          | None => Ok (<[out_root := Dir]> t)
          | Some Dir => Ok t
          | Some (File _) => Throw (FsError EEXIST OpEnsureDir out_root)
          end).
  destruct (t !! out_root) as [[text|]|] eqn:Hroot; simpl; [done| |].
  - apply (lookup_filter_keep (λ k, ¬ strictly_below out_root k)). by intros [? _].
  - rewrite lookup_insert_ne; [done|]. intros <-. apply Hk. by exists [].
Qed.

(** X7: whatever its outcome, a run creates, changes and removes nothing
    outside the output root, provided no repository has the short name
    [".."]: the sources stay as they are. *)
Theorem sources_untouched env repos t k :
  Forall (λ r, short_name r ≠ Some "..") repos →
  ¬ below_out_root k →
  fs (run repos t) !! k = t !! k
  ∧ fs (main env repos t).2 !! k = t !! k.
Proof.
  intros Hrepos Hk.
  assert (fs (run repos t) !! k = t !! k) as Hrun.
  { unfold run. change (Path.resolve OUT_ROOT) with out_root.
    rewrite bind_eq.
    destruct (res (emptyDir out_root t)) as [[]|e] eqn:E; simpl; [|by apply emptyDir_outside].
    rewrite bind_eq.
    destruct (preserves_repos below_out_root repos) with (t := fs (emptyDir out_root t))
      as [[_ Hf] _].
    { intros r name rel Hr Hname. apply (out_below_root r); [done|].
      rewrite Forall_forall in Hrepos. intros ->. by apply (Hrepos r). }
    destruct (res (for_each repos process_repo (fs (emptyDir out_root t)))) as [[]|e];
      simpl; rewrite Hf by done; by apply emptyDir_outside. }
  split; [done|]. unfold main. by destruct (res (run repos t)).
Qed.

Lemma short_name_none r :
  Str.contains Str.slash (repo r) = false → short_name r = None.
Proof. intros H. unfold short_name. by rewrite split_on_absent. Qed.

(** X8: a repository identifier without a slash has no short name:
    [path.join] throws a TypeError at its turn, before its sources are
    looked at, and the run ends there with exit status 1; the
    repositories after it are not processed. *)
Theorem identifier_without_slash_aborts env before r after t :
  Str.contains Str.slash (repo r) = false →
  res (emptyDir out_root t) = Ok tt →
  res (for_each before process_repo (fs (emptyDir out_root t))) = Ok tt →
  (main env (before ++ r :: after) t).1 = 1%nat
  ∧ res (main env (before ++ r :: after) t).2
    = Throw path_type_error
  ∧ fs (main env (before ++ r :: after) t).2
    = fs (for_each before process_repo (fs (emptyDir out_root t)))
  ∧ console (main env (before ++ r :: after) t).2
    = console (emptyDir out_root t)
      ++ console (for_each before process_repo (fs (emptyDir out_root t)))
      ++ [Error path_type_error].
Proof.
  intros Hrepo Hempty Hbefore.
  pose proof (short_name_none r Hrepo) as Hname.
  assert (process_repo r (fs (for_each before process_repo (fs (emptyDir out_root t))))
          = Outcome
              (Throw path_type_error)
              (fs (for_each before process_repo (fs (emptyDir out_root t)))) []) as Hr.
  { unfold process_repo. rewrite Hname. reflexivity. }
  pose proof (for_each_throw before r after _ _ Hbefore (f_equal res Hr)) as Hloop.
  rewrite Hr in Hloop. simpl in Hloop. rewrite app_nil_r in Hloop.
  assert (run (before ++ r :: after) t
          = Outcome
              (Throw path_type_error)
              (fs (for_each before process_repo (fs (emptyDir out_root t))))
              (console (emptyDir out_root t)
               ++ console (for_each before process_repo (fs (emptyDir out_root t))))) as Hrun.
  { unfold run. change (Path.resolve OUT_ROOT) with out_root.
    rewrite bind_eq, Hempty. cbn [res fs console].
    rewrite bind_eq, Hloop. done. }
  unfold main. rewrite Hrun. cbn [res fs console fst snd].
  repeat split; try done. by rewrite <- app_assoc.
Qed.

(** ** The merged mapping *)

Lemma obj_set_keys k v o :
  is_Some (obj_get k o) → (obj_set k v o).*1 = o.*1.
Proof.
  induction o as [|[k' v'] o IH]; cbn [obj_get obj_set]; [by intros [? ?]|].
  destruct (String.eqb_spec k k') as [->|Hne]; [done|].
  intros H. rewrite !fmap_cons. f_equal. by apply IH.
Qed.

Lemma obj_set_absent k v o : obj_get k o = None → obj_set k v o = o ++ [(k, v)].
Proof.
  induction o as [|[k' v'] o IH]; simpl; [done|].
  destruct (String.eqb_spec k k') as [->|Hne]; simpl; [done|].
  intros H. by rewrite IH.
Qed.

(** X9: the mapping written for a document always has a
    [custom_edit_url] that is neither null nor undefined; its keys are
    those of the existing front matter, in their order, with
    [custom_edit_url] in its old place or, when it was absent, appended
    with the computed URL. *)
Theorem merged_front_matter data custom :
  (∃ v, obj_get edit_key (merge_front_matter data custom) = Some v ∧ nullish v = false)
  ∧ (∀ k, is_Some (obj_get k (merge_front_matter data custom))
          ↔ k = edit_key ∨ is_Some (obj_get k (spread data)))
  ∧ (is_Some (obj_get edit_key (spread data)) →
     (merge_front_matter data custom).*1 = (spread data).*1)
  ∧ (obj_get edit_key (spread data) = None →
     merge_front_matter data custom = spread data ++ [(edit_key, VStr custom)]).
Proof.
  repeat split.
  - rewrite merge_edit_key. eexists. split; [done|].
    unfold coalesce. by destruct (nullish (get_prop data edit_key)) eqn:E.
  - destruct (decide (k = edit_key)) as [->|Hne]; [by left|].
    rewrite merge_other_key by done. by right.
  - intros [->|H].
    + rewrite merge_edit_key. by eexists.
    + destruct (decide (k = edit_key)) as [->|Hne].
      * rewrite merge_edit_key. by eexists.
      * by rewrite merge_other_key.
  - intros H. unfold merge_front_matter. by apply obj_set_keys.
  - intros H. unfold merge_front_matter. rewrite obj_set_absent by done.
    do 2 f_equal. unfold coalesce, get_prop.
    destruct data as [| | | | |items|fields]; try done.
    simpl in H. by rewrite H.
Qed.

(** ** What the run writes to the console *)

Lemma silent_ret {A} (a : A) : silent (ret a).
Proof. done. Qed.

Lemma silent_throw {A} e : silent (@throw A e).
Proof. done. Qed.

Lemma silent_lift {A} (r : result A) : silent (lift r).
Proof. by destruct r. Qed.

Lemma silent_bind {A B} (m : M A) (f : A → M B) :
  silent m → (∀ a, silent (f a)) → silent (m ≫= f).
Proof.
  intros Hm Hf t. rewrite bind_eq.
  destruct (res (m t)); simpl; rewrite Hm; [by rewrite Hf|done].
Qed.

Lemma silent_for_each {A} (l : list A) (f : A → M unit) :
  (∀ x, silent (f x)) → silent (for_each l f).
Proof.
  intros Hf. induction l as [|x l IH]; [done|].
  rewrite for_each_cons. apply silent_bind; [done|]. by intros _.
Qed.

Lemma silent_attempt op p : silent (attempt op p).
Proof. unfold attempt. by destruct (faults op p). Qed.

Lemma silent_existsSync p : silent (existsSync p).
Proof. done. Qed.

Lemma silent_mkdirs p : silent (mkdirs p).
Proof.
  unfold mkdirs. apply silent_bind; [done|]. intros t.
  apply silent_bind; [apply silent_lift|done].
Qed.

Lemma silent_ensureDir p : silent (ensureDir p).
Proof. apply silent_bind; [apply silent_attempt|]. intros _. apply silent_mkdirs. Qed.

Lemma silent_emptyDir p : silent (emptyDir p).
Proof.
  apply silent_bind; [apply silent_attempt|]. intros _.
  apply silent_bind; [done|]. intros t.
  destruct (node_at t p) as [[]|]; try apply silent_mkdirs. done.
Qed.

Lemma silent_copy src dest : silent (copy src dest).
Proof.
  apply silent_bind; [apply silent_attempt|]. intros _.
  apply silent_bind; [done|]. intros t.
  destruct (node_at t src) as [n|]; [|done]. case_decide; [done|].
  apply silent_bind; [apply silent_lift|]. intros t1.
  apply silent_bind; [apply silent_lift|]. intros t2.
  apply silent_bind; [apply silent_lift|]. done.
Qed.

Lemma silent_readFile p : silent (readFile p).
Proof.
  apply silent_bind; [apply silent_attempt|]. intros _.
  apply silent_bind; [done|]. intros t. by destruct (node_at t p) as [[]|].
Qed.

Lemma silent_writeFile p text : silent (writeFile p text).
Proof.
  apply silent_bind; [apply silent_attempt|]. intros _.
  apply silent_bind; [done|]. intros t.
  by destruct (node_at t p) as [[]|], (node_at t (Path.dirname p)) as [[]|].
Qed.

Lemma silent_globby patterns cwd : silent (globby patterns cwd).
Proof.
  intros t. rewrite globby_eq. destruct (faults OpGlob cwd); [done|].
  by destruct (node_at t cwd) as [[]|].
Qed.

Lemma silent_some {A} (l : list A) (f : A → M bool) :
  (∀ x, silent (f x)) → silent (some l f).
Proof.
  intros Hf. induction l as [|x l IH]; [done|].
  simpl. apply silent_bind; [done|]. by intros [].
Qed.

Lemma silent_copy_root_files srcDocs out : silent (copy_root_files srcDocs out).
Proof.
  unfold copy_root_files.
  apply silent_bind; [apply silent_ensureDir|]. intros _.
  apply silent_bind; [apply silent_globby|]. intros files.
  apply silent_bind; [apply silent_for_each; intros; apply silent_copy|]. intros _.
  apply silent_bind; [apply silent_globby|]. intros docs.
  apply silent_for_each. intros file.
  apply silent_bind; [done|]. intros []; [|done].
  apply silent_bind; [apply silent_ensureDir|]. intros _. apply silent_copy.
Qed.

Lemma silent_inject r out : silent (inject r out).
Proof.
  unfold inject. apply silent_bind; [apply silent_globby|]. intros files.
  apply silent_for_each. intros rel.
  apply silent_bind; [apply silent_readFile|]. intros raw.
  apply silent_bind; [apply silent_lift|]. intros text. apply silent_writeFile.
Qed.

Lemma silent_add_index r name out : silent (add_index r name out).
Proof.
  unfold add_index.
  apply silent_bind; [apply silent_some; intros; apply silent_existsSync|].
  intros []; simpl; [done|].
  apply silent_bind; [apply silent_lift|]. intros text. apply silent_writeFile.
Qed.

Lemma existsSync_eq p t :
  existsSync p t = Outcome (Ok (bool_decide (is_Some (node_at t p)))) t [].
Proof. reflexivity. Qed.

(** A repository whose convention root is there is processed without a
    word. *)
Lemma process_repo_present r t :
  is_Some (node_at t (srcDocs_of r)) → console (process_repo r t) = [].
Proof.
  intros Hsrc. unfold process_repo.
  destruct (short_name r) as [name|]; [|done].
  rewrite bind_eq, existsSync_eq. cbn [res fs console].
  rewrite bool_decide_true by done. cbn [negb app].
  apply (silent_bind
           (if root_files r then copy_root_files (srcDocs_of r) (out_of name)
            else copy (srcDocs_of r) (out_of name))
           (λ _, inject r (out_of name) ;; add_index r name (out_of name))).
  - destruct (root_files r); [apply silent_copy_root_files|apply silent_copy].
  - intros _. apply silent_bind; [apply silent_inject|]. intros _. apply silent_add_index.
Qed.

Lemma node_at_outside t t' p :
  (∀ k, ¬ below_out_root k → t' !! k = t !! k) →
  ¬ below_out_root p → node_at t' p = node_at t p.
Proof. intros Hsame Hp. destruct p; [done|]. by apply Hsame. Qed.

Lemma loop_console t repos t' :
  (∀ k, ¬ below_out_root k → t' !! k = t !! k) →
  Forall (λ r, short_name r ≠ Some "..") repos →
  Forall (λ r, ¬ below_out_root (srcDocs_of r)) repos →
  res (for_each repos process_repo t') = Ok tt →
  console (for_each repos process_repo t')
  = skip_warning <$> filter (λ r, node_at t (srcDocs_of r) = None) repos.
Proof.
  revert t'. induction repos as [|r repos IH]; intros t' Hsame Hnames Hsrcs Hrun; [done|].
  apply Forall_cons in Hnames as [Hname Hnames]. apply Forall_cons in Hsrcs as [Hsrc Hsrcs].
  rewrite for_each_cons in Hrun |- *.
  apply bind_ok in Hrun as ([] & Hr & Hrest & _ & ->).
  destruct (short_name r) as [name|] eqn:Ename;
    [|by unfold process_repo in Hr; rewrite Ename in Hr].
  rewrite filter_cons.
  destruct (decide (node_at t (srcDocs_of r) = None)) as [Hmiss|Hthere].
  - assert (node_at t' (srcDocs_of r) = None) as Hmiss'
      by by rewrite (node_at_outside t t').
    rewrite (process_repo_missing r name t' Ename Hmiss') in Hrest |- *.
    cbn [fs console] in *. rewrite fmap_cons. cbn [app]. f_equal. by apply IH.
  - assert (is_Some (node_at t' (srcDocs_of r))) as Hthere'.
    { rewrite (node_at_outside t t') by done.
      by destruct (node_at t (srcDocs_of r)); [eexists|]. }
    rewrite process_repo_present by done. cbn [app].
    apply IH; [|done|done|done].
    intros k Hk.
    destruct (preserves_process_repo below_out_root r) with (t := t') as [[_ Hf] _].
    { intros name' rel Hn. apply (out_below_root r); [done|]. congruence. }
    rewrite Hf by done. by apply Hsame.
Qed.

(** X10: a successful run, on sources that are relative paths outside
    the output root, warns once for every repository whose convention
    root is missing, in the order of the table and with the path that
    [path.join] gave, and logs its completion; nothing else is written
    to the console. *)
Theorem console_of_a_run env repos t :
  Forall located repos →
  Forall (λ r, short_name r ≠ Some "..") repos →
  Forall (λ r, ¬ below_out_root (srcDocs_of r)) repos →
  res (run repos t) = Ok tt →
  main env repos t = (0%nat, run repos t)
  ∧ console (run repos t)
    = (skip_warning <$> filter (λ r, node_at t (srcDocs_of r) = None) repos)
      ++ [Log "Aggregation complete."].
Proof.
  intros _ Hnames Hsrcs Hrun. split; [unfold main; by rewrite Hrun|].
  destruct (run_ok_inv _ _ Hrun) as (Hempty & Hloop & _ & ->).
  rewrite silent_emptyDir. cbn [app]. f_equal.
  apply loop_console; [|done|done|done].
  intros k Hk. by apply emptyDir_outside.
Qed.

(** ** Every step of a repository writes in its own output directory

    The same confinement as above, for a set of paths that is closed
    under non-empty prefixes only: the output root together with the
    output directories of the configured repositories. *)

Section Shelter.
Context (D : path → Prop) `{!Sheltered D}.

Lemma sheltered_mkdirs p t t' :
  mkdirs_from [] p t = Ok t' → D p ∨ p = [] → within D t t'.
Proof.
  intros Hrun [HD| ->]; [|simpl in Hrun; injection Hrun as <-; reflexivity].
  eapply mkdirs_from_within; [done|].
  intros k _ Hk Hpre. by eapply sheltered.
Qed.

Lemma sheltered_ensureDir p :
  D p ∨ p = [] → preserves (within D) (λ _, True) (ensureDir p).
Proof.
  intros HD. unfold ensureDir.
  eapply preserves_bind; [apply _|apply preserves_attempt; apply _|].
  intros _ _ t. unfold mkdirs. rewrite !bind_eq. simpl.
  destruct (mkdirs_from [] p t) as [t'|e] eqn:E; simpl; [|done].
  split; [by eapply sheltered_mkdirs|done].
Qed.

Lemma sheltered_copy src dest :
  (∀ rel, D (dest ++ rel)) → preserves (within D) (λ _, True) (copy src dest).
Proof.
  intros HD. assert (D dest) as Hdest by (rewrite <- (app_nil_r dest); apply HD).
  intros t. rewrite copy_eq.
  destruct (faults OpCopy src); [done|].
  destruct (node_at t src) as [n|]; [|done].
  case_decide; [done|].
  destruct (mkdirs_from [] (Path.dirname dest) t) as [t1|e] eqn:E1; simpl; [|done].
  destruct (place dest n t1) as [t2|e] eqn:E2; simpl; [|done].
  assert (within D t t2) as H12.
  { etrans; [|by eapply place_within].
    eapply mkdirs_from_within; [done|].
    intros k _ Hk Hpre. eapply sheltered; [done|done|]. by apply prefix_of_dirname. }
  destruct n as [text|]; simpl; [done|].
  destruct (place_all dest (entries_below src t) t2) as [t3|e] eqn:E3; simpl; [|done].
  split; [|done]. etrans; [done|]. by eapply place_all_within.
Qed.

Lemma sheltered_dirname p : D p → D (Path.dirname p) ∨ Path.dirname p = [].
Proof.
  intros Hp. destruct (decide (Path.dirname p = [])) as [|Hne]; [by right|left].
  eapply sheltered; [done|done|]. by apply prefix_of_dirname.
Qed.

Lemma sheltered_copy_root_files srcDocs out :
  Forall plain out → (∀ rel, D (out ++ rel)) →
  preserves (within D) (λ _, True) (copy_root_files srcDocs out).
Proof.
  intros Hout HD. assert (D out) as Hroot by (rewrite <- (app_nil_r out); apply HD).
  unfold copy_root_files.
  eapply preserves_bind; [apply _|apply sheltered_ensureDir; by left|].
  intros _ _.
  eapply preserves_bind;
    [apply _|apply preserves_globby; [apply _|apply tame_markdownPatterns]|].
  intros files Hfiles.
  eapply preserves_bind; [apply _| |].
  { apply preserves_for_each; [apply _|]. intros file Hin.
    rewrite Forall_forall in Hfiles.
    rewrite (join_plain out file) by auto. apply sheltered_copy.
    intros rel. rewrite <- app_assoc. apply HD. }
  intros _ _.
  eapply preserves_bind;
    [apply _|apply preserves_globby; [apply _|apply tame_docPatterns]|].
  intros docs Hdocs.
  apply preserves_for_each; [apply _|]. intros file Hin.
  rewrite Forall_forall in Hdocs.
  rewrite (join_plain out file) by auto.
  eapply preserves_bind; [apply _|apply preserves_existsSync; apply _|].
  intros [] _; [|apply preserves_ret; [apply _|done]].
  eapply preserves_bind; [apply _| |intros _ _].
  - apply sheltered_ensureDir. apply sheltered_dirname, HD.
  - apply sheltered_copy. intros rel. rewrite <- app_assoc. apply HD.
Qed.

Lemma sheltered_process_repo r :
  (∀ name rel, short_name r = Some name → D (out_of name ++ rel)) →
  preserves (within D) (λ _, True) (process_repo r).
Proof.
  intros HD. unfold process_repo.
  destruct (short_name r) as [name|] eqn:Hname; [|apply preserves_throw; apply _].
  pose proof (out_of_plain r name Hname) as Hplain.
  eapply preserves_bind; [apply _|apply preserves_existsSync; apply _|].
  intros e _. destruct (negb e); [apply preserves_say; apply _|].
  eapply preserves_bind; [apply _| |].
  { destruct (root_files r).
    - apply sheltered_copy_root_files; auto.
    - apply sheltered_copy; auto. }
  intros _ _.
  eapply preserves_bind; [apply _|apply preserves_inject; auto|].
  intros _ _. apply preserves_add_index; auto.
Qed.

End Shelter.

#[local] Instance output_of_sheltered repos : Sheltered (output_of repos).
Proof.
  intros p k Hp Hk Hpre.
  assert (∀ q, ["projects"] `prefix_of` q → k ≠ [] → k `prefix_of` q →
               ["projects"] `prefix_of` k) as Hroot.
  { intros q [rest ->] _ [rest' Hq]. destruct k as [|x k]; [done|].
    simpl in Hq. injection Hq as <- _. by apply prefix_cons, prefix_nil. }
  destruct Hp as [->|(r & name & Hr & Hname & Hout)].
  - left. change out_root with ["projects"] in *.
    destruct Hpre as [rest Hrest]. destruct k as [|x k]; [done|].
    destruct k; [|done]. simpl in Hrest. by injection Hrest as <-.
  - destruct (decide (out_of name `prefix_of` k)) as [Hin|Hnot].
    { right. by exists r, name. }
    left.
    destruct (out_of_cases r name Hname) as [[_ E]|[E|[_ E]]]; rewrite E in Hout, Hnot.
    + destruct Hnot. apply prefix_nil.
    + destruct Hnot. by apply (Hroot p).
    + pose proof (Hroot p (transitivity (prefix_cons "projects" [] [name] (prefix_nil _)) Hout)
                    Hk Hpre) as [rest ->].
      destruct rest as [|y rest]; [done|].
      destruct Hout as [rest1 ->], Hpre as [rest2 Hrest2].
      simpl in Hrest2. injection Hrest2 as <- _.
      destruct Hnot. by exists rest.
Qed.

(** What lies below the output root after a successful run lies in the
    output directory of a configured repository. *)
Lemma run_isolates repos t k :
  well_formed t →
  res (run repos t) = Ok tt →
  below_out_root k →
  ¬ output_of repos k →
  fs (run repos t) !! k = None.
Proof.
  intros Hwf (H0 & H1 & -> & _)%run_ok_inv Hk Hforeign.
  rewrite (emptyDir_out_root t); [|by left|done]. simpl.
  assert (preserves (within (output_of repos)) (λ _, True) (for_each repos process_repo))
    as Hloop.
  { apply preserves_for_each; [apply _|]. intros r Hr.
    apply sheltered_process_repo; [apply _|].
    intros name rel Hname. right. exists r, name. split; [done|]. split; [done|].
    by apply prefix_app_r. }
  destruct (Hloop (cleared t)) as [[_ Hf] _].
  rewrite Hf by done. rewrite lookup_cleared.
  rewrite decide_False, decide_True; [done|done|].
  intros ->. apply Hforeign. by left.
Qed.

(** X11: after a successful run on a well-formed tree, a path below the
    output root that is neither the root itself nor in the output
    directory of a configured repository does not exist: what an earlier
    run left for a repository that is no longer in the table is gone. *)
Theorem output_isolation repos t k :
  well_formed t →
  res (run repos t) = Ok tt →
  below_out_root k →
  ¬ output_of repos k →
  fs (run repos t) !! k = None.
Proof. apply run_isolates. Qed.

(** ** Normalized paths

    What [path.join] returns is some [".."] segments followed by plain
    ones, and joining plain segments to it appends them. *)

Lemma normalize_rev_dots m n :
  Path.normalize_rev true (replicate m "..") (replicate n "..") = replicate (n + m) "..".
Proof.
  revert m. induction n as [|n IH]; intros m; [done|].
  cbn [replicate Path.normalize_rev]. rewrite decide_False by (intros [?|?]; done).
  rewrite decide_True by done.
  destruct m as [|m].
  - cbn [replicate]. change [".."] with (replicate 1 "..").
    rewrite (IH 1). f_equal. lia.
  - cbn [replicate]. rewrite decide_True by done.
    change (".." :: ".." :: replicate m "..") with (replicate (S (S m)) "..").
    rewrite (IH (S (S m))). f_equal. lia.
Qed.

Lemma rev_replicate {A} n (x : A) : List.rev (replicate n x) = replicate n x.
Proof.
  induction n as [|n IH]; [done|]. simpl. rewrite IH.
  clear IH. induction n as [|n IH]; [done|]. simpl. by rewrite IH.
Qed.

Lemma normalize_rev_normal acc segs :
  (∃ n ps, acc = ps ++ replicate n ".." ∧ Forall plain ps) →
  ∃ n ps, Path.normalize_rev true acc segs = ps ++ replicate n ".." ∧ Forall plain ps.
Proof.
  revert acc. induction segs as [|s segs IH]; intros acc Hacc; [done|].
  cbn [Path.normalize_rev].
  destruct (decide (s = "" ∨ s = ".")) as [|Hs]; [by apply IH|].
  destruct (decide (s = "..")) as [->|Hdots].
  - destruct Hacc as (n & ps & -> & Hps).
    destruct ps as [|p ps].
    + destruct n as [|n]; cbn [app replicate].
      * apply IH. by exists 1, [].
      * rewrite decide_True by done. apply IH. by exists (S (S n)), [].
    + apply Forall_cons in Hps as [(_ & _ & Hp) Hps]. cbn [app].
      rewrite decide_False by done. apply IH. by exists n, ps.
  - apply IH. destruct Hacc as (n & ps & -> & Hps).
    exists n, (s :: ps). split; [done|]. constructor; [|done].
    repeat split; [intros ->; apply Hs; by left|intros ->; apply Hs; by right|done].
Qed.

Lemma normalize_segs_idempotent segs :
  Path.normalize_segs true (Path.normalize_segs true segs) = Path.normalize_segs true segs.
Proof.
  unfold Path.normalize_segs.
  destruct (normalize_rev_normal [] segs) as (n & ps & -> & Hps); [by exists 0, []|].
  rewrite rev_app_distr, rev_replicate, normalize_rev_app.
  pose proof (normalize_rev_dots 0 n) as Hdots. rewrite Nat.add_0_r in Hdots.
  cbn [replicate] in Hdots. rewrite Hdots.
  rewrite normalize_rev_plain by by apply Forall_rev.
  by rewrite rev_app_distr, rev_replicate, !rev_involutive.
Qed.

Lemma join_join a b file :
  Forall plain file → Path.join (Path.join a b) file = Path.join a b ++ file.
Proof.
  intros Hfile. unfold Path.join.
  by rewrite normalize_segs_app_plain, normalize_segs_idempotent.
Qed.

(** ** From a source document to its annotated copy *)

#[local] Instance extends_preorder : PreOrder extends.
Proof.
  split; [intros t k n H; exact H|]. intros t1 t2 t3 H12 H23 k n H. by apply H23, H12.
Qed.

#[local] Instance stable_preorder I : PreOrder (stable I).
Proof.
  split; [intros t H; exact H|]. intros t1 t2 t3 H12 H23 H. by apply H23, H12.
Qed.

Lemma preserves_sub {A : Type} (R R' : relation (gmap path node)) (Q : A → Prop) (m : M A) :
  (∀ t t', R t t' → R' t t') → preserves R Q m → preserves R' Q m.
Proof. intros Hsub Hm t. destruct (Hm t) as [HR HQ]. split; [by apply Hsub|done]. Qed.

Lemma mkdirs_from_extends base rest t t' :
  mkdirs_from base rest t = Ok t' → extends t t'.
Proof.
  revert base t. induction rest as [|s rest IH]; intros base t; simpl.
  - by intros [= <-].
  - destruct (t !! (base ++ [s])) as [[text|]|] eqn:E; [done| |].
    + apply IH.
    + intros Hrun. etrans; [|by eapply IH].
      intros k n Hk. rewrite lookup_insert_ne; [done|]. intros Heq. subst k.
      assert (None = Some n) by (etrans; [symmetry; exact E|exact Hk]). done.
Qed.

Lemma ensureDir_extends p : preserves extends (λ _, True) (ensureDir p).
Proof.
  unfold ensureDir.
  eapply preserves_bind; [apply _|apply preserves_attempt; apply _|].
  intros _ _ t. unfold mkdirs. rewrite !bind_eq. simpl.
  destruct (mkdirs_from [] p t) as [t'|e] eqn:E; simpl; [|done].
  split; [by eapply mkdirs_from_extends|done].
Qed.

Lemma copy_throws src dest t e : res (copy src dest t) = Throw e → fs (copy src dest t) = t.
Proof.
  rewrite copy_eq. destruct (faults OpCopy src); [done|].
  destruct (node_at t src) as [n|]; [|done]. case_decide; [done|].
  by destruct (result_bind _ _).
Qed.

(** A copy changes nothing but its destination and what lies below. *)
Lemma copy_keeps src dest k n :
  ¬ dest `prefix_of` k →
  preserves (stable (λ t, t !! k = Some n)) (λ _, True) (copy src dest).
Proof.
  intros Hk t. split; [|done]. intros Hn. rewrite copy_eq.
  destruct (faults OpCopy src); [done|].
  destruct (node_at t src) as [n0|]; [|done]. case_decide; [done|].
  destruct (mkdirs_from [] (Path.dirname dest) t) as [t1|e] eqn:E1; simpl; [|done].
  apply mkdirs_from_extends in E1. pose proof (E1 _ _ Hn) as Hn1.
  destruct (place dest n0 t1) as [t2|e] eqn:E2; simpl; [|done].
  assert (t2 !! k = Some n) as Hn2.
  { rewrite (place_other _ _ _ _ _ E2); [done|]. intros ->. by apply Hk. }
  destruct n0 as [text|]; simpl; [done|].
  destruct (place_all dest (entries_below src t) t2) as [t3|e] eqn:E3; simpl; [|done].
  rewrite (place_all_other _ _ _ _ _ E3); [done|].
  intros rel _ ->. apply Hk. by apply prefix_app_r.
Qed.

Lemma copy_file_lands src dest t raw :
  node_at t src = Some (File raw) → dest ≠ [] →
  res (copy src dest t) = Ok tt →
  fs (copy src dest t) !! dest = Some (File raw).
Proof.
  intros Hsrc Hdest. rewrite copy_eq, Hsrc.
  destruct (faults OpCopy src); [done|]. case_decide; [done|].
  destruct (mkdirs_from [] (Path.dirname dest) t) as [t1|e]; [|done].
  cbn -[place node_at].
  destruct (place dest (File raw) t1) as [t2|e] eqn:E; [|done].
  intros _. by eapply place_lookup.
Qed.

Section RootFiles.
Context (srcDocs out : path) (fname raw : string).
Hypothesis src_normal :
  ∀ file, Forall plain file → Path.join srcDocs file = srcDocs ++ file.
Hypothesis out_plain : Forall plain out.
Hypothesis apart : ¬ out `prefix_of` srcDocs ++ [fname].

(** The source document is there; so is its copy, once made. *)
Let source (t : gmap path node) : Prop := t !! (srcDocs ++ [fname]) = Some (File raw).
Let copied (t : gmap path node) : Prop :=
  source t ∧ t !! (out ++ [fname]) = Some (File raw).

Lemma ensureDir_source p : preserves (stable source) (λ _, True) (ensureDir p).
Proof.
  eapply preserves_sub; [|apply ensureDir_extends]. intros t t' H Hs. by apply H.
Qed.

Lemma ensureDir_copied p : preserves (stable copied) (λ _, True) (ensureDir p).
Proof.
  eapply preserves_sub; [|apply ensureDir_extends].
  intros t t' H [Hs Hc]. split; by apply H.
Qed.

Lemma copy_source file :
  Forall plain file →
  preserves (stable source) (λ _, True) (copy (Path.join srcDocs file) (Path.join out file)).
Proof.
  intros Hfile. rewrite src_normal, join_plain by done. apply copy_keeps.
  intros H. apply apart. etrans; [|exact H]. by apply prefix_app_r.
Qed.

Lemma copy_copied file :
  Forall plain file → file ≠ [] →
  preserves (stable copied) (λ _, True) (copy (Path.join srcDocs file) (Path.join out file)).
Proof.
  intros Hfile Hne t. split; [|done]. intros [Hs Hc].
  split; [by apply (copy_source file Hfile t)|].
  destruct (decide (file = [fname])) as [->|Hother].
  - rewrite src_normal, join_plain by done.
    destruct (res (copy (srcDocs ++ [fname]) (out ++ [fname]) t)) as [[]|e] eqn:E.
    + apply copy_file_lands; [|by destruct out|done].
      unfold source in Hs. by destruct srcDocs.
    + by rewrite (copy_throws _ _ _ e).
  - rewrite src_normal, join_plain by done.
    apply (copy_keeps (srcDocs ++ file) (out ++ file) (out ++ [fname]) (File raw)); [|done].
    intros [rest Hrest]. rewrite <- app_assoc in Hrest. apply app_inv_head in Hrest.
    destruct file as [|x file]; [done|]. simpl in Hrest. injection Hrest as <- Hrest.
    destruct file; [done|]. done.
Qed.

Lemma copy_root_files_lands t :
  Glob.visible fname = true → is_markdown fname = true →
  source t →
  res (copy_root_files srcDocs out t) = Ok tt →
  fs (copy_root_files srcDocs out t) !! (out ++ [fname]) = Some (File raw).
Proof.
  intros Hvis Hmd Hsrc Hrun. unfold copy_root_files in Hrun |- *.
  apply bind_ok in Hrun as ([] & _ & Hrun & -> & _).
  pose proof (proj1 (ensureDir_source out t) Hsrc) as Hsrc1.
  set (t1 := fs (ensureDir out t)) in *.
  apply bind_ok in Hrun as (files & Hglob & Hrun & -> & _).
  rewrite globby_fs in Hrun |- *.
  apply bind_ok in Hrun as ([] & Hfirst & Hrun & -> & _).
  pose proof (globby_plain _ _ _ _ tame_markdownPatterns Hglob) as Hplain.
  rewrite Forall_forall in Hplain.
  assert (∀ file, file ∈ files → file ≠ []) as Hnonempty.
  { intros file Hin. by apply (elem_of_globby _ _ _ _ _ Hglob) in Hin as (_ & _ & ? & _). }
  assert ([fname] ∈ files) as Hin.
  { apply (elem_of_globby _ _ _ _ _ Hglob).
    unfold is_markdown in Hmd. apply orb_prop in Hmd.
    exists raw, (if Str.ends_with ".md" fname then "*.md" else "*.mdx").
    split; [done|]. split; [done|]. split.
    { destruct (Str.ends_with ".md" fname); [by left|right; by left]. }
    assert (Glob.matches (Glob.parse (if Str.ends_with ".md" fname then "*.md" else "*.mdx"))
              [fname] = true) as Hm.
    { destruct (Str.ends_with ".md" fname) eqn:E.
      - change (Glob.parse "*.md") with [Glob.Star ".md"]. simpl. by rewrite Hvis, E.
      - destruct Hmd as [|Hmdx]; [done|].
        change (Glob.parse "*.mdx") with [Glob.Star ".mdx"]. simpl. by rewrite Hvis, Hmdx. }
    destruct (expand_cases t1 srcDocs (if Str.ends_with ".md" fname then "*.md" else "*.mdx"))
      as [-> | ->]; [done|by apply matches_snoc_globstar]. }
  apply list_elem_of_split in Hin as (l1 & l2 & Hsplit).
  assert (copied (fs (for_each files
                        (λ file, copy (Path.join srcDocs file) (Path.join out file)) t1)))
    as Hcopied.
  { revert Hfirst. rewrite Hsplit.
    rewrite for_each_app. intros Hfirst.
    apply bind_ok in Hfirst as ([] & Hl1 & Hrest & -> & _).
    assert (source (fs (for_each l1
                          (λ file, copy (Path.join srcDocs file) (Path.join out file)) t1)))
      as Hsrc2.
    { refine (proj1 (preserves_for_each (stable source) l1 _ _ t1) Hsrc1).
      intros file Hfile. apply copy_source, Hplain. rewrite Hsplit.
      apply elem_of_app. by left. }
    rewrite for_each_cons in Hrest |- *.
    apply bind_ok in Hrest as ([] & Hcopy & Hl2 & -> & _).
    refine (proj1 (preserves_for_each (stable copied) l2 _ _ _) _).
    { intros file Hfile.
      assert (file ∈ files) as Hfiles.
      { rewrite Hsplit. apply elem_of_app. right. by right. }
      apply copy_copied; [by apply Hplain|by apply Hnonempty]. }
    split.
    - by apply (copy_source [fname] ltac:(repeat constructor; by apply visible_plain) _).
    - revert Hcopy. rewrite src_normal, join_plain;
        [|done|repeat constructor; by apply visible_plain
         |repeat constructor; by apply visible_plain].
      apply copy_file_lands; [|by destruct out].
      unfold source in Hsrc2. by destruct srcDocs. }
  apply bind_ok in Hrun as (docs & Hglob2 & Hsecond & -> & _).
  rewrite globby_fs in Hsecond |- *.
  pose proof (globby_plain _ _ _ _ tame_docPatterns Hglob2) as Hplain2.
  rewrite Forall_forall in Hplain2.
  refine (proj2 (proj1 (preserves_for_each (stable copied) docs _ _ _) Hcopied)).
  intros file Hfile.
  eapply preserves_bind; [apply _|apply preserves_existsSync; apply _|].
  intros [] _; [|apply preserves_ret; [apply _|done]].
  eapply preserves_bind; [apply _|apply ensureDir_copied|intros _ _].
  apply copy_copied; [by apply Hplain2|].
  by apply (elem_of_globby _ _ _ _ _ Hglob2) in Hfile as (_ & _ & ? & _).
Qed.

End RootFiles.

Lemma process_repo_present_eq r name t :
  short_name r = Some name →
  is_Some (node_at t (srcDocs_of r)) →
  process_repo r t
  = ((if root_files r then copy_root_files (srcDocs_of r) (out_of name)
      else copy (srcDocs_of r) (out_of name)) ;;
     inject r (out_of name) ;; add_index r name (out_of name)) t.
Proof.
  intros Hname Hsrc. unfold process_repo. rewrite Hname.
  rewrite bind_eq, existsSync_eq. cbn [res fs console].
  rewrite bool_decide_true by done. cbn [negb app]. by rewrite outcome_eta.
Qed.

Lemma add_index_extends r name out t :
  Forall plain out →
  res (add_index r name out t) = Ok tt → extends t (fs (add_index r name out t)).
Proof.
  intros Hout. rewrite add_index_eq by done.
  destruct (bool_decide (is_Some (node_at t (out ++ ["index.md"]))) || _) eqn:Hhas;
    [by intros _ k n|].
  apply orb_false_elim in Hhas as [Hindex%bool_decide_eq_false _].
  destruct (GrayMatter.stringify _ _ _) as [text|e]; [|done].
  intros Hw. rewrite (writeFile_ok _ _ _ Hw).
  intros k n Hk. rewrite lookup_insert_ne; [done|].
  intros <-. apply Hindex. exists n. by destruct out.
Qed.

(** A markdown document at the top level of the convention root of a
    repository with root-level docs is copied and annotated. *)
Lemma root_document_lands r name t fname raw :
  short_name r = Some name →
  root_files r = true →
  ¬ out_of name `prefix_of` srcDocs_of r ++ [fname] →
  node_at t (srcDocs_of r) = Some Dir →
  t !! (srcDocs_of r ++ [fname]) = Some (File raw) →
  Glob.visible fname = true →
  is_markdown fname = true →
  res (process_repo r t) = Ok tt →
  ∃ text, annotate r fname raw = Ok text
          ∧ fs (process_repo r t) !! (out_of name ++ [fname]) = Some (File text).
Proof.
  intros Hname Hroot Hapart Hsrc Hraw Hvis Hmd.
  rewrite (process_repo_present_eq r name t Hname) by by rewrite Hsrc.
  rewrite Hroot.
  pose proof (out_of_plain r name Hname) as Hout.
  intros Hrun.
  apply bind_ok in Hrun as ([] & Hcopy & Hrun & -> & _).
  apply bind_ok in Hrun as ([] & Hinject & Hindex & -> & _).
  pose proof (copy_root_files_lands (srcDocs_of r) (out_of name) fname raw
                (λ file, join_join _ _ file) Hout Hapart t Hvis Hmd Hraw Hcopy) as Hlanded.
  destruct (inject_markdown r (out_of name) _ [] fname raw Hout Hinject Hlanded)
    as (text & Hann & Hfs); [done..|].
  exists text. split; [done|].
  by apply (add_index_extends r name (out_of name) _ Hout Hindex).
Qed.

(** A markdown document below a dedicated docs directory is copied and
    annotated. *)
Lemma dedicated_document_lands r name t dirs fname raw :
  short_name r = Some name →
  root_files r = false →
  node_at t (srcDocs_of r) = Some Dir →
  t !! (srcDocs_of r ++ dirs ++ [fname]) = Some (File raw) →
  Forall (λ x, Glob.visible x = true) dirs →
  Glob.visible fname = true →
  is_markdown fname = true →
  res (process_repo r t) = Ok tt →
  ∃ text, annotate r (Path.render (dirs ++ [fname])) raw = Ok text
          ∧ fs (process_repo r t) !! (out_of name ++ dirs ++ [fname]) = Some (File text).
Proof.
  intros Hname Hroot Hsrc Hraw Hdirs Hvis Hmd.
  rewrite (process_repo_present_eq r name t Hname) by by rewrite Hsrc.
  rewrite Hroot.
  pose proof (out_of_plain r name Hname) as Hout.
  intros Hrun.
  apply bind_ok in Hrun as ([] & Hcopy & Hrun & -> & _).
  apply bind_ok in Hrun as ([] & Hinject & Hindex & -> & _).
  pose proof (copy_directory (srcDocs_of r) (out_of name) t (dirs ++ [fname]) raw Hsrc
                ltac:(by destruct dirs) Hraw Hcopy) as Hlanded.
  destruct (inject_markdown r (out_of name) _ dirs fname raw Hout Hinject Hlanded)
    as (text & Hann & Hfs); [done..|].
  exists text. split; [done|].
  by apply (add_index_extends r name (out_of name) _ Hout Hindex).
Qed.

(** X12: a markdown document at the top level of a repository with
    root-level docs, whose convention root is a directory at a relative
    path, ends up, annotated, under the same name in the output
    directory of the repository. *)
Theorem root_document_annotated r name t fname raw :
  located r →
  short_name r = Some name →
  root_files r = true →
  ¬ out_of name `prefix_of` srcDocs_of r ++ [fname] →
  node_at t (srcDocs_of r) = Some Dir →
  t !! (srcDocs_of r ++ [fname]) = Some (File raw) →
  Glob.visible fname = true →
  is_markdown fname = true →
  res (process_repo r t) = Ok tt →
  ∃ text, annotate r fname raw = Ok text
          ∧ fs (process_repo r t) !! (out_of name ++ [fname]) = Some (File text).
Proof. intros _. apply root_document_lands. Qed.

(** X13: a markdown document anywhere below a dedicated docs directory,
    at a relative path, ends up, annotated, at the same relative path in
    the output directory of the repository. *)
Theorem dedicated_document_annotated r name t dirs fname raw :
  located r →
  short_name r = Some name →
  root_files r = false →
  node_at t (srcDocs_of r) = Some Dir →
  t !! (srcDocs_of r ++ dirs ++ [fname]) = Some (File raw) →
  Forall (λ x, Glob.visible x = true) dirs →
  Glob.visible fname = true →
  is_markdown fname = true →
  res (process_repo r t) = Ok tt →
  ∃ text, annotate r (Path.render (dirs ++ [fname])) raw = Ok text
          ∧ fs (process_repo r t) !! (out_of name ++ dirs ++ [fname]) = Some (File text).
Proof. intros _. apply dedicated_document_lands. Qed.

(** ** The test fixtures *)

#[local] Instance news_preorder P : PreOrder (news P).
Proof.
  split; [intros t k n H; by left|].
  intros t1 t2 t3 H12 H23 k n H. destruct (H23 k n H) as [H2|?]; [|by right].
  by apply H12.
Qed.

Lemma mkdirs_from_news base rest t t' :
  mkdirs_from base rest t = Ok t' → news (λ _ n, n = Dir) t t'.
Proof.
  revert base t. induction rest as [|s rest IH]; intros base t; simpl.
  - intros [= <-] k n H. by left.
  - destruct (t !! (base ++ [s])) as [[text|]|] eqn:E; [done| |].
    + apply IH.
    + intros Hrun. etrans; [|by eapply IH].
      intros k n Hk. destruct (decide (k = base ++ [s])) as [->|Hne].
      * rewrite lookup_insert_eq in Hk. right. congruence.
      * rewrite lookup_insert_ne in Hk by done. by left.
Qed.

Lemma no_orphans_below x t k :
  well_formed t → t !! [x] = None → strictly_below [x] k → t !! k = None.
Proof.
  intros Hwf Hroot [[rest ->] _]. induction rest as [|y rest IH] using rev_ind.
  - done.
  - destruct (t !! ([x] ++ rest ++ [y])) as [n|] eqn:E; [|done].
    apply Hwf in E. unfold Path.dirname in E.
    rewrite app_assoc, removelast_last in E.
    simpl in *. congruence.
Qed.

(** Emptying a directory at the top of the tree leaves nothing below
    it. *)
Lemma emptyDir_clears x t k :
  well_formed t →
  res (emptyDir [x] t) = Ok tt →
  strictly_below [x] k → fs (emptyDir [x] t) !! k = None.
Proof.
  intros Hwf Hrun Hk. revert Hrun. rewrite emptyDir_eq.
  destruct (faults OpEmptyDir [x]); [done|].
  change (node_at t [x]) with (t !! [x]).
  change (mkdirs_from [] [x] t)
    with (match t !! [x] with
          | None => Ok (<[[x] := Dir]> t)
          | Some Dir => Ok t
          | Some (File _) => Throw (FsError EEXIST OpEnsureDir [x])
          end).
  destruct (t !! [x]) as [[text|]|] eqn:Hroot; [done| |]; intros _; simpl.
  - apply (lookup_filter_drop (λ k, ¬ strictly_below [x] k)). intros H. by apply H.
  - rewrite lookup_insert_ne by (intros <-; by destruct Hk).
    by apply (no_orphans_below x).
Qed.

Lemma emptyDir_news p t : news (λ _ n, n = Dir) t (fs (emptyDir p t)).
Proof.
  rewrite emptyDir_eq. destruct (faults OpEmptyDir p); [done|].
  destruct (node_at t p) as [[text|]|] eqn:Hp.
  - destruct (mkdirs_from [] p t) as [t'|e] eqn:E; [|done].
    by apply (mkdirs_from_news [] p).
  - intros k n [H _]%map_lookup_filter_Some. by left.
  - destruct (mkdirs_from [] p t) as [t'|e] eqn:E; [|done].
    by apply (mkdirs_from_news [] p).
Qed.

Lemma writeFile_keeps p text k n :
  p ≠ k → preserves (stable (λ t, t !! k = Some n)) (λ _, True) (writeFile p text).
Proof.
  intros Hne t. split; [|done]. intros Hk.
  destruct (res (writeFile p text t)) as [[]|e] eqn:E.
  - rewrite (writeFile_ok _ _ _ E). by rewrite lookup_insert_ne.
  - revert E. unfold writeFile, attempt. destruct (faults OpWriteFile p); [done|].
    rewrite bind_eq. simpl.
    by destruct (node_at t p) as [[]|], (node_at t (Path.dirname p)) as [[]|].
Qed.

Section Fixtures.
Context (all : list (path * string)).

Let written (done : list (path * string)) (t : gmap path node) : Prop :=
  ∀ p text, (p, text) ∈ done → t !! p = Some (File text).

Let fixture (k : path) (n : node) : Prop :=
  match n with File text => (k, text) ∈ all | Dir => True end.

Lemma ensureDir_written done p :
  preserves (stable (written done)) (λ _, True) (ensureDir p).
Proof.
  eapply preserves_sub; [|apply ensureDir_extends].
  intros t t' H Hw q text Hin. by apply H, Hw.
Qed.

Lemma ensureDir_fixture p : preserves (news fixture) (λ _, True) (ensureDir p).
Proof.
  unfold ensureDir.
  eapply preserves_bind; [apply _|apply preserves_attempt; apply _|].
  intros _ _ t. unfold mkdirs. rewrite !bind_eq. simpl.
  destruct (mkdirs_from [] p t) as [t'|e] eqn:E; simpl; [|done].
  split; [|done]. intros k n Hk.
  destruct (mkdirs_from_news _ _ _ _ E k n Hk) as [?| ->]; [by left|by right].
Qed.

Lemma writeFile_fixture p text :
  (p, text) ∈ all → preserves (news fixture) (λ _, True) (writeFile p text).
Proof.
  intros Hin t. split; [|done].
  destruct (res (writeFile p text t)) as [[]|e] eqn:E.
  - rewrite (writeFile_ok _ _ _ E). intros k n Hk.
    destruct (decide (k = p)) as [->|Hne].
    + rewrite lookup_insert_eq in Hk. injection Hk as <-. by right.
    + rewrite lookup_insert_ne in Hk by done. by left.
  - revert E. unfold writeFile, attempt. destruct (faults OpWriteFile p).
    { intros _ k n H. by left. }
    rewrite bind_eq. simpl.
    destruct (node_at t p) as [[]|], (node_at t (Path.dirname p)) as [[]|]; try done;
      intros _ k n H; by left.
Qed.

(** The files of one repository, after those already [done]. *)
Lemma entries_written repo entries done t :
  NoDup (done ++ ((λ entry, (fullPath_of repo entry.1, entry.2)) <$> entries)).*1 →
  written done t →
  res (for_each entries (λ entry,
         ensureDir (Path.dirname (fullPath_of repo entry.1)) ;;
         writeFile (fullPath_of repo entry.1) entry.2) t) = Ok tt →
  written (done ++ ((λ entry, (fullPath_of repo entry.1, entry.2)) <$> entries))
    (fs (for_each entries (λ entry,
           ensureDir (Path.dirname (fullPath_of repo entry.1)) ;;
           writeFile (fullPath_of repo entry.1) entry.2) t)).
Proof.
  revert done t. induction entries as [|[file content] entries IH]; intros done t Hnd Hdone Hrun.
  - simpl. by rewrite app_nil_r.
  - rewrite for_each_cons in Hrun |- *. cbn [fst snd] in *.
    apply bind_ok in Hrun as ([] & Hfirst & Hrest & -> & _).
    apply bind_ok in Hfirst as ([] & Hdir & Hwrite & Hfs & _).
    assert (done ++ ((λ entry, (fullPath_of repo entry.1, entry.2))
                       <$> (file, content) :: entries)
            = (done ++ [(fullPath_of repo file, content)])
              ++ ((λ entry, (fullPath_of repo entry.1, entry.2)) <$> entries)) as Heq.
    { by rewrite fmap_cons, cons_middle, app_assoc. }
    rewrite Heq in Hnd |- *.
    apply IH; [done| |done].
    rewrite Hfs, (writeFile_ok _ _ _ Hwrite).
    intros p text [Hin|[= -> ->]%list_elem_of_singleton]%elem_of_app.
    + rewrite lookup_insert_ne.
      * by apply (proj1 (ensureDir_written done _ t) Hdone).
      * intros <-. rewrite !fmap_app in Hnd. apply NoDup_app in Hnd as [Hnd _].
        apply NoDup_app in Hnd as (_ & Hnd & _). apply (Hnd (fullPath_of repo file)).
        -- apply list_elem_of_fmap. by exists (fullPath_of repo file, text).
        -- by left.
    + by rewrite lookup_insert_eq.
Qed.

Lemma repos_written repos done t :
  NoDup (done ++ targets repos).*1 →
  written done t →
  res (for_each repos create_test_repo t) = Ok tt →
  written (done ++ targets repos) (fs (for_each repos create_test_repo t)).
Proof.
  revert done t. induction repos as [|repo repos IH]; intros done t Hnd Hdone Hrun.
  - unfold targets. simpl. by rewrite app_nil_r.
  - rewrite for_each_cons in Hrun |- *.
    apply bind_ok in Hrun as ([] & Hfirst & Hrest & -> & _).
    assert (done ++ targets (repo :: repos) = (done ++ targets_of repo) ++ targets repos)
      as Heq.
    { unfold targets. by rewrite bind_cons, app_assoc. }
    rewrite Heq in Hnd |- *.
    apply IH; [done| |done].
    unfold create_test_repo in Hfirst |- *.
    apply bind_ok in Hfirst as ([] & Hdir & Hfirst & -> & _).
    apply bind_ok in Hfirst as ([] & Hentries & _ & -> & _). cbn [say fs].
    apply entries_written; [|by apply (proj1 (ensureDir_written done _ t) Hdone)|done].
    rewrite fmap_app in Hnd. by apply NoDup_app in Hnd as [Hnd _].
Qed.

Lemma create_test_repo_fixture repo :
  (∀ entry, entry ∈ TestSources.structure repo → (fullPath_of repo entry.1, entry.2) ∈ all) →
  preserves (news fixture) (λ _, True) (create_test_repo repo).
Proof.
  intros Hin. unfold create_test_repo.
  eapply preserves_bind; [apply _|apply ensureDir_fixture|intros _ _].
  eapply preserves_bind; [apply _| |intros _ _; apply preserves_say; apply _].
  apply preserves_for_each; [apply _|]. intros entry Hentry.
  eapply preserves_bind; [apply _|apply ensureDir_fixture|intros _ _].
  by apply writeFile_fixture, Hin.
Qed.

End Fixtures.

Lemma create_test_repo_console repo t :
  res (create_test_repo repo t) = Ok tt →
  console (create_test_repo repo t) = [created repo].
Proof.
  unfold create_test_repo. intros Hrun.
  apply bind_ok in Hrun as ([] & _ & Hrun & _ & ->). rewrite silent_ensureDir.
  apply bind_ok in Hrun as ([] & _ & _ & _ & ->).
  rewrite silent_for_each; [done|].
  intros entry. apply silent_bind; [apply silent_ensureDir|]. intros _. apply silent_writeFile.
Qed.

Lemma create_loop_console repos t :
  res (for_each repos create_test_repo t) = Ok tt →
  console (for_each repos create_test_repo t) = created <$> repos.
Proof.
  revert t. induction repos as [|repo repos IH]; intros t Hrun; [done|].
  rewrite for_each_cons in Hrun |- *.
  apply bind_ok in Hrun as ([] & Hfirst & Hrest & _ & ->).
  by rewrite create_test_repo_console, IH.
Qed.

(** X14: when [setupTestSources] succeeds on a well-formed tree, for
    fixtures that name no path twice, every fixture is a file with its
    content, every file below [_sources] is a fixture (what was there
    before is gone), and the console has the opening line, one line per
    repository in the order of the table, and the closing line. *)
Theorem test_sources_created repos t :
  well_formed t →
  NoDup (targets repos).*1 →
  res (setupTestSources repos t) = Ok tt →
  (∀ p text, (p, text) ∈ targets repos →
     fs (setupTestSources repos t) !! p = Some (File text))
  ∧ (∀ k text, strictly_below sources_root k →
       fs (setupTestSources repos t) !! k = Some (File text) → (k, text) ∈ targets repos)
  ∧ console (setupTestSources repos t)
    = Log "Setting up test source directories..."
      :: (created <$> repos) ++ [Log "Test sources setup complete!"].
Proof.
  intros Hwf Hnd Hrun. unfold setupTestSources in Hrun |- *.
  change (Path.resolve TestSources.TEST_SOURCES_ROOT) with ["_sources"] in *.
  apply bind_ok in Hrun as ([] & _ & Hrun & -> & ->). cbn [say fs console] in Hrun |- *.
  apply bind_ok in Hrun as ([] & Hempty & Hrun & -> & ->).
  apply bind_ok in Hrun as ([] & Hloop & _ & -> & ->). cbn [say fs console].
  repeat split.
  - intros p text Hin.
    apply (repos_written repos [] (fs (emptyDir ["_sources"] t))); try done.
    by intros ? ? ?%elem_of_nil.
  - intros k text Hk Hfile.
    assert (preserves (news (λ k n, match n with
                                    | File text => (k, text) ∈ targets repos
                                    | Dir => True
                                    end)) (λ _, True) (for_each repos create_test_repo))
      as Hnews.
    { apply preserves_for_each; [apply _|]. intros repo Hrepo.
      apply create_test_repo_fixture. intros entry Hentry.
      unfold targets. apply list_elem_of_bind. exists repo. split; [|done].
      apply list_elem_of_fmap. by exists entry. }
    destruct (proj1 (Hnews (fs (emptyDir ["_sources"] t))) k (File text) Hfile) as [Hold|?];
      [|done].
    by rewrite (emptyDir_clears "_sources" t k) in Hold.
  - rewrite silent_emptyDir, create_loop_console by done. done.
Qed.

(** ** The filter of [syncLocalRepos] *)

Lemma prefix_append n a b : String.prefix n a = true → String.prefix n (a +:+ b) = true.
Proof.
  revert a. induction n as [|x n IH]; intros a; [intros _; by destruct (a +:+ b)|].
  destruct a as [|y a]; [by cbn|]. rewrite append_cons. cbn [String.prefix].
  destruct (ascii_dec x y); [apply IH|done].
Qed.

Lemma index_of_unfold n s :
  Str.index_of n s
  = if String.prefix n s then Some 0
    else match s with
         | EmptyString => None
         | String _ s' => S <$> Str.index_of n s'
         end.
Proof. by destruct s. Qed.

Lemma index_of_app_l n a b :
  is_Some (Str.index_of n a) → is_Some (Str.index_of n (a +:+ b)).
Proof.
  induction a as [|x a IH].
  - rewrite index_of_unfold. destruct (String.prefix n "") eqn:E; [|by intros [? ?]].
    intros _. rewrite index_of_unfold, (prefix_append _ _ _ E). by eexists.
  - rewrite index_of_unfold, (index_of_unfold n (String x a +:+ b)).
    destruct (String.prefix n (String x a)) eqn:E.
    + intros _. rewrite (prefix_append _ _ _ E). by eexists.
    + intros H. destruct (String.prefix n (String x a +:+ b)); [by eexists|].
      rewrite append_cons. apply fmap_is_Some. apply IH. by apply fmap_is_Some in H.
Qed.

Lemma index_of_app_r n a b :
  is_Some (Str.index_of n b) → is_Some (Str.index_of n (a +:+ b)).
Proof.
  intros H. induction a as [|x a IH]; [done|].
  rewrite index_of_unfold. destruct (String.prefix n (String x a +:+ b)); [by eexists|].
  rewrite append_cons. by apply fmap_is_Some.
Qed.

Lemma includes_app n a b c :
  Str.includes n b = true → Str.includes n (a +:+ b +:+ c) = true.
Proof.
  unfold Str.includes. intros H%bool_decide_eq_true. apply bool_decide_eq_true.
  by apply index_of_app_r, index_of_app_l.
Qed.

Lemma filter_refuses relativePath :
  SyncLocal.filter relativePath = false
  ↔ ∃ s, s ∈ ["node_modules"; ".git"; "build"; "dist"; "coverage"; ".next"; "ios/Pods";
               "android/.gradle"]
         ∧ Str.includes s relativePath = true.
Proof.
  unfold SyncLocal.filter.
  destruct (Str.includes "node_modules" relativePath) eqn:E1;
    [split; [intros _; exists "node_modules"; split; [repeat constructor|exact E1]|done]|].
  destruct (Str.includes ".git" relativePath) eqn:E2;
    [split; [intros _; exists ".git"; split; [repeat constructor|exact E2]|done]|].
  destruct (Str.includes "build" relativePath) eqn:E3;
    [split; [intros _; exists "build"; split; [repeat constructor|exact E3]|done]|].
  destruct (Str.includes "dist" relativePath) eqn:E4;
    [split; [intros _; exists "dist"; split; [repeat constructor|exact E4]|done]|].
  destruct (Str.includes "coverage" relativePath) eqn:E5;
    [split; [intros _; exists "coverage"; split; [repeat constructor|exact E5]|done]|].
  destruct (Str.includes ".next" relativePath) eqn:E6;
    [split; [intros _; exists ".next"; split; [repeat constructor|exact E6]|done]|].
  destruct (Str.includes "ios/Pods" relativePath) eqn:E7;
    [split; [intros _; exists "ios/Pods"; split; [repeat constructor|exact E7]|done]|].
  destruct (Str.includes "android/.gradle" relativePath) eqn:E8;
    [split; [intros _; exists "android/.gradle"; split; [repeat constructor|exact E8]|done]|].
  split; [done|].
  intros (s & Hin & Hs).
  repeat (apply elem_of_cons in Hin as [->|Hin]; [congruence|]).
  by apply elem_of_nil in Hin.
Qed.

Lemma filter_closed a b c :
  SyncLocal.filter b = false → SyncLocal.filter (a +:+ b +:+ c) = false.
Proof.
  rewrite !filter_refuses. intros (s & Hin & Hs). exists s. split; [done|].
  by apply includes_app.
Qed.

Lemma filter_closed_r b c :
  SyncLocal.filter b = false → SyncLocal.filter (b +:+ c) = false.
Proof. exact (filter_closed "" b c). Qed.

Lemma ancestors_spec q rel : q ∈ ancestors rel ↔ q ≠ [] ∧ q `prefix_of` rel.
Proof.
  revert q. induction rel as [|x rel IH]; intros q; simpl.
  - split; [by intros ?%elem_of_nil|]. intros [Hq [rest Hrest]]. by destruct q.
  - rewrite elem_of_cons, list_elem_of_fmap. split.
    + intros [->|(q' & -> & [Hq' Hpre]%IH)].
      * split; [done|]. by apply prefix_cons, prefix_nil.
      * split; [done|]. by apply prefix_cons.
    + intros [Hq [rest Hrest]]. destruct q as [|y q]; [done|].
      simpl in Hrest. injection Hrest as <- ->.
      destruct q as [|z q]; [by left|]. right. exists (z :: q). split; [done|].
      apply IH. split; [done|]. by exists rest.
Qed.

(** What the filter refuses, it refuses with everything below: the
    directories that the copy skips hide nothing the filter would have
    accepted. *)
Lemma reached_filter rel :
  rel ≠ [] → reached SyncLocal.filter rel = SyncLocal.filter (Path.render rel).
Proof.
  intros Hrel. unfold reached.
  destruct (SyncLocal.filter (Path.render rel)) eqn:E.
  - apply forallb_forall. intros q [Hq [rest ->]]%list_elem_of_In%ancestors_spec.
    destruct (SyncLocal.filter (Path.render q)) eqn:Eq; [done|].
    destruct rest as [|y rest]; [by rewrite app_nil_r, Eq in E|].
    rewrite render_app in E by done.
    pose proof (filter_closed_r (Path.render q) ("/" +:+ Path.render (y :: rest)) Eq) as H.
    congruence.
  - apply not_true_iff_false. intros H. rewrite forallb_forall in H.
    rewrite (H rel) in E; [done|].
    apply list_elem_of_In, ancestors_spec. by split.
Qed.

(** X15: the filter of [syncLocalRepos] refuses a path as soon as one of
    its eight words occurs anywhere in it, as part of a name or across
    a separator, so that [.github], [.gitignore] or [docs/rebuild.md]
    are refused like [.git] and [build]; and what it refuses it refuses
    with every path that extends it, so that skipping a refused
    directory loses nothing the filter would accept. *)
Theorem sync_filter_closed relativePath :
  (SyncLocal.filter relativePath = false
   ↔ ∃ s, s ∈ ["node_modules"; ".git"; "build"; "dist"; "coverage"; ".next"; "ios/Pods";
                "android/.gradle"]
          ∧ Str.includes s relativePath = true)
  ∧ (∀ before after,
       SyncLocal.filter relativePath = false →
       SyncLocal.filter (before +:+ relativePath +:+ after) = false)
  ∧ (∀ rel, rel ≠ [] → reached SyncLocal.filter rel = SyncLocal.filter (Path.render rel)).
Proof.
  split; [apply filter_refuses|]. split; [|apply reached_filter].
  intros before after. apply filter_closed.
Qed.

(** *** The copy of a clone *)

Section SyncProps.

Context (process_cwd : string) (execSync : string → path → option string).

Lemma copy_with_eq keep src dest t :
  copy_with keep src dest t
  = match faults OpCopy src with
    | Some code => Outcome (Throw (FsError code OpCopy src)) t []
    | None =>
        match node_at t src with
        | None => Outcome (Throw (FsError ENOENT OpCopy src)) t []
        | Some n =>
            if decide (src `prefix_of` dest)
            then Outcome (Throw (FsError EINVAL OpCopy dest)) t []
            else if negb (keep (Path.render [])) then Outcome (Ok tt) t []
            else
              match
                result_bind (mkdirs_from [] (Path.dirname dest) t) (λ t1,
                result_bind (place dest n t1) (λ t2,
                  match n with
                  | Dir => place_all dest
                             (filter (λ e, reached keep e.1) (entries_below src t)) t2
                  | File _ => Ok t2
                  end))
              with
              | Ok t3 => Outcome (Ok tt) t3 []
              | Throw e => Outcome (Throw e) t []
              end
        end
    end.
Proof.
  unfold copy_with, attempt, mbind, M_bind, bind, get_tree, put_tree, lift.
  destruct (faults OpCopy src); [done|].
  cbn -[place place_all mkdirs_from node_at Path.render reached].
  destruct (node_at t src) as [n|]; [|done]. case_decide; [done|].
  destruct (keep (Path.render [])); [|done].
  cbn -[place place_all mkdirs_from node_at Path.render reached].
  destruct (mkdirs_from [] (Path.dirname dest) t) as [t1|e];
    cbn -[place place_all mkdirs_from node_at Path.render reached]; [|done].
  destruct (place dest n t1) as [t2|e]; cbn -[place place_all mkdirs_from node_at Path.render reached]; [|done].
  by destruct n; [|destruct (place_all dest _ t2)].
Qed.

Lemma git_report_fs name p t :
  fs (git_report execSync name p t) = t ∧ res (git_report execSync name p t) = Ok tt.
Proof.
  unfold git_report.
  destruct (execSync "git status --porcelain" p) as [status|]; [|done].
  destruct (execSync "git branch --show-current" p) as [current|]; [|done].
  rewrite bind_eq. simpl. by destruct (String.eqb _ _).
Qed.

Lemma sync_repo_present r name t :
  SyncLocal.short_name r = Some name →
  is_Some (node_at t (Path.resolve (SyncLocal.localSource r))) →
  fs (sync_repo process_cwd execSync r t)
  = fs (copy_with SyncLocal.filter (Path.resolve (SyncLocal.localSource r)) (destPath_of name) t)
  ∧ res (sync_repo process_cwd execSync r t)
    = res (copy_with SyncLocal.filter (Path.resolve (SyncLocal.localSource r))
             (destPath_of name) t).
Proof.
  intros Hname Hsrc. unfold sync_repo. rewrite Hname.
  rewrite bind_eq. unfold pathExists. rewrite existsSync_eq. cbn [res fs console].
  rewrite bool_decide_eq_true_2 by done. cbn [negb].
  rewrite bind_eq. destruct (git_report_fs name (Path.resolve (SyncLocal.localSource r)) t)
    as [Hfs Hres]. rewrite Hres, Hfs.
  rewrite bind_eq.
  by destruct (res (copy_with _ _ _ t)) as [[]|e].
Qed.

(** X16: a clone that is there is copied into its directory below
    [_sources] entry by entry: every entry of the clone whose relative
    path the filter accepts arrives, a path the filter refuses is left
    as the destination had it, and nothing changes outside the
    destination and the directories that lead to it. *)
Theorem clone_copied r name t :
  SyncLocal.short_name r = Some name →
  node_at t (Path.resolve (SyncLocal.localSource r)) = Some Dir →
  res (sync_repo process_cwd execSync r t) = Ok tt →
  (∀ rel n,
     rel ≠ [] → SyncLocal.filter (Path.render rel) = true →
     t !! (Path.resolve (SyncLocal.localSource r) ++ rel) = Some n →
     fs (sync_repo process_cwd execSync r t) !! (destPath_of name ++ rel) = Some n)
  ∧ (∀ rel,
       rel ≠ [] → SyncLocal.filter (Path.render rel) = false →
       fs (sync_repo process_cwd execSync r t) !! (destPath_of name ++ rel)
       = t !! (destPath_of name ++ rel))
  ∧ (∀ k,
       ¬ k `prefix_of` destPath_of name → ¬ destPath_of name `prefix_of` k →
       fs (sync_repo process_cwd execSync r t) !! k = t !! k).
Proof.
  intros Hname Hsrc.
  destruct (sync_repo_present r name t Hname) as [-> ->]; [by rewrite Hsrc|].
  set (src := Path.resolve (SyncLocal.localSource r)) in *.
  set (dest := destPath_of name). clearbody src dest.
  rewrite copy_with_eq, Hsrc.
  destruct (faults OpCopy src); [done|]. case_decide; [done|].
  change (SyncLocal.filter (Path.render [])) with true. cbn [negb].
  destruct (mkdirs_from [] (Path.dirname dest) t) as [t1|e] eqn:E1; [|by intros [=]].
  cbn -[place place_all node_at reached].
  destruct (place dest Dir t1) as [t2|e] eqn:E2; [|by intros [=]].
  cbn -[place place_all node_at reached].
  destruct (place_all dest _ t2) as [t3|e] eqn:E3; [|by intros [=]].
  intros _. cbn [fs].
  assert (∀ k, ¬ k `prefix_of` dest → t2 !! k = t !! k) as Habove.
  { intros k Hk.
    destruct (place_within (λ k, k `prefix_of` dest) dest Dir t1 t2 E2) as [_ H2]; [done|].
    destruct (mkdirs_from_within (λ k, k `prefix_of` dest) [] (Path.dirname dest) t t1 E1)
      as [_ H1].
    { intros k' _ _ Hk'. by apply prefix_of_dirname. }
    by rewrite H2, H1. }
  assert (∀ rel, rel ≠ [] → ¬ dest ++ rel `prefix_of` dest) as Hbelow.
  { intros rel Hrel Hpre%prefix_length. rewrite length_app in Hpre.
    destruct rel; [done|]. simpl in Hpre. lia. }
  split; [|split].
  - intros rel n Hrel Hkeep Hlook.
    eapply place_all_lookup; [exact E3| | |done].
    + intros rel' n1 n2 [_ [_ H1]%elem_of_entries_below]%list_elem_of_filter
        [_ [_ H2]%elem_of_entries_below]%list_elem_of_filter. congruence.
    + apply list_elem_of_filter. split.
      * cbn [fst]. rewrite reached_filter by done. by rewrite Hkeep.
      * by apply elem_of_entries_below.
  - intros rel Hrel Hrefused.
    rewrite (place_all_other _ _ _ _ _ E3); [by apply Habove, Hbelow|].
    intros rel' ([rel'' n] & -> & [Hreached [Hne _]%elem_of_entries_below]%list_elem_of_filter)
      %list_elem_of_fmap Heq.
    apply app_inv_head in Heq. cbn [fst] in Heq, Hreached. subst rel''.
    rewrite reached_filter in Hreached by done. by rewrite Hrefused in Hreached.
  - intros k Hup Hdown.
    rewrite (place_all_other _ _ _ _ _ E3); [by apply Habove|].
    intros rel _ ->. apply Hdown. by apply prefix_app_r.
Qed.

End SyncProps.

(** ** The turn of a repository in a run *)

Lemma below_out_root_app p rel : below_out_root p → below_out_root (p ++ rel).
Proof. intros [rest ->]. exists (rest ++ rel). by rewrite app_assoc. Qed.

(** When the turn of a repository comes, what lies outside the output
    root is as the run found it. *)
Lemma before_turn before t k :
  Forall (λ r, short_name r ≠ Some "..") before →
  ¬ below_out_root k →
  fs (for_each before process_repo (fs (emptyDir out_root t))) !! k = t !! k.
Proof.
  intros Hnames Hk.
  destruct (preserves_repos below_out_root before) with (t := fs (emptyDir out_root t))
    as [[_ Hf] _].
  { intros r name rel Hr Hname. apply (out_below_root r); [done|].
    rewrite Forall_forall in Hnames. intros ->. by apply (Hnames r). }
  rewrite Hf by done. by apply emptyDir_outside.
Qed.

(** A successful run, seen from the turn of one repository. *)
Lemma run_turn before r after t :
  res (run (before ++ r :: after) t) = Ok tt →
  res (emptyDir out_root t) = Ok tt
  ∧ res (for_each before process_repo (fs (emptyDir out_root t))) = Ok tt
  ∧ res (process_repo r (fs (for_each before process_repo (fs (emptyDir out_root t)))))
    = Ok tt
  ∧ res (for_each after process_repo
           (fs (process_repo r
                  (fs (for_each before process_repo (fs (emptyDir out_root t)))))))
    = Ok tt
  ∧ fs (run (before ++ r :: after) t)
    = fs (for_each after process_repo
            (fs (process_repo r
                   (fs (for_each before process_repo (fs (emptyDir out_root t))))))).
Proof.
  intros (H0 & Hloop & -> & _)%run_ok_inv.
  rewrite for_each_app in Hloop |- *.
  apply bind_ok in Hloop as ([] & Hbefore & Hrest & -> & _).
  rewrite for_each_cons in Hrest |- *.
  apply bind_ok in Hrest as ([] & Hr & Hafter & -> & _).
  done.
Qed.

Lemma out_of_proper r name :
  short_name r = Some name → plain name → out_of name = ["projects"; name].
Proof.
  intros Hname Hplain.
  destruct (out_of_cases r name Hname) as [[-> _]|[E|[_ E]]]; [| |done].
  { by destruct Hplain as (_ & _ & ?). }
  exfalso. revert E. unfold out_of, Path.of_string.
  rewrite (split_on_absent _ name) by by eapply short_name_no_slash.
  change (Str.split_on Str.slash OUT_ROOT) with ["projects"].
  unfold Path.join, Path.normalize_segs. simpl.
  destruct Hplain as (H1 & H2 & H3).
  rewrite decide_False by (intros [|]; done). by rewrite decide_False.
Qed.

(** Repositories with output directories of their own leave the output
    directory of another alone. *)
Lemma foreign_output r name others rel :
  short_name r = Some name → plain name →
  Forall (λ r', ∃ name', short_name r' = Some name' ∧ plain name') others →
  short_name r ∉ short_name <$> others →
  ¬ output_of others (out_of name ++ rel).
Proof.
  intros Hname Hplain Hall Hfresh.
  rewrite (out_of_proper r name Hname Hplain).
  intros [Hroot|(r' & name' & Hr' & Hname' & Hpre)]; [done|].
  rewrite Forall_forall in Hall. destruct (Hall r' Hr') as (name1 & Hname1 & Hplain').
  assert (name1 = name') as -> by congruence.
  rewrite (out_of_proper r' name' Hname' Hplain') in Hpre.
  destruct Hpre as [rest Hrest]. simpl in Hrest. injection Hrest as <- _.
  apply Hfresh. apply list_elem_of_fmap. exists r'. split; [congruence|done].
Qed.

Lemma after_turn after t k :
  ¬ output_of after k →
  fs (for_each after process_repo t) !! k = t !! k.
Proof.
  intros Hk.
  assert (preserves (within (output_of after)) (λ _, True) (for_each after process_repo))
    as Hloop.
  { apply preserves_for_each; [apply _|]. intros r Hr.
    apply sheltered_process_repo; [apply _|].
    intros name rel Hname. right. exists r, name. split; [done|]. split; [done|].
    by apply prefix_app_r. }
  destruct (Hloop t) as [[_ Hf] _]. by apply Hf.
Qed.

(** A document of a repository is copied and annotated at its turn. *)
Lemma process_document r name t rel raw :
  short_name r = Some name → plain name →
  document_of t r rel raw →
  res (process_repo r t) = Ok tt →
  ∃ text, annotate r (Path.render rel) raw = Ok text
          ∧ fs (process_repo r t) !! (out_of name ++ rel) = Some (File text).
Proof.
  intros Hname Hplain (Hsrc & Hraw & Hout & dirs & fname & -> & Hdirs & Hvis & Hmd & Htop) Hrun.
  destruct (root_files r) eqn:Hroot.
  - rewrite (Htop eq_refl) in *. cbn [app] in *.
    change (Path.render [fname]) with fname.
    apply (root_document_lands r name t fname raw); try done.
    intros Hpre. apply Hout.
    rewrite (out_of_proper r name Hname Hplain) in Hpre.
    destruct Hpre as [rest Hrest]. exists (name :: rest). by rewrite Hrest.
  - by apply (dedicated_document_lands r name t dirs fname raw).
Qed.

Lemma document_of_outside t t' r rel raw :
  (∀ k, ¬ below_out_root k → t' !! k = t !! k) →
  document_of t r rel raw → document_of t' r rel raw.
Proof.
  intros Hsame (Hsrc & Hraw & Hout & Hrel).
  assert (¬ below_out_root (srcDocs_of r)) as Hroot.
  { intros H. by apply Hout, below_out_root_app. }
  split; [by rewrite (node_at_outside t t')|].
  split; [by rewrite Hsame|]. done.
Qed.

(** After a successful run, every document of a repository stands
    annotated in the output directory of the repository. *)
Lemma run_document repos t r name rel raw :
  distinct_outputs repos →
  r ∈ repos → short_name r = Some name →
  document_of t r rel raw →
  res (run repos t) = Ok tt →
  ∃ text, annotate r (Path.render rel) raw = Ok text
          ∧ fs (run repos t) !! (out_of name ++ rel) = Some (File text).
Proof.
  intros [Hnd Hall] Hin Hname Hdoc Hrun.
  apply list_elem_of_split in Hin as (before & after & ->).
  destruct (run_turn before r after t Hrun) as (H0 & Hbefore & Hr & Hafter & ->).
  apply Forall_app in Hall as [Hall1 Hall2].
  pose proof Hall2 as Hall2'. apply Forall_cons in Hall2' as [(name0 & Hname0 & Hplain) _].
  assert (name0 = name) as -> by congruence.
  set (t1 := fs (for_each before process_repo (fs (emptyDir out_root t)))) in *.
  assert (document_of t1 r rel raw) as Hdoc1.
  { apply (document_of_outside t); [|done]. intros k Hk. apply before_turn; [|done].
    eapply Forall_impl; [exact Hall1|]. intros r' (n & Hn & Hp) E.
    rewrite Hn in E. injection E as ->. by destruct Hp as (_ & _ & ?). }
  destruct (process_document r name t1 rel raw Hname Hplain Hdoc1 Hr) as (text & Hann & Hfs).
  exists text. split; [done|].
  rewrite after_turn; [done|].
  apply Forall_cons in Hall2 as [_ Hall2].
  apply (foreign_output r); [done|done|done|].
  rewrite fmap_app, fmap_cons in Hnd.
  apply NoDup_app in Hnd as (_ & _ & Hnd). by apply NoDup_cons in Hnd as [? _].
Qed.


(** ** A missing convention root *)

(** The run over a table with a repository whose convention root is
    missing, against the run over the table without it. *)
Lemma run_skip before r after name t :
  short_name r = Some name →
  Forall (λ r, short_name r ≠ Some "..") before →
  ¬ below_out_root (srcDocs_of r) →
  node_at t (srcDocs_of r) = None →
  res (run (before ++ r :: after) t) = res (run (before ++ after) t)
  ∧ fs (run (before ++ r :: after) t) = fs (run (before ++ after) t)
  ∧ (res (emptyDir out_root t) = Ok tt →
     res (for_each before process_repo (fs (emptyDir out_root t))) = Ok tt →
     ∃ rest,
       console (run (before ++ after) t)
       = console (emptyDir out_root t)
         ++ console (for_each before process_repo (fs (emptyDir out_root t))) ++ rest
       ∧ console (run (before ++ r :: after) t)
         = console (emptyDir out_root t)
           ++ console (for_each before process_repo (fs (emptyDir out_root t)))
           ++ skip_warning r :: rest).
Proof.
  intros Hname Hnames Hout Hmiss.
  unfold run. change (Path.resolve OUT_ROOT) with out_root.
  rewrite !(bind_eq (emptyDir out_root)).
  destruct (res (emptyDir out_root t)) as [[]|e] eqn:H0; [|done].
  cbn [res fs console]. rewrite !(bind_eq (for_each _ _)), !for_each_app, !bind_eq.
  set (t0 := fs (emptyDir out_root t)).
  destruct (res (for_each before process_repo t0)) as [[]|e] eqn:Hbefore; [|done].
  set (t1 := fs (for_each before process_repo t0)).
  assert (node_at t1 (srcDocs_of r) = None) as Hmiss1.
  { rewrite <- Hmiss. apply node_at_outside; [|done].
    intros k Hk. by apply before_turn. }
  rewrite for_each_cons, bind_eq, (process_repo_missing r name t1 Hname Hmiss1).
  cbn [res fs console].
  destruct (res (for_each after process_repo t1)) as [[]|e] eqn:Hafter; cbn [res fs console].
  - split; [done|]. split; [done|]. intros _ _.
    exists (console (for_each after process_repo t1) ++ [Log "Aggregation complete."]).
    split; by rewrite <- ?(assoc_L (++)).
  - split; [done|]. split; [done|]. intros _ _.
    exists (console (for_each after process_repo t1)).
    split; by rewrite <- ?(assoc_L (++)).
Qed.

(** C6: a repository whose convention root, a relative path outside the
    output root, is missing when the run starts changes the run in one
    thing only: its warning, written once when its turn comes.  The
    result, the exit status and the tree are those of the run over the
    table without it.  After a successful run over repositories with
    output directories of their own, nothing stands in the output
    directory of the missing one, and every document of every other
    repository stands annotated in the output directory of its
    repository. *)
Theorem missing_source_skipped env before r after name t :
  located r →
  short_name r = Some name →
  Forall (λ r, short_name r ≠ Some "..") before →
  ¬ below_out_root (srcDocs_of r) →
  node_at t (srcDocs_of r) = None →
  res (run (before ++ r :: after) t) = res (run (before ++ after) t)
  ∧ fs (run (before ++ r :: after) t) = fs (run (before ++ after) t)
  ∧ (main env (before ++ r :: after) t).1 = (main env (before ++ after) t).1
  ∧ (res (emptyDir out_root t) = Ok tt →
     res (for_each before process_repo (fs (emptyDir out_root t))) = Ok tt →
     ∃ rest,
       console (run (before ++ after) t)
       = console (emptyDir out_root t)
         ++ console (for_each before process_repo (fs (emptyDir out_root t))) ++ rest
       ∧ console (run (before ++ r :: after) t)
         = console (emptyDir out_root t)
           ++ console (for_each before process_repo (fs (emptyDir out_root t)))
           ++ Warn ("[skip] " +:+ repo r +:+ " has no "
                    +:+ Path.posix_join (local r) (default "docs" (docsDir r)))
              :: rest)
  ∧ (well_formed t →
     distinct_outputs (before ++ r :: after) →
     res (run (before ++ r :: after) t) = Ok tt →
     (∀ rel, fs (run (before ++ r :: after) t) !! (out_of name ++ rel) = None)
     ∧ ∀ r' name' rel raw,
         r' ∈ before ++ after →
         short_name r' = Some name' →
         document_of t r' rel raw →
         ∃ text,
           annotate r' (Path.render rel) raw = Ok text
           ∧ fs (run (before ++ r :: after) t) !! (out_of name' ++ rel) = Some (File text)).
Proof.
  intros _ Hname Hnames Hout Hmiss.
  destruct (run_skip before r after name t Hname Hnames Hout Hmiss) as (Hres & Hfs & Hcon).
  split; [done|]. split; [done|]. split.
  { unfold main. cbv zeta. rewrite Hres. by destruct (res (run (before ++ after) t)). }
  split; [done|].
  intros Hwf [Hnd Hall] Hrun.
  apply Forall_app in Hall as [Hall1 Hall2].
  apply Forall_cons in Hall2 as [(name0 & Hname0 & Hplain) Hall2].
  assert (name0 = name) as -> by congruence.
  rewrite fmap_app, fmap_cons in Hnd.
  assert (short_name r ∉ short_name <$> (before ++ after)) as Hfresh.
  { rewrite fmap_app. intros [Hin|Hin]%elem_of_app.
    - apply NoDup_app in Hnd as (_ & Hdisj & _). apply (Hdisj _ Hin). by left.
    - apply NoDup_app in Hnd as (_ & _ & Hnd). by apply NoDup_cons in Hnd as [? _]. }
  assert (distinct_outputs (before ++ after)) as Hdistinct.
  { split; [|by apply Forall_app].
    rewrite fmap_app. apply NoDup_app in Hnd as (Hnd1 & Hdisj & Hnd2).
    apply NoDup_cons in Hnd2 as [_ Hnd2]. apply NoDup_app. repeat split; [done| |done].
    intros x Hx Hx'. apply (Hdisj x Hx). by right. }
  rewrite Hres in Hrun. rewrite Hfs. split.
  - intros rel. apply run_isolates; [done|done| |].
    + rewrite (out_of_proper r name Hname Hplain). by exists (name :: rel).
    + apply (foreign_output r); [done|done|by apply Forall_app|done].
  - intros r' name' rel raw Hin Hname' Hdoc.
    by apply (run_document (before ++ after) t r' name' rel raw).
Qed.

(** ** Documents with a front-matter block *)

Lemma length_append (a b : string) :
  String.length (a +:+ b) = String.length a + String.length b.
Proof. induction a as [|x a IH]; simpl; [done|]. by rewrite IH. Qed.

Lemma take_append (a b : string) : Str.take (String.length a) (a +:+ b) = a.
Proof. induction a as [|x a IH]; simpl; [by destruct b|]. by rewrite IH. Qed.

Lemma drop_append (a b : string) : Str.drop (String.length a) (a +:+ b) = b.
Proof. induction a as [|x a IH]; simpl; [done|]. by rewrite IH. Qed.

Lemma starts_with_append (p s : string) : Str.starts_with p (p +:+ s) = true.
Proof.
  unfold Str.starts_with. induction p as [|x p IH]; [by destruct s|].
  rewrite append_cons. cbn [String.prefix]. by destruct (ascii_dec x x).
Qed.

Lemma search_newline_line lang x :
  Str.contains (ascii_of_nat 10) lang = false →
  Str.contains (ascii_of_nat 13) lang = false →
  GrayMatter.search_newline (lang +:+ Str.LF +:+ x) = Some (String.length lang).
Proof.
  induction lang as [|a lang IH]; [done|].
  cbn [Str.contains]. intros [Ha Hl]%orb_false_elim [Ha' Hl']%orb_false_elim.
  rewrite append_cons. cbn [GrayMatter.search_newline]. rewrite Ha, Ha'.
  cbn [andb]. by rewrite IH.
Qed.

(** A needle that starts with [c] is not found in what is free of [c]. *)
Lemma index_of_skip c n a s :
  Str.contains c a = false →
  Str.index_of (String c n) (a +:+ s)
  = (λ i, String.length a + i) <$> Str.index_of (String c n) s.
Proof.
  induction a as [|x a IH].
  - intros _. change ("" +:+ s) with s. by destruct (Str.index_of (String c n) s).
  - cbn [Str.contains]. intros [Hx Ha]%orb_false_elim.
    rewrite append_cons, index_of_unfold. cbn [String.prefix].
    destruct (ascii_dec c x) as [->|_]; [by rewrite Ascii.eqb_refl in Hx|].
    rewrite IH by done. by destruct (Str.index_of (String c n) s).
Qed.

Lemma prefix_dashes line x :
  Str.starts_with "---" line = false →
  String.prefix "---" (line +:+ String (ascii_of_nat 10) x) = false.
Proof.
  unfold Str.starts_with. intros H.
  destruct line as [|a [|b [|c line]]];
    rewrite ?append_cons; change ("" +:+ ?y) with y; cbn [String.prefix] in *;
    repeat match goal with
           | H : context [ascii_dec ?a ?b] |- _ =>
               destruct (ascii_dec a b); try discriminate; subst
           | |- context [ascii_dec ?a ?b] =>
               destruct (ascii_dec a b); try discriminate; subst
           end; try done.
  by destruct line.
Qed.

(** The closing delimiter is found where the block ends. *)
Lemma index_of_close lines rest :
  lines ≠ [] →
  Forall (λ line, Str.contains (ascii_of_nat 10) line = false) lines →
  Forall (λ line, Str.starts_with "---" line = false) lines →
  Str.index_of (Str.LF +:+ "---")
    (Str.LF +:+ Str.join_with Str.LF lines +:+ Str.LF +:+ "---" +:+ rest)
  = Some (S (String.length (Str.join_with Str.LF lines))).
Proof.
  intros Hne Hfree Hlines. induction lines as [|line lines IH]; [done|].
  apply Forall_cons in Hfree as [Hfree1 Hfree]. apply Forall_cons in Hlines as [Hline Hlines].
  change (Str.LF +:+ "---") with (String (ascii_of_nat 10) "---") in *.
  assert (Str.index_of (String (ascii_of_nat 10) "---")
            (String (ascii_of_nat 10) "---" +:+ rest) = Some 0) as Hhere.
  { rewrite index_of_unfold.
    pose proof (starts_with_append (String (ascii_of_nat 10) "---") rest) as Hp.
    unfold Str.starts_with in Hp. by rewrite Hp. }
  destruct lines as [|line2 lines].
  - change (Str.join_with Str.LF [line]) with line.
    change (Str.LF +:+ line +:+ Str.LF +:+ "---" +:+ rest)
      with (String (ascii_of_nat 10) (line +:+ String (ascii_of_nat 10) ("---" +:+ rest))).
    rewrite index_of_unfold. cbn [String.prefix].
    destruct (ascii_dec _ _) as [_|]; [|done].
    rewrite prefix_dashes by done.
    change (line +:+ String (ascii_of_nat 10) ("---" +:+ rest))
      with (line +:+ (String (ascii_of_nat 10) "---" +:+ rest)).
    rewrite index_of_skip by done. rewrite Hhere. simpl. f_equal. lia.
  - change (Str.join_with Str.LF (line :: line2 :: lines))
      with (line +:+ Str.LF +:+ Str.join_with Str.LF (line2 :: lines)).
    specialize (IH ltac:(done) Hfree Hlines).
    set (tail := Str.join_with Str.LF (line2 :: lines)) in *.
    replace (Str.LF +:+ (line +:+ Str.LF +:+ tail) +:+ Str.LF +:+ "---" +:+ rest)
      with (String (ascii_of_nat 10)
              (line +:+ (Str.LF +:+ tail +:+ Str.LF +:+ "---" +:+ rest))).
    2: { change (Str.LF +:+ ?x) with (String (ascii_of_nat 10) x).
         cbn [append]. f_equal. by rewrite !append_assoc. }
    rewrite index_of_unfold. cbn [String.prefix].
    destruct (ascii_dec _ _) as [_|]; [|done].
    change (Str.LF +:+ tail +:+ Str.LF +:+ "---" +:+ rest)
      with (String (ascii_of_nat 10) (tail +:+ Str.LF +:+ "---" +:+ rest)) at 1.
    rewrite prefix_dashes by done.
    rewrite index_of_skip by done. rewrite IH. simpl. f_equal.
    rewrite !length_append. simpl. lia.
Qed.

Lemma index_of_delimited pre block rest :
  Str.contains (ascii_of_nat 10) pre = false →
  no_delimiter block →
  Str.index_of (Str.LF +:+ "---") (pre +:+ Str.LF +:+ block +:+ Str.LF +:+ "---" +:+ rest)
  = Some (String.length (pre +:+ Str.LF +:+ block)).
Proof.
  intros Hpre Hblock.
  change (Str.LF +:+ "---") with (String (ascii_of_nat 10) "---").
  rewrite index_of_skip by done.
  change (String (ascii_of_nat 10) "---") with (Str.LF +:+ "---").
  rewrite <- (join_split (ascii_of_nat 10) block).
  change (String (ascii_of_nat 10) "") with Str.LF.
  rewrite index_of_close;
    [|apply split_on_nonempty|apply split_on_free|exact Hblock].
  simpl. f_equal. rewrite !length_append. simpl. lia.
Qed.

Lemma take_delimited pre block rest :
  Str.take (String.length (pre +:+ Str.LF +:+ block))
    (pre +:+ Str.LF +:+ block +:+ Str.LF +:+ "---" +:+ rest)
  = pre +:+ Str.LF +:+ block.
Proof.
  replace (pre +:+ Str.LF +:+ block +:+ Str.LF +:+ "---" +:+ rest)
    with ((pre +:+ Str.LF +:+ block) +:+ Str.LF +:+ "---" +:+ rest)
    by by rewrite !append_assoc.
  apply take_append.
Qed.

Lemma drop_delimited pre block rest :
  Str.drop (String.length (pre +:+ Str.LF +:+ block) + 4)
    (pre +:+ Str.LF +:+ block +:+ Str.LF +:+ "---" +:+ rest)
  = rest.
Proof.
  replace (pre +:+ Str.LF +:+ block +:+ Str.LF +:+ "---" +:+ rest)
    with (((pre +:+ Str.LF +:+ block) +:+ Str.LF +:+ "---") +:+ rest)
    by by rewrite !append_assoc.
  replace (String.length (pre +:+ Str.LF +:+ block) + 4)
    with (String.length ((pre +:+ Str.LF +:+ block) +:+ Str.LF +:+ "---"))
    by (rewrite !length_append; simpl; lia).
  apply drop_append.
Qed.

Lemma starts_with_dash lang x :
  Str.starts_with "-" lang = false → Str.starts_with "-" (lang +:+ Str.LF +:+ x) = false.
Proof.
  unfold Str.starts_with. destruct lang as [|a lang]; [done|].
  rewrite append_cons. cbn [String.prefix].
  destruct (ascii_dec "-" a); [|done]. by destruct lang.
Qed.

(** What [parseMatter] makes of a document with a block: the language
    is what the line of the opening delimiter names, [yaml] when it
    names nothing; the block goes to the engine of that language, unless
    it holds nothing but comments. *)
Lemma parseMatter_delimited lang block rest :
  language_line lang → no_delimiter block →
  GrayMatter.parseMatter engines (delimited lang block rest)
  = if GrayMatter.is_empty_block
         ((if String.eqb (Str.trim lang) "" then lang else "") +:+ Str.LF +:+ block)
    then Ok {| data := VObj [];
               content := GrayMatter.strip_prefix Str.LF (GrayMatter.strip_prefix Str.CR rest);
               language := if String.eqb (Str.trim lang) "" then "yaml" else Str.trim lang |}
    else result_bind
           (GrayMatter.parse engines
              (if String.eqb (Str.trim lang) "" then "yaml" else Str.trim lang)
              ((if String.eqb (Str.trim lang) "" then lang else "") +:+ Str.LF +:+ block))
           (λ d, Ok {| data := d;
                       content :=
                         GrayMatter.strip_prefix Str.LF (GrayMatter.strip_prefix Str.CR rest);
                       language :=
                         if String.eqb (Str.trim lang) "" then "yaml" else Str.trim lang |}).
Proof.
  intros (Hlf & Hcr & Hdash) Hblock.
  unfold GrayMatter.parseMatter, delimited. cbv zeta.
  rewrite (starts_with_append "---"). cbn [negb].
  change 3 with (String.length "---"). rewrite !drop_append.
  rewrite starts_with_dash by done.
  assert (GrayMatter.language_raw
            (lang +:+ Str.LF +:+ block +:+ Str.LF +:+ "---" +:+ rest) = lang) as ->.
  { unfold GrayMatter.language_raw. rewrite search_newline_line by done.
    apply take_append. }
  destruct (String.eqb (Str.trim lang) "") eqn:Ename.
  - rewrite index_of_delimited by done.
    by rewrite take_delimited, drop_delimited.
  - rewrite drop_append.
    pose proof (index_of_delimited "" block rest eq_refl Hblock) as Hi.
    pose proof (take_delimited "" block rest) as Ht.
    pose proof (drop_delimited "" block rest) as Hd.
    change ("" +:+ ?x) with x in Hi. change ("" +:+ ?x) with x in Ht.
    change ("" +:+ ?x) with x in Hd.
    change (S (String.length "---")) with 4. by rewrite Hi, Ht, Hd.
Qed.

Lemma matter_delimited lang block rest :
  language_line lang → no_delimiter block →
  GrayMatter.matter engines (delimited lang block rest)
  = GrayMatter.parseMatter engines (delimited lang block rest).
Proof. intros _ _. reflexivity. Qed.

(** ** The text written for a document *)

Lemma trimEnd_empty s : Str.trimEnd s = "" → Str.trimStart s = "".
Proof.
  destruct s as [|a s]; [done|]. cbn [Str.trimEnd].
  by destruct (String.eqb_spec (Str.trimStart (String a s)) "").
Qed.

(** What is trimmed does not end with white space. *)
Lemma trimEnd_last s a : Str.last_char (Str.trimEnd s) = Some a → Str.is_space a = false.
Proof.
  induction s as [|x s IH]; [done|]. cbn [Str.trimEnd].
  destruct (String.eqb_spec (Str.trimStart (String x s)) "") as [E|E]; [done|].
  cbn [Str.last_char]. destruct (Str.trimEnd s) as [|y s'] eqn:Es.
  - intros [= ->]. destruct (Str.is_space a) eqn:Hx; [|done].
    destruct E. cbn [Str.trimStart]. rewrite Hx. by apply trimEnd_empty.
  - apply IH.
Qed.

Lemma newline_trim s : GrayMatter.newline (Str.trim s) = Str.trim s +:+ Str.LF.
Proof.
  unfold GrayMatter.newline. rewrite bool_decide_eq_false_2; [done|].
  unfold Str.trim. by intros H%trimEnd_last.
Qed.

(** The block that [matter.stringify] writes, with the body below it, is
    a document with that block. *)
Lemma written_delimited yaml body :
  Str.trim yaml ≠ "{}" →
  front_matter_block yaml +:+ body = delimited "" (Str.trim yaml) (Str.LF +:+ body).
Proof.
  intros Hyaml. unfold front_matter_block, delimited.
  rewrite (proj2 (String.eqb_neq _ _) Hyaml), newline_trim.
  change (GrayMatter.newline "---") with ("---" +:+ Str.LF).
  by rewrite !append_assoc.
Qed.

Lemma obj_get_foldl_other k (o b : object) :
  k ∉ b.*1 → obj_get k (foldl (λ o kv, obj_set kv.1 kv.2 o) o b) = obj_get k o.
Proof.
  revert o. induction b as [|[k' v'] b IH]; intros o Hk; [done|].
  rewrite fmap_cons in Hk. apply not_elem_of_cons in Hk as [Hne Hk].
  cbn [foldl fst snd]. rewrite IH by done. by apply obj_get_set_ne.
Qed.

(** [Object.assign({}, a, b)] has the properties of [b]. *)
Lemma obj_get_assign a (b : object) k v :
  NoDup b.*1 → obj_get k b = Some v → obj_get k (GrayMatter.assign a b) = Some v.
Proof.
  unfold GrayMatter.assign. generalize (spread a). intros o. revert o.
  induction b as [|[k' v'] b IH]; intros o Hnd; [done|].
  rewrite fmap_cons in Hnd. apply NoDup_cons in Hnd as [Hfresh Hnd].
  cbn [obj_get foldl fst snd].
  destruct (String.eqb_spec k k') as [->|Hne].
  - intros [= ->]. rewrite obj_get_foldl_other by done. apply obj_get_set_eq.
  - by apply IH.
Qed.

Lemma obj_get_In k (o : object) : is_Some (obj_get k o) ↔ k ∈ o.*1.
Proof.
  induction o as [|[k' v'] o IH]; cbn [obj_get].
  - split; [by intros [? ?]|by intros ?%elem_of_nil].
  - rewrite fmap_cons, elem_of_cons. destruct (String.eqb_spec k k') as [->|Hne].
    + split; [by left|by eexists].
    + rewrite IH. split; [by right|by intros [|]].
Qed.

Lemma merge_distinct data custom :
  distinct_keys data → NoDup (merge_front_matter data custom).*1.
Proof.
  unfold distinct_keys, merge_front_matter. intros Hnd.
  destruct (obj_get edit_key (spread data)) as [v|] eqn:E.
  - rewrite obj_set_keys; [done|by eexists].
  - rewrite obj_set_absent by done. rewrite fmap_app. apply NoDup_app.
    split; [done|]. split; [|apply NoDup_singleton].
    intros k Hk ->%list_elem_of_singleton.
    apply obj_get_In in Hk as [? ?]. simpl in *. congruence.
Qed.

(** ** The body

    What [trimStart] leaves starts with no byte-order mark, which is
    white space. *)
Lemma string_prefix_cons x p a s :
  String.prefix (String x p) (String a s)
  = if ascii_dec x a then String.prefix p s else false.
Proof. done. Qed.

Lemma trimStart_no_bom s :
  Str.starts_with GrayMatter.BOM (Str.trimStart s +:+ Str.LF) = false.
Proof.
  assert (∀ n s, (String.length s ≤ n)%nat →
            Str.starts_with GrayMatter.BOM (Str.trimStart s +:+ Str.LF) = false) as H;
    [|by apply (H (String.length s))].
  clear s. induction n as [|n IH]; intros s Hn.
  - destruct s; [by vm_compute|simpl in Hn; lia].
  - destruct s as [|a s1]; [by vm_compute|]. cbn [Str.trimStart]. simpl in Hn.
    destruct (Str.is_space a) eqn:E1; [apply IH; lia|].
    unfold Str.starts_with, GrayMatter.BOM in *.
    destruct s1 as [|b s2].
    { rewrite !append_cons, string_prefix_cons.
      destruct (ascii_dec _ a) as [<-|?]; done. }
    simpl in Hn.
    destruct (Str.is_space2 a b) eqn:E2; [apply IH; lia|].
    destruct s2 as [|c s3].
    { rewrite !append_cons, !string_prefix_cons.
      destruct (ascii_dec _ a) as [<-|?]; [|done].
      destruct (ascii_dec _ b) as [<-|?]; done. }
    simpl in Hn.
    destruct (Str.is_space3 a b c) eqn:E3; [apply IH; lia|].
    rewrite !append_cons, !string_prefix_cons.
    destruct (ascii_dec _ a) as [<-|?]; [|done].
    destruct (ascii_dec _ b) as [<-|?]; [|done].
    destruct (ascii_dec _ c) as [<-|?]; [|done].
    by vm_compute in E3.
Qed.

Lemma newline_LF s : GrayMatter.newline (s +:+ Str.LF) = s +:+ Str.LF.
Proof.
  unfold GrayMatter.newline.
  assert (Str.last_char (s +:+ Str.LF) = Some (ascii_of_nat 10)) as ->; [|done].
  induction s as [|a s IH]; [done|]. 
  cbn [append Str.last_char]. simpl. simpl in IH. 
  destruct (s +:+ Str.LF) eqn:E; [by destruct s|done].
Qed.

Lemma assign_fresh (o b : object) :
  NoDup b.*1 → (∀ k, k ∈ b.*1 → obj_get k o = None) →
  foldl (λ o kv, obj_set kv.1 kv.2 o) o b = o ++ b.
Proof.
  revert o. induction b as [|[k v] b IH]; intros o Hnd Hfresh; [by rewrite app_nil_r|].
  rewrite fmap_cons in Hnd. apply NoDup_cons in Hnd as [Hk Hnd].
  cbn [foldl fst snd]. rewrite obj_set_absent by (apply Hfresh; rewrite fmap_cons; left).
  rewrite IH; [by rewrite <- app_assoc|done|].
  intros k' Hk'.
  assert (k' ≠ k) as Hne by (by intros ->).
  assert (obj_get k' o = None) as Ho by (apply Hfresh; rewrite fmap_cons; by right).
  clear -Hne Ho. induction o as [|[k1 v1] o IHo]; cbn [app obj_get] in *.
  - by destruct (String.eqb_spec k' k).
  - destruct (String.eqb k' k1); [done|by apply IHo].
Qed.

(** A body that does not start with a delimiter is read back as it is,
    with no front matter. *)
Lemma matter_body s :
  Str.starts_with "---" (Str.trimStart s +:+ Str.LF) = false →
  GrayMatter.matter engines (Str.trimStart s +:+ Str.LF)
  = Ok {| data := VObj []; content := Str.trimStart s +:+ Str.LF; language := "yaml" |}.
Proof.
  intros H. unfold GrayMatter.matter, GrayMatter.stripBom.
  rewrite trimStart_no_bom.
  destruct (String.eqb_spec (Str.trimStart s +:+ Str.LF) "") as [E|_];
    [by destruct (Str.trimStart s)|].
  unfold GrayMatter.parseMatter. by rewrite H.
Qed.
(** The text [annotate] yields: the block that the engine writes for the
    merged mapping, and the body. *)
Lemma annotate_text r rel raw fm text :
  GrayMatter.matter engines raw = Ok fm →
  annotate r rel raw = Ok text →
  ∃ file e yaml,
    GrayMatter.matter engines (Str.trimStart (content fm) +:+ Str.LF) = Ok file
    ∧ GrayMatter.getEngine engines (language file) = Ok e
    ∧ engine_stringify e
        (VObj (GrayMatter.assign (data file)
                 (merge_front_matter (data fm) (custom_url r rel)))) = Some yaml
    ∧ text = front_matter_block yaml +:+ GrayMatter.newline (content file).
Proof.
  intros Hfm. rewrite (annotate_unfold r rel raw fm Hfm). unfold GrayMatter.stringify.
  destruct (GrayMatter.matter engines (Str.trimStart (content fm) +:+ Str.LF))
    as [file|x] eqn:Hfile; cbn [result_bind]; [|done].
  destruct (GrayMatter.getEngine engines (language file)) as [e|x] eqn:He;
    cbn [result_bind]; [|done].
  destruct (engine_stringify e _) as [yaml|] eqn:E; [|done].
  intros [= <-]. by exists file, e, yaml.
Qed.

(** Decoding what was written: the block goes back to the YAML engine,
    and the body comes back. *)
Lemma matter_written yaml body :
  Str.trim yaml ≠ "{}" →
  no_delimiter (Str.trim yaml) →
  GrayMatter.is_empty_block (Str.LF +:+ Str.trim yaml) = false →
  GrayMatter.matter engines (front_matter_block yaml +:+ body)
  = result_bind (GrayMatter.parse engines "yaml" (Str.LF +:+ Str.trim yaml))
      (λ d, Ok {| data := d; content := body; language := "yaml" |}).
Proof.
  intros Hyaml Hblock Hfull. rewrite written_delimited by done.
  rewrite matter_delimited, parseMatter_delimited by done.
  change (Str.trim "") with "". cbn [String.eqb].
  change ("" +:+ ?x) with x. rewrite Hfull.
  assert (GrayMatter.strip_prefix Str.LF (GrayMatter.strip_prefix Str.CR (Str.LF +:+ body))
          = body) as ->; [|done].
  change (GrayMatter.strip_prefix Str.CR (Str.LF +:+ body)) with (Str.LF +:+ body).
  unfold GrayMatter.strip_prefix. rewrite starts_with_append.
  change (String.length Str.LF) with 1. done.
Qed.

(** The text written for a document, and the mapping in its block. *)
Lemma annotate_written r rel raw fm text :
  GrayMatter.matter engines raw = Ok fm →
  distinct_keys (data fm) →
  annotate r rel raw = Ok text →
  ∃ final yaml body,
    text = front_matter_block yaml +:+ body
    ∧ (∃ lang e, GrayMatter.getEngine engines lang = Ok e
                 ∧ engine_stringify e (VObj final) = Some yaml)
    ∧ (∀ k v, obj_get k (merge_front_matter (data fm) (custom_url r rel)) = Some v →
              obj_get k final = Some v)
    ∧ (Str.trim yaml ≠ "{}" →
       no_delimiter (Str.trim yaml) →
       GrayMatter.is_empty_block (Str.LF +:+ Str.trim yaml) = false →
       GrayMatter.matter engines text
       = result_bind (GrayMatter.parse engines "yaml" (Str.LF +:+ Str.trim yaml))
           (λ d, Ok {| data := d; content := body; language := "yaml" |}))
    ∧ (Str.starts_with "---" (Str.trimStart (content fm) +:+ Str.LF) = false →
       final = merge_front_matter (data fm) (custom_url r rel)
       ∧ body = Str.trimStart (content fm) +:+ Str.LF).
Proof.
  intros Hfm Hkeys Htext.
  destruct (annotate_text r rel raw fm text Hfm Htext)
    as (file & e & yaml & Hfile & He & Hy & ->).
  exists (GrayMatter.assign (data file) (merge_front_matter (data fm) (custom_url r rel))),
    yaml, (GrayMatter.newline (content file)).
  split; [done|]. split; [by exists (language file), e|]. split; [|split].
  - intros k v. apply obj_get_assign. by apply merge_distinct.
  - apply matter_written.
  - intros Hplain. rewrite matter_body in Hfile by done. injection Hfile as <-.
    cbn [data content]. split; [|apply newline_LF].
    unfold GrayMatter.assign. cbn [spread].
    by rewrite assign_fresh; [|apply merge_distinct|].
Qed.

(** In a successful run the text that [annotate] yields for a document
    is what stands in the output tree. *)
Lemma run_writes_annotation repos t r name rel raw text :
  distinct_outputs repos →
  r ∈ repos → short_name r = Some name →
  document_of t r rel raw →
  res (run repos t) = Ok tt →
  annotate r (Path.render rel) raw = Ok text →
  fs (run repos t) !! (out_of name ++ rel) = Some (File text).
Proof.
  intros Hrepos Hin Hname Hdoc Hrun Htext.
  destruct (run_document repos t r name rel raw Hrepos Hin Hname Hdoc Hrun)
    as (text' & Htext' & Hfs).
  congruence.
Qed.

(** C1, as the code has it: the text written for a document is the
    front-matter block that the engine writes for a mapping, followed by
    the body.  That mapping keeps the value of every key of the existing
    front matter other than [custom_edit_url]; it keeps the value of
    [custom_edit_url] when that value is neither null nor undefined; and
    it holds the computed default edit URL when [custom_edit_url] is
    absent or its value is null or undefined.  Decoding the written text
    hands the same block back to the YAML engine and returns the same
    body: the written document has the values that the engine reads from
    what it wrote.  When the content of the document, its leading white
    space apart, does not start with a delimiter line of its own, the
    mapping is the merged front matter and nothing else, and the body is
    that content, ending in a line break.  After a successful run over repositories with output
    directories of their own, this text stands in the output tree, at
    the place of the document in the output directory of its
    repository. *)
Theorem front_matter_preserved r rel raw fm text :
  GrayMatter.matter engines raw = Ok fm →
  distinct_keys (data fm) →
  annotate r (Path.render rel) raw = Ok text →
  (∃ final yaml body,
     text = front_matter_block yaml +:+ body
     ∧ (∃ lang e, GrayMatter.getEngine engines lang = Ok e
                  ∧ engine_stringify e (VObj final) = Some yaml)
     ∧ (∀ k v, k ≠ edit_key → obj_get k (spread (data fm)) = Some v →
               obj_get k final = Some v)
     ∧ (nullish (get_prop (data fm) edit_key) = false →
        obj_get edit_key final = Some (get_prop (data fm) edit_key))
     ∧ (nullish (get_prop (data fm) edit_key) = true →
        obj_get edit_key final = Some (VStr (custom_url r (Path.render rel))))
     ∧ (Str.trim yaml ≠ "{}" →
        no_delimiter (Str.trim yaml) →
        GrayMatter.is_empty_block (Str.LF +:+ Str.trim yaml) = false →
        GrayMatter.matter engines text
        = result_bind (GrayMatter.parse engines "yaml" (Str.LF +:+ Str.trim yaml))
            (λ d, Ok {| data := d; content := body; language := "yaml" |}))
     ∧ (Str.starts_with "---" (Str.trimStart (content fm) +:+ Str.LF) = false →
        final = merge_front_matter (data fm) (custom_url r (Path.render rel))
        ∧ body = Str.trimStart (content fm) +:+ Str.LF))
  ∧ (∀ repos t name,
       located r → distinct_outputs repos →
       r ∈ repos → short_name r = Some name →
       document_of t r rel raw →
       res (run repos t) = Ok tt →
       fs (run repos t) !! (out_of name ++ rel) = Some (File text)).
Proof.
  intros Hfm Hkeys Htext. split.
  - destruct (annotate_written r (Path.render rel) raw fm text Hfm Hkeys Htext)
      as (final & yaml & body & Ht & He & Hget & Hback & Hplain).
    exists final, yaml, body. split; [done|]. split; [done|].
    split; [|split; [|split; [|done]]].
    + intros k v Hk Hv. apply Hget. by rewrite merge_other_key.
    + intros Hn. apply Hget. rewrite merge_edit_key. unfold coalesce. by rewrite Hn.
    + intros Hn. apply Hget. rewrite merge_edit_key. unfold coalesce. by rewrite Hn.
  - intros repos t name _ Hrepos Hin Hname Hdoc Hrun.
    by apply (run_writes_annotation repos t r name rel raw text).
Qed.

(** C10: when the existing front matter of a document has the key
    [custom_edit_url] with a null or undefined value, the text written
    for the document is the front-matter block that the engine writes
    for a mapping that holds the computed default edit URL under that
    key, followed by the body; decoding the written text hands that
    block back to the YAML engine; the mapping is the merged front
    matter and the body is the content of the document, its leading
    white space apart, when that content does not start with a delimiter
    line of its own; and after a successful run over
    repositories with output directories of their own this text stands
    in the output tree, at the place of the document. *)
Theorem nullish_edit_url_replaced r rel raw fm fields v text :
  GrayMatter.matter engines raw = Ok fm →
  data fm = VObj fields →
  NoDup fields.*1 →
  obj_get edit_key fields = Some v →
  nullish v = true →
  annotate r (Path.render rel) raw = Ok text →
  (∃ final yaml body,
     text = front_matter_block yaml +:+ body
     ∧ (∃ lang e, GrayMatter.getEngine engines lang = Ok e
                  ∧ engine_stringify e (VObj final) = Some yaml)
     ∧ obj_get edit_key final = Some (VStr (custom_url r (Path.render rel)))
     ∧ obj_get edit_key final ≠ Some v
     ∧ (Str.trim yaml ≠ "{}" →
        no_delimiter (Str.trim yaml) →
        GrayMatter.is_empty_block (Str.LF +:+ Str.trim yaml) = false →
        GrayMatter.matter engines text
        = result_bind (GrayMatter.parse engines "yaml" (Str.LF +:+ Str.trim yaml))
            (λ d, Ok {| data := d; content := body; language := "yaml" |}))
     ∧ (Str.starts_with "---" (Str.trimStart (content fm) +:+ Str.LF) = false →
        final = merge_front_matter (data fm) (custom_url r (Path.render rel))
        ∧ body = Str.trimStart (content fm) +:+ Str.LF))
  ∧ (∀ repos t name,
       located r → distinct_outputs repos →
       r ∈ repos → short_name r = Some name →
       document_of t r rel raw →
       res (run repos t) = Ok tt →
       fs (run repos t) !! (out_of name ++ rel) = Some (File text)).
Proof.
  intros Hfm Hdata Hnd Hget Hnull Htext. split.
  - destruct (annotate_written r (Path.render rel) raw fm text Hfm)
      as (final & yaml & body & Ht & He & Hw & Hback);
      [unfold distinct_keys; by rewrite Hdata|done|].
    assert (obj_get edit_key final = Some (VStr (custom_url r (Path.render rel)))) as Hfinal.
    { apply Hw. rewrite merge_edit_key, Hdata. simpl. rewrite Hget. simpl.
      unfold coalesce. by rewrite Hnull. }
    exists final, yaml, body. split; [done|]. split; [done|]. split; [done|].
    split; [|done]. rewrite Hfinal. intros [= <-]. done.
  - intros repos t name _ Hrepos Hin Hname Hdoc Hrun.
    by apply (run_writes_annotation repos t r name rel raw text).
Qed.

(** ** Decoding, and a run over a document that does not decode *)


(** ** Failures that the run meets *)

Lemma emptyDir_fails p code t :
  faults OpEmptyDir p = Some code →
  emptyDir p t = Outcome (Throw (FsError code OpEmptyDir p)) t [].
Proof. intros H. unfold emptyDir. by rewrite bind_eq, (attempt_fails _ _ code). Qed.

Lemma ensureDir_fails p code t :
  faults OpEnsureDir p = Some code →
  ensureDir p t = Outcome (Throw (FsError code OpEnsureDir p)) t [].
Proof. intros H. unfold ensureDir. by rewrite bind_eq, (attempt_fails _ _ code). Qed.

Lemma readFile_fails p code t :
  faults OpReadFile p = Some code →
  readFile p t = Outcome (Throw (FsError code OpReadFile p)) t [].
Proof. intros H. unfold readFile. by rewrite bind_eq, (attempt_fails _ _ code). Qed.

Lemma globby_fails patterns cwd code t :
  faults OpGlob cwd = Some code →
  globby patterns cwd t = Outcome (Throw (FsError code OpGlob cwd)) t [].
Proof. intros H. unfold globby. by rewrite bind_eq, (attempt_fails _ _ code). Qed.

(** The run fails when the output root cannot be emptied. *)
Lemma run_stops_at_emptyDir repos t code :
  faults OpEmptyDir out_root = Some code →
  run repos t = Outcome (Throw (FsError code OpEmptyDir out_root)) t [].
Proof.
  intros H. unfold run. change (Path.resolve OUT_ROOT) with out_root.
  by rewrite bind_eq, (emptyDir_fails _ code).
Qed.

(** The run fails when the docs directory of a repository that is there
    cannot be copied. *)
Lemma run_stops_at_copy env repos t r name code :
  Forall (λ r, short_name r ≠ Some "..") repos →
  r ∈ repos → short_name r = Some name →
  root_files r = false →
  ¬ below_out_root (srcDocs_of r) →
  is_Some (node_at t (srcDocs_of r)) →
  faults OpCopy (srcDocs_of r) = Some code →
  (main env repos t).1 = 1%nat ∧ ∃ e, res (run repos t) = Throw e.
Proof.
  intros Hnames Hin Hname Hroot Hout Hsrc Hfault.
  assert (res (run repos t) ≠ Ok tt) as Hfail.
  { intros Hrun.
    apply list_elem_of_split in Hin as (before & after & ->).
    destruct (run_turn before r after t Hrun) as (H0 & Hbefore & Hr & _).
    apply Forall_app in Hnames as [Hnames1 _].
    set (t1 := fs (for_each before process_repo (fs (emptyDir out_root t)))) in *.
    assert (is_Some (node_at t1 (srcDocs_of r))) as Hsrc1.
    { rewrite (node_at_outside t t1); [done| |done]. intros k Hk. by apply before_turn. }
    rewrite (process_repo_present_eq r name t1 Hname Hsrc1), Hroot in Hr.
    by rewrite bind_eq, (copy_fails _ _ code) in Hr. }
  unfold main. destruct (res (run repos t)) as [[]|e'] eqn:E; [done|].
  split; [done|by exists e'].
Qed.

End Script.

(** * One more failure of the file system

    The script under an environment in which one more operation fails,
    against the script under the environment without that failure: it
    does the same, or it throws that very failure.  No step of the loop
    takes a failure for something else. *)

Section Injection.

Context (engines : string → option Engine) (faults : fs_op → path → option errno).
Context (op : fs_op) (p : path) (code : errno).

Lemma same_refl {A : Type} e (m : M A) : same_or_throws e m m.
Proof. intros t. by left. Qed.

Lemma same_bind {A B : Type} e (m' m : M A) (f' f : A → M B) :
  same_or_throws e m' m →
  (∀ a, same_or_throws e (f' a) (f a)) →
  same_or_throws e (m' ≫= f') (m ≫= f).
Proof.
  intros Hm Hf t. rewrite !bind_eq.
  destruct (Hm t) as [->|Hthrow]; [|right; by rewrite Hthrow].
  destruct (res (m t)) as [a|x]; [|by left].
  destruct (Hf a (fs (m t))) as [->|Hthrow]; [by left|by right].
Qed.

Lemma same_for_each {A : Type} e (l : list A) (f' f : A → M unit) :
  (∀ x, same_or_throws e (f' x) (f x)) →
  same_or_throws e (for_each l f') (for_each l f).
Proof.
  intros Hf. induction l as [|x l IH]; [apply same_refl|].
  apply same_bind; [apply Hf|]. intros _. apply IH.
Qed.

Lemma same_attempt op' p' :
  same_or_throws (FsError code op p)
    (attempt (with_fault faults op p code) op' p') (attempt faults op' p').
Proof.
  intros t. unfold attempt, with_fault.
  destruct (decide (op' = op ∧ p' = p)) as [[-> ->]|_]; [by right|by left].
Qed.

Lemma same_ensureDir q :
  same_or_throws (FsError code op p)
    (ensureDir (with_fault faults op p code) q) (ensureDir faults q).
Proof. apply same_bind; [apply same_attempt|]. intros _. apply same_refl. Qed.

Lemma same_emptyDir q :
  same_or_throws (FsError code op p)
    (emptyDir (with_fault faults op p code) q) (emptyDir faults q).
Proof. apply same_bind; [apply same_attempt|]. intros _. apply same_refl. Qed.

Lemma same_copy src dest :
  same_or_throws (FsError code op p)
    (copy (with_fault faults op p code) src dest) (copy faults src dest).
Proof. apply same_bind; [apply same_attempt|]. intros _. apply same_refl. Qed.

Lemma same_readFile q :
  same_or_throws (FsError code op p)
    (readFile (with_fault faults op p code) q) (readFile faults q).
Proof. apply same_bind; [apply same_attempt|]. intros _. apply same_refl. Qed.

Lemma same_writeFile q text :
  same_or_throws (FsError code op p)
    (writeFile (with_fault faults op p code) q text) (writeFile faults q text).
Proof. apply same_bind; [apply same_attempt|]. intros _. apply same_refl. Qed.

Lemma same_globby patterns cwd :
  same_or_throws (FsError code op p)
    (globby (with_fault faults op p code) patterns cwd) (globby faults patterns cwd).
Proof. apply same_bind; [apply same_attempt|]. intros _. apply same_refl. Qed.

Lemma same_copy_root_files srcDocs out :
  same_or_throws (FsError code op p)
    (copy_root_files (with_fault faults op p code) srcDocs out)
    (copy_root_files faults srcDocs out).
Proof.
  apply same_bind; [apply same_ensureDir|]. intros _.
  apply same_bind; [apply same_globby|]. intros markdownFiles.
  apply same_bind; [apply same_for_each; intros file; apply same_copy|]. intros _.
  apply same_bind; [apply same_globby|]. intros docFiles.
  apply same_for_each. intros file.
  apply same_bind; [apply same_refl|]. intros [|]; [|apply same_refl].
  apply same_bind; [apply same_ensureDir|]. intros _. apply same_copy.
Qed.

Lemma same_inject r out :
  same_or_throws (FsError code op p)
    (inject engines (with_fault faults op p code) r out) (inject engines faults r out).
Proof.
  apply same_bind; [apply same_globby|]. intros files.
  apply same_for_each. intros rel.
  apply same_bind; [apply same_readFile|]. intros raw.
  apply same_bind; [apply same_refl|]. intros text. apply same_writeFile.
Qed.

Lemma same_add_index r name out :
  same_or_throws (FsError code op p)
    (add_index engines (with_fault faults op p code) r name out)
    (add_index engines faults r name out).
Proof.
  apply same_bind; [apply same_refl|]. intros hasIndex.
  destruct (negb hasIndex); [|apply same_refl].
  apply same_bind; [apply same_refl|]. intros text. apply same_writeFile.
Qed.

Lemma same_process_repo r :
  same_or_throws (FsError code op p)
    (process_repo engines (with_fault faults op p code) r) (process_repo engines faults r).
Proof.
  unfold process_repo. destruct (short_name r) as [name|]; [|apply same_refl].
  apply same_bind; [apply same_refl|]. intros e.
  destruct (negb e); [apply same_refl|].
  apply same_bind.
  { destruct (root_files r); [apply same_copy_root_files|apply same_copy]. }
  intros _. apply same_bind; [apply same_inject|]. intros _. apply same_add_index.
Qed.

Lemma same_run repos :
  same_or_throws (FsError code op p)
    (run engines (with_fault faults op p code) repos) (run engines faults repos).
Proof.
  apply same_bind; [apply same_emptyDir|]. intros _.
  apply same_bind; [apply same_for_each; intros r; apply same_process_repo|].
  intros _. apply same_refl.
Qed.

End Injection.

(** C3, as the code has it: the run has no handler.  The exit status is
    0 exactly when [run] throws nothing, and 1 with the exception
    printed last when it throws.  Every operation on the file system
    raises the error that the file system fails it with, "not found"
    ([ENOENT]) like any other, and no step takes it for something else:
    under an environment in which one more operation fails, the script
    does what it does without that failure, or it ends with exit status
    1 and that very error.  So the run ends with status 1 when the
    output root cannot be emptied, and when the docs directory of a
    repository that is there cannot be copied.  A convention root that
    is missing is no error: [existsSync] finds it before anything is
    copied, and the repository is skipped with a warning. *)
Theorem error_propagation engines faults env repos t :
  (res (run engines faults repos t) = Ok tt →
   main engines faults env repos t = (0%nat, run engines faults repos t))
  ∧ (∀ e, res (run engines faults repos t) = Throw e →
       main engines faults env repos t
       = (1%nat, Outcome (Throw e) (fs (run engines faults repos t))
                   (console (run engines faults repos t) ++ [Error e])))
  ∧ (∀ op p code,
       main engines (with_fault faults op p code) env repos t
       = main engines faults env repos t
       ∨ ((main engines (with_fault faults op p code) env repos t).1 = 1%nat
          ∧ res (main engines (with_fault faults op p code) env repos t).2
            = Throw (FsError code op p)
          ∧ ∃ printed,
              console (main engines (with_fault faults op p code) env repos t).2
              = printed ++ [Error (FsError code op p)]))
  ∧ (∀ code t',
       (∀ q, faults OpEmptyDir q = Some code →
             res (emptyDir faults q t') = Throw (FsError code OpEmptyDir q))
       ∧ (∀ q, faults OpEnsureDir q = Some code →
               res (ensureDir faults q t') = Throw (FsError code OpEnsureDir q))
       ∧ (∀ patterns q, faults OpGlob q = Some code →
               res (globby faults patterns q t') = Throw (FsError code OpGlob q))
       ∧ (∀ src dest, faults OpCopy src = Some code →
               res (copy faults src dest t') = Throw (FsError code OpCopy src))
       ∧ (∀ q, faults OpReadFile q = Some code →
               res (readFile faults q t') = Throw (FsError code OpReadFile q))
       ∧ (∀ q text, faults OpWriteFile q = Some code →
               res (writeFile faults q text t') = Throw (FsError code OpWriteFile q)))
  ∧ (∀ code, faults OpEmptyDir out_root = Some code →
       (main engines faults env repos t).1 = 1%nat
       ∧ res (run engines faults repos t) = Throw (FsError code OpEmptyDir out_root))
  ∧ (∀ code r name,
       located r →
       Forall (λ r, short_name r ≠ Some "..") repos →
       r ∈ repos → short_name r = Some name →
       root_files r = false →
       ¬ below_out_root (srcDocs_of r) →
       is_Some (node_at t (srcDocs_of r)) →
       faults OpCopy (srcDocs_of r) = Some code →
       (main engines faults env repos t).1 = 1%nat
       ∧ ∃ e, res (run engines faults repos t) = Throw e)
  ∧ (∀ r name t',
       short_name r = Some name →
       node_at t' (srcDocs_of r) = None →
       process_repo engines faults r t' = Outcome (Ok tt) t' [skip_warning r]).
Proof.
  split; [|split; [|split; [|split; [|split; [|split]]]]].
  - intros H. unfold main. by rewrite H.
  - intros e H. unfold main. by rewrite H.
  - intros op p code. unfold main. cbv zeta.
    destruct (same_run engines faults op p code repos t) as [->|Hthrow]; [by left|].
    right. rewrite Hthrow. cbn [fst snd res console]. split; [done|]. split; [done|].
    by eexists.
  - intros code t'. repeat split.
    + intros q H. by rewrite (emptyDir_fails faults q code).
    + intros q H. by rewrite (ensureDir_fails faults q code).
    + intros patterns q H. by rewrite (globby_fails faults patterns q code).
    + intros src dest H. by rewrite (copy_fails faults src dest code).
    + intros q H. by rewrite (readFile_fails faults q code).
    + intros q text H. by rewrite (writeFile_fails faults q text code).
  - intros code H. rewrite (run_stops_at_emptyDir engines faults repos t code H).
    split; [|done]. unfold main. by rewrite (run_stops_at_emptyDir engines faults repos t code H).
  - intros code r name _. apply run_stops_at_copy.
  - intros r name t'. apply process_repo_missing.
Qed.

(** * The script on concrete trees *)

Lemma sources_well_formed : well_formed Demo.sources.
Proof.
  change (map_Forall (λ k _, node_at Demo.sources (Path.dirname k) = Some Dir) Demo.sources).
  apply (bool_decide_unpack _). by vm_compute.
Qed.

Lemma partial_sources_well_formed : well_formed Demo.partial_sources.
Proof.
  change (map_Forall (λ k _, node_at Demo.partial_sources (Path.dirname k) = Some Dir)
            Demo.partial_sources).
  apply (bool_decide_unpack _). by vm_compute.
Qed.

Lemma REPOS_short_names : Forall (λ r, short_name r ≠ Some "..") REPOS.
Proof. repeat constructor; by vm_compute. Qed.

Lemma REPOS_distinct_outputs : distinct_outputs REPOS.
Proof.
  split; [apply (bool_decide_unpack _); by vm_compute|].
  repeat constructor; (eexists; split; [reflexivity|repeat split; discriminate]).
Qed.

Lemma REPOS_located : Forall located REPOS.
Proof. repeat constructor; by vm_compute. Qed.

(** C1, counterexample: a README whose front matter holds
    [custom_edit_url: null] has the key, and is written back with the
    computed default URL in its place. *)
Lemma null_edit_url_not_preserved :
  GrayMatter.matter FlatYaml.engines Demo.readme_null
  = Ok {| data := VObj [("title", VStr "Peers UI"); (edit_key, VNull)];
          content := "# Peers UI"; language := "yaml" |}
  ∧ obj_get edit_key
      (merge_front_matter (VObj [("title", VStr "Peers UI"); (edit_key, VNull)])
         (custom_url Demo.peers_ui "README.md"))
    = Some (VStr "https://github.com/peers-app/peers-ui/edit/main/README.md")
  ∧ annotate FlatYaml.engines Demo.peers_ui "README.md" Demo.readme_null
    = Ok (Demo.front_matter
            ["title: Peers UI";
             "custom_edit_url: 'https://github.com/peers-app/peers-ui/edit/main/README.md'"]
            ("# Peers UI" +:+ Str.LF)).
Proof. by vm_compute. Qed.

(** C1, witness: a README with a title and an edit URL of its own keeps
    both, in the text written for it and in the output tree. *)
Lemma front_matter_preserved_witness :
  (∃ final yaml body,
     Demo.front_matter
       ["title: Peers UI"; "custom_edit_url: 'https://example.org/edit/ui'"]
       ("# Peers UI" +:+ Str.LF)
     = front_matter_block yaml +:+ body
     ∧ (∃ lang e, GrayMatter.getEngine FlatYaml.engines lang = Ok e
                  ∧ engine_stringify e (VObj final) = Some yaml)
     ∧ obj_get "title" final = Some (VStr "Peers UI")
     ∧ obj_get edit_key final = Some (VStr "https://example.org/edit/ui"))
  ∧ fs (run FlatYaml.engines Demo.no_faults REPOS (Demo.ui_readme Demo.readme_own))
      !! ["projects"; "peers-ui"; "README.md"]
    = Some (File (Demo.front_matter
                    ["title: Peers UI"; "custom_edit_url: 'https://example.org/edit/ui'"]
                    ("# Peers UI" +:+ Str.LF))).
Proof.
  destruct (front_matter_preserved FlatYaml.engines Demo.no_faults Demo.peers_ui
              ["README.md"] Demo.readme_own
              {| data := VObj [("title", VStr "Peers UI");
                               (edit_key, VStr "https://example.org/edit/ui")];
                 content := "# Peers UI"; language := "yaml" |}
              (Demo.front_matter
                 ["title: Peers UI"; "custom_edit_url: 'https://example.org/edit/ui'"]
                 ("# Peers UI" +:+ Str.LF)))
    as [(final & yaml & body & Ht & He & H1 & H2 & _) Htree].
  - vm_compute. reflexivity.
  - apply (bool_decide_unpack _). vm_compute. reflexivity.
  - vm_compute. reflexivity.
  - split.
    + exists final, yaml, body. split; [exact Ht|]. split; [exact He|]. split.
      * apply H1; [discriminate|reflexivity].
      * apply H2. reflexivity.
    + apply (Htree REPOS (Demo.ui_readme Demo.readme_own) "peers-ui").
      * vm_compute. reflexivity.
      * exact REPOS_distinct_outputs.
      * right. left.
      * reflexivity.
      * split; [vm_compute; reflexivity|]. split; [vm_compute; reflexivity|].
        split; [intros [rest Hrest]; vm_compute in Hrest; discriminate Hrest|].
        exists [], "README.md". split; [reflexivity|]. split; [constructor|].
        split; [reflexivity|]. split; reflexivity.
      * vm_compute. reflexivity.
Defined.

(** The text written for that README decodes to the mapping it was
    written from. *)
Example written_document_decodes :
  GrayMatter.matter FlatYaml.engines
    (Demo.front_matter
       ["title: Peers UI"; "custom_edit_url: 'https://example.org/edit/ui'"]
       ("# Peers UI" +:+ Str.LF))
  = Ok {| data := VObj [("title", VStr "Peers UI");
                        (edit_key, VStr "https://example.org/edit/ui")];
          content := "# Peers UI" +:+ Str.LF; language := "yaml" |}.
Proof. by vm_compute. Qed.

(** C10, witness: the README with [custom_edit_url: null]. *)
Lemma nullish_edit_url_replaced_witness :
  (∃ final yaml body,
     Demo.front_matter
       ["title: Peers UI";
        "custom_edit_url: 'https://github.com/peers-app/peers-ui/edit/main/README.md'"]
       ("# Peers UI" +:+ Str.LF)
     = front_matter_block yaml +:+ body
     ∧ (∃ lang e, GrayMatter.getEngine FlatYaml.engines lang = Ok e
                  ∧ engine_stringify e (VObj final) = Some yaml)
     ∧ obj_get edit_key final
       = Some (VStr "https://github.com/peers-app/peers-ui/edit/main/README.md")
     ∧ obj_get edit_key final ≠ Some VNull)
  ∧ fs (run FlatYaml.engines Demo.no_faults REPOS (Demo.ui_readme Demo.readme_null))
      !! ["projects"; "peers-ui"; "README.md"]
    = Some (File (Demo.front_matter
                    ["title: Peers UI";
                     "custom_edit_url: 'https://github.com/peers-app/peers-ui/edit/main/README.md'"]
                    ("# Peers UI" +:+ Str.LF))).
Proof.
  destruct (nullish_edit_url_replaced FlatYaml.engines Demo.no_faults Demo.peers_ui
              ["README.md"] Demo.readme_null
              {| data := VObj [("title", VStr "Peers UI"); (edit_key, VNull)];
                 content := "# Peers UI"; language := "yaml" |}
              [("title", VStr "Peers UI"); (edit_key, VNull)] VNull
              (Demo.front_matter
                 ["title: Peers UI";
                  "custom_edit_url: 'https://github.com/peers-app/peers-ui/edit/main/README.md'"]
                 ("# Peers UI" +:+ Str.LF)))
    as [(final & yaml & body & Ht & He & H1 & H2 & _) Htree].
  - vm_compute. reflexivity.
  - reflexivity.
  - apply (bool_decide_unpack _). vm_compute. reflexivity.
  - reflexivity.
  - reflexivity.
  - vm_compute. reflexivity.
  - split.
    + exists final, yaml, body. split; [exact Ht|]. split; [exact He|].
      split; [exact H1|exact H2].
    + apply (Htree REPOS (Demo.ui_readme Demo.readme_null) "peers-ui").
      * vm_compute. reflexivity.
      * exact REPOS_distinct_outputs.
      * right. left.
      * reflexivity.
      * split; [vm_compute; reflexivity|]. split; [vm_compute; reflexivity|].
        split; [intros [rest Hrest]; vm_compute in Hrest; discriminate Hrest|].
        exists [], "README.md". split; [reflexivity|]. split; [constructor|].
        split; [reflexivity|]. split; reflexivity.
      * vm_compute. reflexivity.
Defined.

(** C2 on the two layouts of the repository table. *)
Example edit_url_dedicated :
  custom_url {| repo := "org/sdk"; local := "_sources/sdk";
                docsDir := Some "docs"; branch := Some "main" |} "devices.md"
  = "https://github.com/org/sdk/edit/main/docs/devices.md".
Proof. reflexivity. Qed.

Example edit_url_root :
  custom_url {| repo := "org/ui"; local := "_sources/ui";
                docsDir := Some "."; branch := Some "main" |} "README.md"
  = "https://github.com/org/ui/edit/main/README.md".
Proof. reflexivity. Qed.

Example edit_url_defaults :
  custom_url {| repo := "org/sdk"; local := "_sources/sdk";
                docsDir := None; branch := None |} "data/orm.md"
  = "https://github.com/org/sdk/edit/main/docs/data/orm.md".
Proof. reflexivity. Qed.

(** Only the path is normalized: a branch name with a backslash, which
    git does not allow, would reach the URL as it is. *)
Example backslash_in_branch_kept :
  custom_url {| repo := "peers-app/peers-ui"; local := "_sources/peers-ui";
                docsDir := Some "."; branch := Some "release\1.0" |} "README.md"
  = "https://github.com/peers-app/peers-ui/edit/release\1.0/README.md"
  ∧ Str.contains Str.backslash
      (custom_url {| repo := "peers-app/peers-ui"; local := "_sources/peers-ui";
                     docsDir := Some "."; branch := Some "release\1.0" |} "README.md")
    = true.
Proof. split; reflexivity. Qed.

(** C2, witness: a nested document of peers-sdk, with either separator. *)
Lemma edit_url_computed_witness :
  custom_url Demo.peers_sdk "data/orm.md"
  = "https://github.com/peers-app/peers-sdk/edit/main/docs/data/orm.md"
  ∧ custom_url Demo.peers_sdk "data\orm.md" = custom_url Demo.peers_sdk "data/orm.md"
  ∧ Str.contains Str.backslash (custom_url Demo.peers_sdk "data/orm.md") = false.
Proof.
  destruct (edit_url_computed Demo.peers_sdk ["data"; "orm.md"])
    as (_ & H2 & H3 & H4 & _).
  - reflexivity.
  - reflexivity.
  - discriminate.
  - repeat constructor; discriminate.
  - split; [|split; [exact H3|exact H4]].
    apply H2; [reflexivity|]. repeat constructor; discriminate.
Defined.

(** C3, counterexample: the README of peers-ui is there when the run
    starts, its copy fails with "not found", and the run ends with status
    1 and an error, not with a warning and status 0. *)
Lemma not_found_during_copy_aborts :
  is_Some (Demo.sources !! ["_sources"; "peers-ui"; "README.md"])
  ∧ (main FlatYaml.engines Demo.vanishing Demo.no_env REPOS Demo.sources).1 = 1%nat
  ∧ res (main FlatYaml.engines Demo.vanishing Demo.no_env REPOS Demo.sources).2
    = Throw (FsError ENOENT OpCopy ["_sources"; "peers-ui"; "README.md"])
  ∧ console (main FlatYaml.engines Demo.vanishing Demo.no_env REPOS Demo.sources).2
    = [Error (FsError ENOENT OpCopy ["_sources"; "peers-ui"; "README.md"])].
Proof. split; [by eexists|]. by vm_compute. Qed.

(** C3, witness: the docs directory of peers-sdk is there and its copy
    is refused; the script ends with status 1.  The checkout of
    peers-host is missing: it is skipped with its warning. *)
Lemma error_propagation_witness :
  (main FlatYaml.engines Demo.refused Demo.no_env REPOS Demo.sources).1 = 1%nat
  ∧ process_repo FlatYaml.engines Demo.refused Demo.peers_host Demo.partial_sources
    = Outcome (Ok tt) Demo.partial_sources
        [skip_warning Demo.peers_host].
Proof.
  destruct (error_propagation FlatYaml.engines Demo.refused Demo.no_env REPOS Demo.sources)
    as (_ & _ & _ & _ & _ & Hcopy & Hskip).
  split.
  - destruct (Hcopy EACCES Demo.peers_sdk "peers-sdk") as [Hexit _]; [..|exact Hexit].
    + vm_compute. reflexivity.
    + exact REPOS_short_names.
    + left.
    + reflexivity.
    + reflexivity.
    + intros [rest Hrest]. vm_compute in Hrest. discriminate Hrest.
    + vm_compute. eexists. reflexivity.
    + vm_compute. reflexivity.
  - exact (Hskip Demo.peers_host "peers-host" Demo.partial_sources eq_refl
             ltac:(vm_compute; reflexivity)).
Defined.



(** C5, witness: the test set-up, aggregated twice. *)
Lemma aggregation_idempotent_witness :
  main FlatYaml.engines Demo.no_faults Demo.no_env REPOS
    (fs (run FlatYaml.engines Demo.no_faults REPOS Demo.sources))
  = (0%nat, run FlatYaml.engines Demo.no_faults REPOS Demo.sources).
Proof.
  refine (proj2 (aggregation_idempotent FlatYaml.engines Demo.no_faults Demo.no_env
                   REPOS Demo.sources (run FlatYaml.engines Demo.no_faults REPOS Demo.sources)
                   sources_well_formed _) REPOS_short_names).
  vm_compute. reflexivity.
Defined.

(** C6, witness: the table with the checkout of peers-host missing. *)
Lemma missing_source_skipped_witness :
  res (run FlatYaml.engines Demo.no_faults REPOS Demo.partial_sources)
  = res (run FlatYaml.engines Demo.no_faults
           ([Demo.peers_sdk; Demo.peers_ui] ++ drop 3 REPOS) Demo.partial_sources)
  ∧ fs (run FlatYaml.engines Demo.no_faults REPOS Demo.partial_sources)
    = fs (run FlatYaml.engines Demo.no_faults
            ([Demo.peers_sdk; Demo.peers_ui] ++ drop 3 REPOS) Demo.partial_sources)
  ∧ (∀ rel, fs (run FlatYaml.engines Demo.no_faults REPOS Demo.partial_sources)
              !! (out_of "peers-host" ++ rel) = None)
  ∧ ∃ text,
      annotate FlatYaml.engines Demo.peers_sdk "data/orm.md"
        (Demo.para "# ORM" "Data layer documentation.") = Ok text
      ∧ fs (run FlatYaml.engines Demo.no_faults REPOS Demo.partial_sources)
          !! ["projects"; "peers-sdk"; "data"; "orm.md"] = Some (File text).
Proof.
  destruct (missing_source_skipped FlatYaml.engines Demo.no_faults Demo.no_env
              [Demo.peers_sdk; Demo.peers_ui] Demo.peers_host
              (drop 3 REPOS) "peers-host" Demo.partial_sources)
    as (H1 & H2 & _ & _ & H5).
  - vm_compute. reflexivity.
  - reflexivity.
  - repeat constructor; discriminate.
  - intros [rest Hrest]. vm_compute in Hrest. discriminate Hrest.
  - vm_compute. reflexivity.
  - destruct H5 as [H5 H6].
    + exact partial_sources_well_formed.
    + exact REPOS_distinct_outputs.
    + vm_compute. reflexivity.
    + split; [exact H1|]. split; [exact H2|]. split; [exact H5|].
      apply (H6 Demo.peers_sdk "peers-sdk" ["data"; "orm.md"]
               (Demo.para "# ORM" "Data layer documentation.")).
      * left.
      * reflexivity.
      * split; [vm_compute; reflexivity|]. split; [vm_compute; reflexivity|].
        split; [intros [rest Hrest]; vm_compute in Hrest; discriminate Hrest|].
        exists ["data"], "orm.md". split; [reflexivity|]. split; [repeat constructor|].
        split; [reflexivity|]. split; [reflexivity|discriminate].
Defined.


Example fallback_index_text :
  fs (run FlatYaml.engines Demo.no_faults REPOS Demo.ui_with_image)
    !! ["projects"; "peers-ui"; "index.md"]
  = Some (File (Demo.front_matter
                  ["custom_edit_url: 'https://github.com/peers-app/peers-ui'"]
                  (Demo.para "# peers-ui"
                     ("Project documentation aggregated from " +:+ Str.BACKTICK
                      +:+ "peers-app/peers-ui" +:+ Str.BACKTICK +:+ "." +:+ Str.LF)))).
Proof. by vm_compute. Qed.


(** C8: with [OUT_ROOT=test-projects] in the environment, as the test
    suite sets it, the run is the run without it: the documents are below
    [projects] and nothing is at [test-projects]. *)
Theorem out_root_override_ignored :
  main FlatYaml.engines Demo.no_faults Demo.test_env REPOS Demo.sources
  = main FlatYaml.engines Demo.no_faults Demo.no_env REPOS Demo.sources
  ∧ Demo.test_env "OUT_ROOT" = Some "test-projects"
  ∧ (main FlatYaml.engines Demo.no_faults Demo.test_env REPOS Demo.sources).1 = 0%nat
  ∧ fs (main FlatYaml.engines Demo.no_faults Demo.test_env REPOS Demo.sources).2
      !! ["test-projects"] = None
  ∧ is_Some (fs (main FlatYaml.engines Demo.no_faults Demo.test_env REPOS Demo.sources).2
               !! ["projects"; "peers-sdk"; "devices.md"]).
Proof.
  split; [apply main_ignores_env|].
  split; [reflexivity|]. split; [by vm_compute|]. split; [by vm_compute|].
  vm_compute. by eexists.
Qed.

(** C9, counterexample: an image in the docs directory of peers-sdk, and
    an image below [docs] in peers-ui, are copied into the output tree. *)
Lemma images_are_copied :
  is_markdown "arch.png" = false
  ∧ fs (run FlatYaml.engines Demo.no_faults REPOS Demo.sdk_with_image)
      !! ["projects"; "peers-sdk"; "arch.png"] = Some (File "PNG")
  ∧ is_markdown "shot.png" = false
  ∧ fs (run FlatYaml.engines Demo.no_faults REPOS Demo.ui_with_image)
      !! ["projects"; "peers-ui"; "docs"; "shot.png"] = Some (File "PNG").
Proof. by vm_compute. Qed.

(** C9, witness: an image three directories below the root of peers-ui
    is selected by the second pass. *)
Lemma selection_by_extension_witness :
  ∃ files,
    res (globby Demo.no_faults docPatterns ["_sources"; "peers-ui"] Demo.ui_nested_image)
    = Ok files
    ∧ ["docs"; "img"; "deep"; "shot.png"] ∈ files
    ∧ is_markdown "shot.png" = false.
Proof.
  destruct (selection_by_extension Demo.no_faults ["_sources"; "peers-ui"]
              Demo.ui_nested_image) as (_ & Hdeep & _).
  eexists. split; [vm_compute; reflexivity|]. split; [|reflexivity].
  apply (Hdeep _ "docs" ["img"; "deep"] "shot.png" "PNG").
  - by left.
  - vm_compute. reflexivity.
  - repeat constructor.
  - reflexivity.
  - vm_compute. reflexivity.
Defined.

(** What an earlier run left for a repository that is no longer
    configured is gone after a run. *)
Example previous_output_removed :
  Demo.partial_sources !! ["projects"; "retired"; "old.md"] = Some (File "# Old")
  ∧ fs (run FlatYaml.engines Demo.no_faults REPOS Demo.partial_sources)
      !! ["projects"; "retired"; "old.md"] = None.
Proof. by vm_compute. Qed.

(** One missing checkout out of five: one warning, and the run succeeds. *)
Example one_warning_for_one_missing_checkout :
  (main FlatYaml.engines Demo.no_faults Demo.no_env REPOS Demo.partial_sources).1 = 0%nat
  ∧ console (main FlatYaml.engines Demo.no_faults Demo.no_env REPOS Demo.partial_sources).2
    = [Warn "[skip] peers-app/peers-host has no _sources/peers-host";
       Log "Aggregation complete."].
Proof. by vm_compute. Qed.

(** * The other scripts on concrete trees *)

(** A no-break space (U+00A0, two bytes) in front of a statement is
    trimmed like a space, and a line that holds nothing but an ideographic
    space (U+3000) ends a section. *)
Example unicode_white_space_is_trimmed :
  FixMdx.is_module_line
    (String (ascii_of_nat 194) (String (ascii_of_nat 160) "export const x = 1;")) = true
  ∧ FixMdx.ends_section
      (String (ascii_of_nat 227) (String (ascii_of_nat 128) (String (ascii_of_nat 128) ""))) = true
  ∧ Str.trim (String (ascii_of_nat 239) (String (ascii_of_nat 187) (String (ascii_of_nat 191) " a b ")))
    = "a b".
Proof. by vm_compute. Qed.

(** X4, witness: a document with one module statement, which the first
    scan wraps. *)
Lemma scan_idempotent_witness :
  FixMdx.lines
    (FixMdx.fix_lines "api.md"
       (FixMdx.lines
          (FixMdx.fix_lines "api.md" ["# API"; ""; "export const a = 1;"; ""; "Text."])))
  = FixMdx.lines (FixMdx.fix_lines "api.md" ["# API"; ""; "export const a = 1;"; ""; "Text."])
  ∧ FixMdx.modified
      (FixMdx.fix_lines "api.md"
         (FixMdx.lines
            (FixMdx.fix_lines "api.md" ["# API"; ""; "export const a = 1;"; ""; "Text."])))
    = false.
Proof. apply scan_idempotent. reflexivity. Defined.

(** The scan of that document. *)
Example scan_wraps_a_statement :
  FixMdx.lines (FixMdx.fix_lines "api.md" ["# API"; ""; "export const a = 1;"; ""; "Text."])
  = ["# API"; ""; "```typescript"; "export const a = 1;"; "```"; ""; "Text."]
  ∧ FixMdx.logged (FixMdx.fix_lines "api.md" ["# API"; ""; "export const a = 1;"; ""; "Text."])
    = [Log "⚠️  Found unescaped export/import in api.md:3"; Log "   Line: export const a = 1;"].
Proof. by vm_compute. Qed.

(** A fence inside a section that the scan wraps ends the new block
    early: the next scan finds the rest of the section outside the
    fences and wraps it again. *)
Example scan_twice_differs :
  FixMdx.lines (FixMdx.fix_lines "api.md" ["export a"; "```"; "export b"])
  = ["```typescript"; "export a"; "```"; "export b"; "```"]
  ∧ FixMdx.lines
      (FixMdx.fix_lines "api.md"
         (FixMdx.lines (FixMdx.fix_lines "api.md" ["export a"; "```"; "export b"])))
    = ["```typescript"; "export a"; "```"; "```typescript"; "export b"; "```"; "```"].
Proof. by vm_compute. Qed.

(** X5, witness: the README of peers-ui in its output directory. *)
Lemma inject_rewrites_witness :
  ∃ text,
    annotate FlatYaml.engines Demo.peers_ui "README.md" "# Peers UI" = Ok text
    ∧ fs (inject FlatYaml.engines Demo.no_faults Demo.peers_ui ["projects"; "peers-ui"]
            (Demo.file "projects/peers-ui/README.md" "# Peers UI" ∅))
        !! ["projects"; "peers-ui"; "README.md"]
      = Some (File text).
Proof.
  destruct (inject_rewrites FlatYaml.engines Demo.no_faults Demo.peers_ui ["projects"; "peers-ui"]
              (Demo.file "projects/peers-ui/README.md" "# Peers UI" ∅)) as (H & _).
  - repeat constructor; discriminate.
  - vm_compute. reflexivity.
  - apply (H [] "README.md" "# Peers UI").
    + vm_compute. reflexivity.
    + constructor.
    + reflexivity.
    + reflexivity.
Defined.

(** X6, witness: a document of peers-sdk with a module statement. *)
Lemma fixMdx_rewrites_witness :
  fs (fixMdxCodeBlocks Demo.no_faults
        (Demo.file "projects/peers-sdk/api.md"
           (Demo.para "# API" "export const a = 1;") ∅))
    !! ["projects"; "peers-sdk"; "api.md"]
  = Some (File (Str.join_with Str.LF
                  ["# API"; ""; "```typescript"; "export const a = 1;"; "```"])).
Proof.
  destruct (fixMdx_rewrites Demo.no_faults
              (Demo.file "projects/peers-sdk/api.md"
                 (Demo.para "# API" "export const a = 1;") ∅)) as (H & _).
  - vm_compute. reflexivity.
  - apply (H ["peers-sdk"] "api.md" (Demo.para "# API" "export const a = 1;")).
    + vm_compute. reflexivity.
    + repeat constructor.
    + reflexivity.
    + reflexivity.
Defined.

(** X7, witness: the README of peers-ui in the sources of the test
    set-up. *)
Lemma sources_untouched_witness :
  fs (run FlatYaml.engines Demo.no_faults REPOS Demo.sources)
    !! ["_sources"; "peers-ui"; "README.md"]
  = Demo.sources !! ["_sources"; "peers-ui"; "README.md"]
  ∧ fs (main FlatYaml.engines Demo.no_faults Demo.no_env REPOS Demo.sources).2
      !! ["_sources"; "peers-ui"; "README.md"]
    = Demo.sources !! ["_sources"; "peers-ui"; "README.md"].
Proof.
  apply sources_untouched.
  - exact REPOS_short_names.
  - intros [rest Hrest]. vm_compute in Hrest. discriminate Hrest.
Defined.

(** X8, witness: a table whose first identifier is [peers-sdk]. *)
Lemma identifier_without_slash_aborts_witness :
  (main FlatYaml.engines Demo.no_faults Demo.no_env
     ([] ++ {| repo := "peers-sdk"; local := "_sources/peers-sdk";
               docsDir := Some "docs"; branch := Some "main" |} :: REPOS)
     Demo.sources).1 = 1%nat
  ∧ res (main FlatYaml.engines Demo.no_faults Demo.no_env
           ([] ++ {| repo := "peers-sdk"; local := "_sources/peers-sdk";
                     docsDir := Some "docs"; branch := Some "main" |} :: REPOS)
           Demo.sources).2
    = Throw path_type_error.
Proof.
  destruct (identifier_without_slash_aborts FlatYaml.engines Demo.no_faults Demo.no_env []
              {| repo := "peers-sdk"; local := "_sources/peers-sdk";
                 docsDir := Some "docs"; branch := Some "main" |} REPOS Demo.sources)
    as (H1 & H2 & _).
  - reflexivity.
  - vm_compute. reflexivity.
  - reflexivity.
  - split; [exact H1|exact H2].
Defined.

(** X10, witness: the table with the checkout of peers-host missing. *)
Lemma console_of_a_run_witness :
  main FlatYaml.engines Demo.no_faults Demo.no_env REPOS Demo.partial_sources
  = (0%nat, run FlatYaml.engines Demo.no_faults REPOS Demo.partial_sources)
  ∧ console (run FlatYaml.engines Demo.no_faults REPOS Demo.partial_sources)
    = (skip_warning <$> filter (λ r, node_at Demo.partial_sources (srcDocs_of r) = None) REPOS)
      ++ [Log "Aggregation complete."].
Proof.
  apply console_of_a_run.
  - exact REPOS_located.
  - exact REPOS_short_names.
  - repeat constructor; intros [rest Hrest]; vm_compute in Hrest; discriminate Hrest.
  - vm_compute. reflexivity.
Defined.

(** X11, witness: the output of a repository that is no longer
    configured. *)
Lemma output_isolation_witness :
  fs (run FlatYaml.engines Demo.no_faults REPOS Demo.partial_sources)
    !! ["projects"; "retired"; "old.md"] = None.
Proof.
  apply output_isolation.
  - exact partial_sources_well_formed.
  - vm_compute. reflexivity.
  - exists ["retired"; "old.md"]. reflexivity.
  - intros [H|(r & name & Hin & Hname & [rest Hrest])]; [discriminate H|].
    repeat (apply elem_of_cons in Hin as [->|Hin];
            [vm_compute in Hname; injection Hname as <-; vm_compute in Hrest;
             discriminate Hrest|]).
    by apply elem_of_nil in Hin.
Defined.

(** X12, witness: the README of peers-ui. *)
Lemma root_document_annotated_witness :
  ∃ text,
    annotate FlatYaml.engines Demo.peers_ui "README.md"
      (Demo.para "# Peers UI" "React UI components for peers application.") = Ok text
    ∧ fs (process_repo FlatYaml.engines Demo.no_faults Demo.peers_ui Demo.sources)
        !! (out_of "peers-ui" ++ ["README.md"])
      = Some (File text).
Proof.
  apply root_document_annotated.
  - vm_compute. reflexivity.
  - reflexivity.
  - reflexivity.
  - intros [rest Hrest]. vm_compute in Hrest. discriminate Hrest.
  - vm_compute. reflexivity.
  - vm_compute. reflexivity.
  - reflexivity.
  - reflexivity.
  - vm_compute. reflexivity.
Defined.

(** X13, witness: a nested document of peers-sdk. *)
Lemma dedicated_document_annotated_witness :
  ∃ text,
    annotate FlatYaml.engines Demo.peers_sdk (Path.render (["data"] ++ ["orm.md"]))
      (Demo.para "# ORM" "Data layer documentation.") = Ok text
    ∧ fs (process_repo FlatYaml.engines Demo.no_faults Demo.peers_sdk Demo.sources)
        !! (out_of "peers-sdk" ++ ["data"] ++ ["orm.md"])
      = Some (File text).
Proof.
  apply dedicated_document_annotated.
  - vm_compute. reflexivity.
  - reflexivity.
  - reflexivity.
  - vm_compute. reflexivity.
  - vm_compute. reflexivity.
  - repeat constructor.
  - reflexivity.
  - reflexivity.
  - vm_compute. reflexivity.
Defined.

(** X14, witness: the table of the script, on an empty tree. *)
Lemma test_sources_created_witness :
  (∀ p text,
     (p, text) ∈ targets TestSources.testRepos →
     fs (setupTestSources Demo.no_faults TestSources.testRepos ∅) !! p = Some (File text))
  ∧ (∀ k text,
       strictly_below sources_root k →
       fs (setupTestSources Demo.no_faults TestSources.testRepos ∅) !! k = Some (File text) →
       (k, text) ∈ targets TestSources.testRepos)
  ∧ console (setupTestSources Demo.no_faults TestSources.testRepos ∅)
    = Log "Setting up test source directories..."
      :: (created <$> TestSources.testRepos) ++ [Log "Test sources setup complete!"].
Proof.
  apply test_sources_created.
  - intros k n H. by rewrite lookup_empty in H.
  - apply (bool_decide_unpack _). by vm_compute.
  - vm_compute. reflexivity.
Defined.

(** The sources of the examples above are the ones the script
    writes. *)
Example test_sources_are_the_demo_sources :
  fs (setupTestSources Demo.no_faults TestSources.testRepos ∅) = Demo.sources.
Proof.
  apply map_to_list_inj.
  assert (map_to_list (fs (setupTestSources Demo.no_faults TestSources.testRepos ∅))
          = map_to_list Demo.sources) as ->; [|done].
  vm_compute. reflexivity.
Qed.

(** X16, witness: a clone of peers-sdk that is not a git repository. *)
Lemma clone_copied_witness :
  fs (sync_repo Demo.no_faults "/home/dev/site" (λ _ _, None)
        {| SyncLocal.repo := "peers-app/peers-sdk"; SyncLocal.localSource := "../peers-sdk";
           SyncLocal.docsDir := Some "docs"; SyncLocal.branch := Some "main" |}
        Demo.sdk_clone)
    !! ["_sources"; "peers-sdk"; "docs"; "index.md"]
  = Some (File "# Docs")
  ∧ fs (sync_repo Demo.no_faults "/home/dev/site" (λ _ _, None)
          {| SyncLocal.repo := "peers-app/peers-sdk"; SyncLocal.localSource := "../peers-sdk";
             SyncLocal.docsDir := Some "docs"; SyncLocal.branch := Some "main" |}
          Demo.sdk_clone)
      !! ["_sources"; "peers-sdk"; "docs"; "rebuild.md"]
    = None.
Proof.
  destruct (clone_copied Demo.no_faults "/home/dev/site" (λ _ _, None)
              {| SyncLocal.repo := "peers-app/peers-sdk"; SyncLocal.localSource := "../peers-sdk";
                 SyncLocal.docsDir := Some "docs"; SyncLocal.branch := Some "main" |}
              "peers-sdk" Demo.sdk_clone) as (H1 & H2 & _).
  - reflexivity.
  - vm_compute. reflexivity.
  - vm_compute. reflexivity.
  - split.
    + apply (H1 ["docs"; "index.md"]).
      * discriminate.
      * vm_compute. reflexivity.
      * vm_compute. reflexivity.
    + etrans; [apply (H2 ["docs"; "rebuild.md"])|].
      * discriminate.
      * vm_compute. reflexivity.
      * vm_compute. reflexivity.
Defined.

(** What the filter makes of some names. *)
Example filter_by_substring :
  SyncLocal.filter "docs/index.md" = true
  ∧ SyncLocal.filter ".git/config" = false
  ∧ SyncLocal.filter ".github/workflows/ci.yml" = false
  ∧ SyncLocal.filter ".gitignore" = false
  ∧ SyncLocal.filter "docs/rebuild.md" = false
  ∧ SyncLocal.filter "docs/distribution.md" = false.
Proof. by vm_compute. Qed.
